(** * Team optimizer: a shallow embedding of web/optimizer.js

    The development follows the JavaScript port of the softball team
    optimizer (classes [Player], [Team] and [TeamOptimizer]), and with it the
    arithmetic of the page script (app.js) and the line reader of the CSV
    parser (parser.js).

    Modelling conventions.
    - JavaScript numbers that hold skill scores, attendance rates, variances
      and fitness values are IEEE 754 binary64 values: Rocq's primitive
      floats, with the same rounding.  [Math.pow(d, 2)] is [d * d].
    - JavaScript numbers that hold array indices, team indices and head
      counts are natural numbers, and the integer penalty accumulators are
      integers (all stay far below 2^53, where binary64 is exact); [ofNat]
      and [ofZ] convert them when they meet a float.
    - [Math.random()] reads the next cell of a tape of draws; a draw is a
      rational of the half-open unit interval, by construction.
    - A thrown [TypeError] is [None]: in the option monad for code that does
      not draw, in the monad [M] (tape, cursor, exception) for code that does.
    - An array is a list; [a[i]] is [a !! i] and the write [a[i] = v] is
      [<[i:=v]> a].  Every write of the optimizer lands inside the array when
      the individual has one cell per player.
    - A [Team] holds references to players; a reference is the index of the
      player in the optimizer's player array (an index past the end is the
      [undefined] that [this.players[playerIdx]] evaluates to).
    - The co-assign groups object has integer keys.  JavaScript enumerates
      the keys that are array indices (the ids below 2^32 - 1) in ascending
      order: an association list kept sorted.  Larger ids are enumerated
      after them, in insertion order; where a statement speaks of the order
      of the entries, it is for ids below 2^32 - 1.
    - [Math.floor(Math.random() * n)] and [Math.random() < p] are computed
      on the draw as a rational, without the rounding of the product. *)

From Stdlib Require Import ZArith QArith Qcanon Uint63 Floats String Sorted Lia.
From stdpp Require Import numbers base tactics option list.

Local Open Scope nat_scope.

(** ** The ambient random source and the monad of the optimizer *)

(** A draw is the rational [draw_num / (draw_num + draw_gap + 1)]. *)
Record draw := Draw { draw_num : nat; draw_gap : nat }.

Definition draw_den (d : draw) : nat := draw_num d + S (draw_gap d).

(** [Math.floor(d * n)] *)
Definition floor_scaled (d : draw) (n : nat) : nat :=
  (draw_num d * n) / draw_den d.

(** [d < p / q] *)
Definition draw_below (d : draw) (p q : nat) : bool :=
  draw_num d * q <? p * draw_den d.

Definition Tape := nat -> draw.

Definition M (A : Type) : Type := Tape -> nat -> option (A * nat).

Definition ret {A} (a : A) : M A := fun _ c => Some (a, c).

Definition bind {A B} (m : M A) (k : A -> M B) : M B :=
  fun t c => match m t c with
             | Some (a, c') => k a t c'
             | None => None
             end.

Definition lift {A} (o : option A) : M A :=
  fun _ c => match o with Some a => Some (a, c) | None => None end.

Notation "x <- c1 ;; c2" := (bind c1 (fun x => c2))
  (at level 20, c1 at level 99, c2 at level 200, only parsing).
Notation "' pat <- c1 ;; c2" := (bind c1 (fun x => match x with pat => c2 end))
  (at level 20, pat pattern, c1 at level 99, c2 at level 200, only parsing).

(** [Math.random()] *)
Definition random : M draw := fun t c => Some (t c, S c).

(** [Math.floor(Math.random() * n)] *)
Definition randomInt (n : nat) : M nat :=
  d <- random;; ret (floor_scaled d n).

(** [Math.random() < p / q] *)
Definition randomBelow (p q : nat) : M bool :=
  d <- random;; ret (draw_below d p q).

(** The binary64 value of a count or of a penalty (never negative). *)
Definition ofZ (z : Z) : float :=
  PrimFloat.of_uint63 (Uint63.of_Z z).

Definition ofNat (n : nat) : float := ofZ (Z.of_nat n).

(** [xs.reduce((a, b) => a + b, 0)] *)
Definition fsum (xs : list float) : float :=
  foldl PrimFloat.add 0%float xs.

(** ** Player *)

(** The fields the optimizer reads, as the constructor leaves them; a group
    id is a positive integer ([0] and a missing id both become [null]). *)
Record Player := mkPlayer {
  name : string;
  position : string;
  totalScore : float;
  attendance : float;
  isCoach : bool;
  coAssignGroup : option positive
}.

Definition isOutfielder (p : Player) : bool :=
  String.eqb (position p) "CF"%string || String.eqb (position p) "OF"%string.

Definition canPlayPosition (p : Player) (pos : string) : bool :=
  if String.eqb pos "OF"%string && isOutfielder p then true
  else String.eqb (position p) pos.

(** The test of [Team.getPositionCount]. *)
Definition matchesPosition (pos : string) (p : Player) : bool :=
  if String.eqb pos "OF"%string then isOutfielder p
  else String.eqb (position p) pos.

(** ** Team *)

Module Team.

Record t := mk { teamId : nat; players : list nat }.

Definition new (i : nat) : t := mk i [].

Definition addPlayer (tm : t) (ref : nat) : t :=
  mk (teamId tm) (players tm ++ [ref]).

Section Accessors.
(** The array the references point into. *)
Variable roster : list Player.

(** Dereferences every member; a property read on [undefined] throws. *)
Definition deref (tm : t) : option (list Player) :=
  mapM (fun i => roster !! i) (players tm).

Definition getAverageSkill (tm : t) : option float :=
  if length (players tm) =? 0 then Some 0%float
  else ps ← deref tm;
       Some (fsum (map totalScore ps) / ofNat (length (players tm)))%float.

Definition getAverageAttendance (tm : t) : option float :=
  if length (players tm) =? 0 then Some 0%float
  else ps ← deref tm;
       Some (fsum (map attendance ps) / ofNat (length (players tm)))%float.

Definition getSkillVariance (tm : t) : option float :=
  if length (players tm) <? 2 then Some 0%float
  else avg ← getAverageSkill tm;
       ps ← deref tm;
       let squaredDiffs :=
         map (fun p => (totalScore p - avg) * (totalScore p - avg))%float ps in
       Some (fsum squaredDiffs / ofNat (length (players tm)))%float.

Definition getPositionCount (tm : t) (pos : string) : option nat :=
  ps ← deref tm; Some (length (List.filter (matchesPosition pos) ps)).

Definition coachCount (tm : t) : option nat :=
  ps ← deref tm; Some (length (List.filter isCoach ps)).

Definition hasCoach (tm : t) : option bool :=
  ps ← deref tm; Some (existsb isCoach ps).
End Accessors.

End Team.

(** ** TeamOptimizer: construction *)

(** The [options] argument of the constructor. *)
Record Options := mkOptions {
  opt_populationSize : option nat;
  opt_generations : option nat;
  opt_onProgress : bool
}.

(** [x || d] for an optional count: absent and [0] are both falsy. *)
Definition orDefault (x : option nat) (d : nat) : nat :=
  match x with
  | Some (S n) => S n
  | _ => d
  end.

(** [groups[g].push(idx)], creating the entry when it is missing; the
    entries stay in ascending key order, the order of [Object.entries] for
    ids below 2^32 - 1. *)
Fixpoint pushGroup (g : positive) (idx : nat)
    (groups : list (positive * list nat)) : list (positive * list nat) :=
  match groups with
  | [] => [(g, [idx])]
  | (h, members) :: rest =>
      match (g ?= h)%positive with
      | Eq => (h, members ++ [idx]) :: rest
      | Lt => (g, [idx]) :: groups
      | Gt => (h, members) :: pushGroup g idx rest
      end
  end.

Fixpoint buildGroupsFrom (idx : nat) (ps : list Player)
    (groups : list (positive * list nat)) : list (positive * list nat) :=
  match ps with
  | [] => groups
  | player :: rest =>
      buildGroupsFrom (S idx) rest
        (match coAssignGroup player with
         | Some g => pushGroup g idx groups
         | None => groups
         end)
  end.

Definition buildCoAssignGroups (ps : list Player) : list (positive * list nat) :=
  buildGroupsFrom 0 ps [].

Record TeamOptimizer := mkOptimizer {
  players : list Player;
  numTeams : nat;
  numPlayers : nat;
  populationSize : nat;
  generations : nat;
  coAssignGroups : list (positive * list nat);
  onProgress : bool
}.

(** [new TeamOptimizer(players, numTeams, options)] *)
Definition newOptimizer (ps : list Player) (teams : nat) (options : Options)
    : TeamOptimizer :=
  {| players := ps;
     numTeams := teams;
     numPlayers := length ps;
     populationSize := orDefault (opt_populationSize options) 300;
     generations := orDefault (opt_generations options) 500;
     coAssignGroups := buildCoAssignGroups ps;
     onProgress := opt_onProgress options |}.

(** [group.includes(i)] *)
Definition includes (group : list nat) (i : nat) : bool :=
  existsb (Nat.eqb i) group.

(** [Object.values(groups).some(group => group.includes(i))] *)
Definition isCoAssigned (groups : list (positive * list nat)) (i : nat) : bool :=
  existsb (fun entry => includes entry.2 i) groups.

(** The loop that collects the players outside every group. *)
Definition nonCoAssignIndices (self : TeamOptimizer) : list nat :=
  List.filter (fun i => negb (isCoAssigned (coAssignGroups self) i))
    (seq 0 (numPlayers self)).

(** ** Encoding *)

Abbreviation Individual := (list nat).

(** [members.forEach(idx => { individual[idx] = team })] *)
Definition writeAll (team : nat) (individual : Individual) (members : list nat)
    : Individual :=
  foldl (fun ind idx => <[idx:=team]> ind) individual members.

(** [playerIndices.forEach(idx => { individual[idx] = team; assigned[idx] = true })] *)
Definition assignGroup (team : nat) (playerIndices : list nat)
    (st : Individual * list bool) : Individual * list bool :=
  foldl (fun st idx => (<[idx:=team]> st.1, <[idx:=true]> st.2)) st playerIndices.

Fixpoint createGroups (teams : nat) (groups : list (positive * list nat))
    (st : Individual * list bool) : M (Individual * list bool) :=
  match groups with
  | [] => ret st
  | (_, playerIndices) :: rest =>
      team <- randomInt teams;;
      createGroups teams rest (assignGroup team playerIndices st)
  end.

Fixpoint createRemaining (teams : nat) (pending : list nat) (assigned : list bool)
    (individual : Individual) : M Individual :=
  match pending with
  | [] => ret individual
  | i :: rest =>
      match assigned !! i with
      | Some true => createRemaining teams rest assigned individual
      | _ => team <- randomInt teams;;
             createRemaining teams rest assigned (<[i:=team]> individual)
      end
  end.

Definition createIndividual (self : TeamOptimizer) : M Individual :=
  let individual := replicate (numPlayers self) 0 in
  let assigned := replicate (numPlayers self) false in
  st <- createGroups (numTeams self) (coAssignGroups self) (individual, assigned);;
  createRemaining (numTeams self) (seq 0 (numPlayers self)) st.2 st.1.

(** The [forEach] of [decodeIndividual]: [teams[teamId]] is [undefined] for
    a cell outside the team array, and calling [addPlayer] on it throws. *)
Fixpoint placePlayers (playerIdx : nat) (cells : list nat) (teams : list Team.t)
    : option (list Team.t) :=
  match cells with
  | [] => Some teams
  | teamId :: rest =>
      tm ← teams !! teamId;
      placePlayers (S playerIdx) rest (<[teamId := Team.addPlayer tm playerIdx]> teams)
  end.

Definition decodeIndividual (self : TeamOptimizer) (individual : Individual)
    : option (list Team.t) :=
  placePlayers 0 individual (map Team.new (seq 0 (numTeams self))).

(** ** Fitness evaluation *)

Definition requiredPositions : list string :=
  ["SS"; "CF"; "2B"; "3B"; "P"; "1B"; "C"]%string.

(** [Math.max(...sizes)] and [Math.min(...sizes)]; [None] stands for the
    infinities JavaScript returns when there is no team. *)
Definition maxOf (sizes : list nat) : option nat :=
  match sizes with
  | [] => None
  | s :: rest => Some (foldl Nat.max s rest)
  end.

Definition minOf (sizes : list nat) : option nat :=
  match sizes with
  | [] => None
  | s :: rest => Some (foldl Nat.min s rest)
  end.

(** [maxSize - minSize], which is [-Infinity] (never above 1) without teams. *)
Definition sizeGap (sizes : list nat) : nat :=
  match maxOf sizes, minOf sizes with
  | Some maxSize, Some minSize => maxSize - minSize
  | _, _ => 0
  end.

(** [values.indexOf(v)] with [None] for [-1]. *)
Fixpoint indexOf {A} (same : A -> A -> bool) (v : A) (values : list A) : option nat :=
  match values with
  | [] => None
  | x :: rest => if same x v then Some 0 else S <$> indexOf same v rest
  end.

(** The inner [requiredPositions.forEach] of [evaluate]. *)
Fixpoint missingRolePenalty (roster : list Player) (tm : Team.t)
    (positions : list string) (penalty : Z) : option Z :=
  match positions with
  | [] => Some penalty
  | pos :: rest =>
      count ← Team.getPositionCount roster tm pos;
      missingRolePenalty roster tm rest
        (if count <? 1 then (penalty + 10000)%Z else penalty)
  end.

(** The body of the outer [teams.forEach] of [evaluate]. *)
Definition teamPenalty (roster : list Player) (tm : Team.t) (penalty : Z)
    : option Z :=
  penalty ← missingRolePenalty roster tm requiredPositions penalty;
  totalOF ← Team.getPositionCount roster tm "OF"%string;
  let penalty :=
    if totalOF <? 3 then (penalty + 5000 * (3 - Z.of_nat totalOF))%Z else penalty in
  let size := length (Team.players tm) in
  Some (if size <? 9 then (penalty + 2000 * (9 - Z.of_nat size))%Z else penalty).

Fixpoint teamsPenalty (roster : list Player) (teams : list Team.t) (penalty : Z)
    : option Z :=
  match teams with
  | [] => Some penalty
  | tm :: rest => penalty ← teamPenalty roster tm penalty;
                  teamsPenalty roster rest penalty
  end.

(** [new Set(playerIndices.map(idx => individual[idx])).size > 1] *)
Definition groupIsSplit (individual : Individual) (playerIndices : list nat) : bool :=
  1 <? length (remove_dups (map (fun idx => individual !! idx) playerIndices)).

Definition splitPenalty (individual : Individual)
    (groups : list (positive * list nat)) (penalty : Z) : Z :=
  foldl (fun penalty entry =>
           if groupIsSplit individual entry.2 then (penalty + 500)%Z else penalty)
        penalty groups.

Definition imbalancePenalty (teamSizes : list nat) (penalty : Z) : Z :=
  if 1 <? sizeGap teamSizes
  then (penalty + 3000 * (Z.of_nat (sizeGap teamSizes) - 1))%Z
  else penalty.

(** [variance(values)], over the arithmetic it is evaluated in. *)
Section Variance.
Context {R : Type} (zero : R) (add sub mul div : R -> R -> R) (count : nat -> R).

Definition varianceOver (values : list R) : R :=
  if length values <? 2 then zero
  else
    let mean := div (foldl add zero values) (count (length values)) in
    let squaredDiffs := map (fun v => mul (sub v mean) (sub v mean)) values in
    div (foldl add zero squaredDiffs) (count (length values)).
End Variance.

(** The helper as JavaScript runs it, in binary64. *)
Definition variance : list float -> float :=
  varianceOver 0%float PrimFloat.add PrimFloat.sub PrimFloat.mul PrimFloat.div ofNat.

(** The count of a collection as a rational. *)
Definition countQc (n : nat) : Qc := Q2Qc (inject_Z (Z.of_nat n)).

(** The same code read in exact rational arithmetic. *)
Definition varianceExact : list Qc -> Qc :=
  varianceOver 0%Qc Qcplus Qcminus Qcmult Qcdiv countQc.

Definition coachPenaltyOf (totalCoaches teams : nat) (coachesPerTeam : list nat) : Z :=
  if 0 <? totalCoaches then
    if teams <=? totalCoaches then
      foldl (fun acc count =>
               if count =? 0 then (acc + 50)%Z
               else if 1 <? count then (acc + 30 * (Z.of_nat count - 1))%Z
               else acc) 0%Z coachesPerTeam
    else
      foldl (fun acc count =>
               if 1 <? count then (acc + 50 * (Z.of_nat count - 1))%Z else acc)
            0%Z coachesPerTeam
  else 0%Z.

(** The hard-constraint accumulator [penalty] of [evaluate], as it stands
    when the soft terms are added. *)
Definition hardPenalty (self : TeamOptimizer) (individual : Individual)
    (teams : list Team.t) : option Z :=
  penalty ← teamsPenalty (players self) teams 0%Z;
  let penalty := splitPenalty individual (coAssignGroups self) penalty in
  Some (imbalancePenalty (map (fun tm => length (Team.players tm)) teams) penalty).

Definition evaluate (self : TeamOptimizer) (individual : Individual) : option float :=
  teams ← decodeIndividual self individual;
  penalty ← hardPenalty self individual teams;
  avgSkills ← mapM (Team.getAverageSkill (players self)) teams;
  let skillVariance := variance avgSkills in
  avgAttendances ← mapM (Team.getAverageAttendance (players self)) teams;
  let attendanceVariance := variance avgAttendances in
  withinTeamVariances ← mapM (Team.getSkillVariance (players self)) teams;
  let avgWithinVariance :=
    (fsum withinTeamVariances / ofNat (length teams))%float in
  let totalCoaches := length (List.filter isCoach (players self)) in
  coachesPerTeam ←
    (if 0 <? totalCoaches then mapM (Team.coachCount (players self)) teams
     else Some []);
  let coachPenalty := coachPenaltyOf totalCoaches (numTeams self) coachesPerTeam in
  Some (ofZ penalty
        + skillVariance * 50
        + attendanceVariance * 10
        + avgWithinVariance * 0.5
        + ofZ coachPenalty)%float.

(** ** Repair engine *)

(** The match test inlined in [swapPositionPlayer]. *)
Definition isMatch (pos : string) (player : Player) : bool :=
  if String.eqb pos "OF"%string && isOutfielder player then true
  else String.eqb (position player) pos.

(** The scan of [swapPositionPlayer]: the donor team's players that match
    the position and belong to no group.  [this.players[i]] is read for
    every cell that names the donor team. *)
Fixpoint donorPlayersFrom (self : TeamOptimizer) (donorTeamId : nat)
    (pos : string) (i : nat) (cells : list nat) : option (list nat) :=
  match cells with
  | [] => Some []
  | teamId :: rest =>
      if teamId =? donorTeamId then
        player ← players self !! i;
        more ← donorPlayersFrom self donorTeamId pos (S i) rest;
        Some (if isMatch pos player && negb (isCoAssigned (coAssignGroups self) i)
              then i :: more else more)
      else donorPlayersFrom self donorTeamId pos (S i) rest
  end.

Definition swapPositionPlayer (self : TeamOptimizer) (individual : Individual)
    (teams : list Team.t) (donorTeamId recipientTeamId : nat) (pos : string)
    : M (bool * Individual) :=
  donorPlayers <- lift (donorPlayersFrom self donorTeamId pos 0 individual);;
  if 0 <? length donorPlayers then
    k <- randomInt (length donorPlayers);;
    ret (true, match donorPlayers !! k with
                | Some playerIdx => <[playerIdx:=recipientTeamId]> individual
                | None => individual
                end)
  else ret (false, individual).

(** One donor search of [fixMissingPosition]: the teams from [teamId] on, a
    donor needing more than [ofMin] outfielders or more than [roleMin]
    players of an ordinary role. *)
Fixpoint donorSearch (self : TeamOptimizer) (ofMin roleMin : nat)
    (teams : list Team.t) (needyTeamId : nat) (neededPos : string)
    (teamId : nat) (pending : list Team.t) (individual : Individual)
    : M (bool * Individual) :=
  match pending with
  | [] => ret (false, individual)
  | team :: rest =>
      if teamId =? needyTeamId then
        donorSearch self ofMin roleMin teams needyTeamId neededPos (S teamId) rest individual
      else
        count <- lift (Team.getPositionCount (players self) team
                        (if String.eqb neededPos "OF"%string then "OF"%string else neededPos));;
        if (if String.eqb neededPos "OF"%string then ofMin else roleMin) <? count then
          '(moved, individual') <-
            swapPositionPlayer self individual teams teamId needyTeamId neededPos;;
          if moved then ret (true, individual')
          else donorSearch self ofMin roleMin teams needyTeamId neededPos (S teamId) rest
                 individual'
        else
          donorSearch self ofMin roleMin teams needyTeamId neededPos (S teamId) rest individual
  end.

Definition fixMissingPosition (self : TeamOptimizer) (individual : Individual)
    (teams : list Team.t) (needyTeamId : nat) (neededPos : string)
    : M (bool * Individual) :=
  '(moved, individual') <-
    donorSearch self 3 1 teams needyTeamId neededPos 0 teams individual;;
  if moved then ret (true, individual')
  else donorSearch self 2 0 teams needyTeamId neededPos 0 teams individual'.

(** The inner loop of [repairPositions] over the required positions. *)
Fixpoint repairRoles (self : TeamOptimizer) (teams : list Team.t) (teamId : nat)
    (team : Team.t) (positions : list string) (individual : Individual)
    : M (bool * Individual) :=
  match positions with
  | [] => ret (false, individual)
  | pos :: rest =>
      count <- lift (Team.getPositionCount (players self) team pos);;
      if count <? 1 then
        '(fixed, individual') <- fixMissingPosition self individual teams teamId pos;;
        if fixed then ret (true, individual')
        else repairRoles self teams teamId team rest individual'
      else repairRoles self teams teamId team rest individual
  end.

Fixpoint repairTeams (self : TeamOptimizer) (teams : list Team.t) (teamId : nat)
    (pending : list Team.t) (individual : Individual) : M (bool * Individual) :=
  match pending with
  | [] => ret (false, individual)
  | team :: rest =>
      '(fixed, individual') <-
        repairRoles self teams teamId team requiredPositions individual;;
      if fixed then ret (true, individual')
      else
        count <- lift (Team.getPositionCount (players self) team "OF"%string);;
        if count <? 3 then
          '(fixed', individual'') <-
            fixMissingPosition self individual' teams teamId "OF"%string;;
          if fixed' then ret (true, individual'')
          else repairTeams self teams (S teamId) rest individual''
        else repairTeams self teams (S teamId) rest individual'
  end.

Definition repairPositions (self : TeamOptimizer) (individual : Individual)
    (teams : list Team.t) : M (bool * Individual) :=
  repairTeams self teams 0 teams individual.

Fixpoint rolesCovered (roster : list Player) (team : Team.t)
    (positions : list string) : option bool :=
  match positions with
  | [] => Some true
  | pos :: rest =>
      count ← Team.getPositionCount roster team pos;
      if count <? 1 then Some false else rolesCovered roster team rest
  end.

Fixpoint checkPositionsCovered (roster : list Player) (teams : list Team.t)
    : option bool :=
  match teams with
  | [] => Some true
  | team :: rest =>
      covered ← rolesCovered roster team requiredPositions;
      if (covered : bool) then
        count ← Team.getPositionCount roster team "OF"%string;
        if count <? 3 then Some false else checkPositionsCovered roster rest
      else Some false
  end.

(** The indices [i], from [i0] on, with [individual[i] === teamId]. *)
Fixpoint indicesOnTeam (teamId : nat) (i0 : nat) (cells : list nat) : list nat :=
  match cells with
  | [] => []
  | c :: rest =>
      if c =? teamId then i0 :: indicesOnTeam teamId (S i0) rest
      else indicesOnTeam teamId (S i0) rest
  end.

(** The [for ... of Object.entries] of [movePlayer]: the first group that
    includes the player moves as a whole; a player of no group moves alone. *)
Fixpoint moveWithGroup (groups : list (positive * list nat))
    (playerIdx toTeamId : nat) (individual : Individual) : Individual :=
  match groups with
  | [] => <[playerIdx:=toTeamId]> individual
  | (_, groupMembers) :: rest =>
      if includes groupMembers playerIdx then
        writeAll toTeamId individual groupMembers
      else moveWithGroup rest playerIdx toTeamId individual
  end.

Definition movePlayer (self : TeamOptimizer) (individual : Individual)
    (teams : list Team.t) (fromTeamId toTeamId : nat) : M Individual :=
  let fromTeamPlayerIndices := indicesOnTeam fromTeamId 0 individual in
  let nonCoAssignPlayers :=
    List.filter (fun i => negb (isCoAssigned (coAssignGroups self) i))
      fromTeamPlayerIndices in
  if 0 <? length nonCoAssignPlayers then
    k <- randomInt (length nonCoAssignPlayers);;
    ret (match nonCoAssignPlayers !! k with
          | Some playerIdx => <[playerIdx:=toTeamId]> individual
          | None => individual
          end)
  else if 0 <? length fromTeamPlayerIndices then
    k <- randomInt (length fromTeamPlayerIndices);;
    ret (match fromTeamPlayerIndices !! k with
          | Some playerIdx =>
              moveWithGroup (coAssignGroups self) playerIdx toTeamId individual
          | None => individual
          end)
  else ret individual.

Definition balanceTeamSizes (self : TeamOptimizer) (individual : Individual)
    (teams : list Team.t) (teamSizes : list nat) (targetSize : nat) : M Individual :=
  if 1 <? sizeGap teamSizes then
    match maxOf teamSizes, minOf teamSizes with
    | Some maxSize, Some minSize =>
        match indexOf Nat.eqb maxSize teamSizes, indexOf Nat.eqb minSize teamSizes with
        | Some maxTeamId, Some minTeamId =>
            movePlayer self individual teams maxTeamId minTeamId
        | _, _ => ret individual
        end
    | _, _ => ret individual
    end
  else ret individual.

(** What one pass of the loop of [repairIndividual] did. *)
Inductive PassOutcome := Rebalanced | AllCovered | RoleMoved | Stuck.

(** The body of the loop of [repairIndividual]. *)
Definition repairPass (self : TeamOptimizer) (targetSize : nat)
    (individual : Individual) : M (PassOutcome * Individual) :=
  teams <- lift (decodeIndividual self individual);;
  let teamSizes := map (fun tm => length (Team.players tm)) teams in
  if 1 <? sizeGap teamSizes then
    individual' <- balanceTeamSizes self individual teams teamSizes targetSize;;
    ret (Rebalanced, individual')
  else
    covered <- lift (checkPositionsCovered (players self) teams);;
    if covered then ret (AllCovered, individual)
    else
      '(fixed, individual') <- repairPositions self individual teams;;
      ret (if fixed then RoleMoved else Stuck, individual').

(** The loop of [repairIndividual] with [budget] iterations left; the second
    component counts the passes that were executed. *)
Fixpoint repairLoop (self : TeamOptimizer) (targetSize : nat) (budget : nat)
    (individual : Individual) : M (Individual * nat) :=
  match budget with
  | 0 => ret (individual, 0)
  | S budget' =>
      '(outcome, individual') <- repairPass self targetSize individual;;
      match outcome with
      | Rebalanced | RoleMoved =>
          '(repaired, passes) <- repairLoop self targetSize budget' individual';;
          ret (repaired, S passes)
      | AllCovered | Stuck => ret (individual', 1)
      end
  end.

Definition maxIterations : nat := 100.

Definition repairIndividual (self : TeamOptimizer) (individual : Individual)
    : M Individual :=
  let targetSize := numPlayers self / numTeams self in
  '(repaired, _) <- repairLoop self targetSize maxIterations individual;;
  ret repaired.

(** ** Genetic operators *)

(** The swap loop of [crossover]: positions [point1 .. point2 - 1] of the
    list of players outside every group.  Both offspring have a cell for each
    of these players when the parents have one cell per player. *)
Definition swapSegment (nonCoAssign : list nat) (point1 point2 : nat)
    (offspring : Individual * Individual) : Individual * Individual :=
  foldl (fun o idx =>
           match o.1 !! idx, o.2 !! idx with
           | Some a, Some b => (<[idx:=b]> o.1, <[idx:=a]> o.2)
           | _, _ => o
           end)
        offspring (take (point2 - point1) (drop point1 nonCoAssign)).

Definition crossover (self : TeamOptimizer) (ind1 ind2 : Individual)
    : M (Individual * Individual) :=
  doSwap <- randomBelow 7 10;;
  '(offspring1, offspring2) <-
    (if doSwap : bool then
       let nonCoAssign := nonCoAssignIndices self in
       if 2 <? length nonCoAssign then
         point1 <- randomInt (length nonCoAssign);;
         k <- randomInt (length nonCoAssign - point1);;
         ret (swapSegment nonCoAssign point1 (point1 + k) (ind1, ind2))
       else ret (ind1, ind2)
     else ret (ind1, ind2));;
  offspring1 <- repairIndividual self offspring1;;
  offspring2 <- repairIndividual self offspring2;;
  ret (offspring1, offspring2).

(** The [nonCoAssign.forEach] of [mutate]. *)
Fixpoint mutatePlayers (teams : nat) (nonCoAssign : list nat) (mutated : Individual)
    : M Individual :=
  match nonCoAssign with
  | [] => ret mutated
  | idx :: rest =>
      hit <- randomBelow 1 10;;
      if hit : bool then
        team <- randomInt teams;;
        mutatePlayers teams rest (<[idx:=team]> mutated)
      else mutatePlayers teams rest mutated
  end.

(** The group move of [mutate]; the draw is made only when there is a group. *)
Definition mutateGroup (self : TeamOptimizer) (mutated : Individual) : M Individual :=
  let groupIds := map fst (coAssignGroups self) in
  if 0 <? length groupIds then
    hit <- randomBelow 1 10;;
    if hit : bool then
      k <- randomInt (length groupIds);;
      newTeam <- randomInt (numTeams self);;
      ret (match coAssignGroups self !! k with
           | Some (_, members) => writeAll newTeam mutated members
           | None => mutated
           end)
    else ret mutated
  else ret mutated.

Definition mutate (self : TeamOptimizer) (individual : Individual) : M Individual :=
  mutated <- mutatePlayers (numTeams self) (nonCoAssignIndices self) individual;;
  mutated <- mutateGroup self mutated;;
  repairIndividual self mutated.

(** The comparator of the sort in [tournamentSelection] puts [a] before [b]
    when [a - b] is negative; a [NaN] difference counts as a tie. *)
Definition sortsBefore (a b : float) : bool := (a - b <? 0)%float.

(** [competitors.sort(...)[0]]: the sort is stable, so the winner is the
    earliest competitor that no other one sorts before. *)
Definition tournamentWinner (competitors : list (Individual * float))
    : option (Individual * float) :=
  match competitors with
  | [] => None
  | c :: rest =>
      Some (foldl (fun best c' => if sortsBefore c'.2 best.2 then c' else best) c rest)
  end.

(** The sampling loop of [tournamentSelection]; [population[idx]] is
    [undefined] only when the population is empty, and spreading it throws;
    a missing fitness is [undefined], which subtracts to [NaN]. *)
Fixpoint drawCompetitors (tournamentSize : nat) (population : list Individual)
    (fitnesses : list float) : M (list (Individual * float)) :=
  match tournamentSize with
  | 0 => ret []
  | S n =>
      idx <- randomInt (length population);;
      individual <- lift (population !! idx);;
      rest <- drawCompetitors n population fitnesses;;
      ret ((individual, default nan (fitnesses !! idx)) :: rest)
  end.

Definition tournamentSelection (self : TeamOptimizer) (population : list Individual)
    (fitnesses : list float) (tournamentSize : nat) : M Individual :=
  competitors <- drawCompetitors tournamentSize population fitnesses;;
  winner <- lift (tournamentWinner competitors);;
  ret winner.1.

(** ** Evolution driver *)

Record ProgressEvent := mkEvent {
  ev_generation : nat;
  ev_bestFitness : float;
  ev_avgFitness : float;
  ev_completed : bool
}.

(** The variables of [optimize] that live across generations, and the calls
    made to [onProgress] so far (oldest first). *)
Record LoopState := mkState {
  population : list Individual;
  bestIndividual : option Individual;
  bestFitness : float;
  events : list ProgressEvent
}.

Definition isNaN (x : float) : bool := negb (x =? x)%float.

(** [Math.min(a, b)] *)
Definition min2 (a b : float) : float :=
  if isNaN a || isNaN b then nan
  else if (b <? a)%float then b
  else if (a <? b)%float then a
  else match classify b with NZero => b | _ => a end.

(** [Math.min(...values)] *)
Definition mathMin (values : list float) : float := foldl min2 infinity values.

(** [Array.from({ length: n }, () => this.createIndividual())] *)
Fixpoint createPopulation (self : TeamOptimizer) (n : nat) : M (list Individual) :=
  match n with
  | 0 => ret []
  | S n' =>
      individual <- createIndividual self;;
      rest <- createPopulation self n';;
      ret (individual :: rest)
  end.

(** The [while] loop that refills the population, with [slots] places left. *)
Fixpoint fillPopulation (self : TeamOptimizer) (population : list Individual)
    (fitnesses : list float) (slots : nat) : M (list Individual) :=
  match slots with
  | 0 => ret []
  | S slots' =>
      parent1 <- tournamentSelection self population fitnesses 3;;
      parent2 <- tournamentSelection self population fitnesses 3;;
      '(offspring1, offspring2) <- crossover self parent1 parent2;;
      offspring1 <- mutate self offspring1;;
      offspring2 <- mutate self offspring2;;
      match slots' with
      | 0 => ret [offspring1]
      | S slots'' =>
          rest <- fillPopulation self population fitnesses slots'';;
          ret (offspring1 :: offspring2 :: rest)
      end
  end.

(** The body of the generation loop of [optimize]. *)
Definition generationStep (self : TeamOptimizer) (gen : nat) (st : LoopState)
    : M LoopState :=
  fitnesses <- lift (mapM (evaluate self) (population st));;
  let minFitness := mathMin fitnesses in
  let minIdx := indexOf PrimFloat.eqb minFitness fitnesses in
  '(best, bestFit) <-
    (if (minFitness <? bestFitness st)%float then
       individual <- lift (minIdx ≫= fun i => population st !! i);;
       ret (Some individual, minFitness)
     else ret (bestIndividual st, bestFitness st));;
  let log :=
    if onProgress self && (gen mod 10 =? 0) then
      events st ++ [mkEvent gen bestFit
                      (fsum fitnesses / ofNat (length fitnesses))%float false]
    else events st in
  elite <- lift best;;
  offspring <- fillPopulation self (population st) fitnesses (populationSize self - 1);;
  ret (mkState (elite :: offspring) best bestFit log).

(** The generation loop from generation [gen], with [remaining] to go. *)
Fixpoint generationsFrom (self : TeamOptimizer) (gen remaining : nat) (st : LoopState)
    : M LoopState :=
  match remaining with
  | 0 => ret st
  | S remaining' =>
      st' <- generationStep self gen st;;
      generationsFrom self (S gen) remaining' st'
  end.

(** The state of [optimize] when the generation loop is left. *)
Definition evolve (self : TeamOptimizer) : M LoopState :=
  population <- createPopulation self (populationSize self);;
  generationsFrom self 0 (generations self) (mkState population None infinity []).

(** [optimize()]: the decoded best individual, and the progress events. *)
Definition optimize (self : TeamOptimizer) : M (list Team.t * list ProgressEvent) :=
  st <- evolve self;;
  let log :=
    if onProgress self then
      events st ++ [mkEvent (generations self) (bestFitness st) (bestFitness st) true]
    else events st in
  individual <- lift (bestIndividual st);;
  teams <- lift (decodeIndividual self individual);;
  ret (teams, log).

(** * Specification predicates *)

(** An individual has one cell per player, each naming a team. *)
Definition valid (self : TeamOptimizer) (individual : Individual) : Prop :=
  length individual = numPlayers self /\
  Forall (fun cell => cell < numTeams self) individual.

(** The grouping invariant: the members of a group share a team. *)
Definition grouped (self : TeamOptimizer) (individual : Individual) : Prop :=
  forall g members i j,
    (g, members) ∈ coAssignGroups self -> i ∈ members -> j ∈ members ->
    individual !! i = individual !! j.

(** What [buildCoAssignGroups] establishes: a member of the entry of [g] is
    a player whose group is [g], no key occurs twice, no entry is empty. *)
Definition groups_wf (ps : list Player) (groups : list (positive * list nat)) : Prop :=
  (forall g members i, (g, members) ∈ groups -> i ∈ members ->
     exists p, ps !! i = Some p /\ coAssignGroup p = Some g) /\
  NoDup (map fst groups) /\
  (forall g members, (g, members) ∈ groups -> members <> []).

(** The fields of an optimizer as the constructor leaves them. *)
Definition wf (self : TeamOptimizer) : Prop :=
  numPlayers self = length (players self) /\
  groups_wf (players self) (coAssignGroups self).

(** Total correctness in [M]: whatever the tape and the cursor, the
    computation returns (it does not throw) and the result satisfies [Q]. *)
Definition returns {A} (m : M A) (Q : A -> Prop) : Prop :=
  forall t c, exists a c', m t c = Some (a, c') /\ Q a.

(** The state of [optimize] after [k] generations. *)
Definition stateAfter (self : TeamOptimizer) (k : nat) : M LoopState :=
  population <- createPopulation self (populationSize self);;
  generationsFrom self 0 k (mkState population None infinity []).

(** [a <= b] on JavaScript numbers. *)
Definition fle (a b : float) : Prop := (a <=? b)%float = true.

(** The invariant of the loop of [buildCoAssignGroups]. *)
Definition groups_inv (ps : list Player) (groups : list (positive * list nat)) : Prop :=
  (forall g members i, (g, members) ∈ groups -> i ∈ members ->
     exists p, ps !! i = Some p /\ coAssignGroup p = Some g) /\
  StronglySorted Pos.lt (map fst groups) /\
  (forall g members, (g, members) ∈ groups -> members <> []).

(** The teams an individual decodes to: team [t] holds, in increasing order,
    the players whose cell is [t]. *)
Definition decoded (self : TeamOptimizer) (individual : Individual) : list Team.t :=
  map (fun t => Team.mk t (indicesOnTeam t 0 individual)) (seq 0 (numTeams self)).

(** The teams of an individual partition the players (claim C6). *)
Definition decodes_to_partition (self : TeamOptimizer) (individual : Individual) : Prop :=
  exists teams,
    decodeIndividual self individual = Some teams /\
    (forall teams', decodeIndividual self individual = Some teams' -> teams' = teams) /\
    length teams = numTeams self /\
    (forall t tm, teams !! t = Some tm ->
       Team.teamId tm = t /\ NoDup (Team.players tm) /\
       forall i, i ∈ Team.players tm <-> individual !! i = Some t) /\
    (forall i, i < numPlayers self ->
       exists t tm, teams !! t = Some tm /\ i ∈ Team.players tm /\
         forall t' tm', teams !! t' = Some tm' -> i ∈ Team.players tm' -> t' = t) /\
    (forall t tm i, teams !! t = Some tm -> i ∈ Team.players tm -> i < numPlayers self).

(** A small league used to run the model: a pitcher and two outfielders, no
    groups, no coaches, two teams, a population of two, one generation. *)
Definition examplePlayer (pos : string) (g : option positive) : Player :=
  mkPlayer "player" pos 0%float 1%float false g.

Definition smallLeague : TeamOptimizer :=
  newOptimizer
    [examplePlayer "P" None; examplePlayer "OF" None; examplePlayer "OF" None]
    2 (mkOptions (Some 2) (Some 1) true).

(** The head count [getPositionCount] computes once the members are read. *)
Definition positionCount (pos : string) (ps : list Player) : nat :=
  length (List.filter (matchesPosition pos) ps).

(** The required roles that nobody on the team plays. *)
Definition missingRoles (ps : list Player) : list string :=
  List.filter (fun pos => positionCount pos ps <? 1) requiredPositions.

(** The role coverage penalty of a team: 10000 for each of the seven
    required roles that nobody on the team plays, and 5000 for each
    outfielder (role CF or OF) short of three. *)
Definition roleCoveragePenalty (ps : list Player) : Z :=
  (10000 * Z.of_nat (length (missingRoles ps))
   + 5000 * Z.of_nat (3 - positionCount "OF" ps)%nat)%Z.

(** The minimum-size penalty of a team: 2000 for each player short of nine. *)
Definition sizePenalty (ps : list Player) : Z :=
  (2000 * Z.of_nat (9 - length ps)%nat)%Z.

Definition sumZ (zs : list Z) : Z := foldr Z.add 0%Z zs.

(** The mean of a field over the members of a team, [0] for an empty team. *)
Definition averageOf (field : Player -> float) (ps : list Player) : float :=
  if length ps =? 0 then 0%float
  else (fsum (map field ps) / ofNat (length ps))%float.

(** The population variance of the skill scores of a team. *)
Definition skillSpread (ps : list Player) : float :=
  if length ps <? 2 then 0%float
  else
    let avg := averageOf totalScore ps in
    (fsum (map (fun p => (totalScore p - avg) * (totalScore p - avg)) ps)
     / ofNat (length ps))%float.


(** The binary64 values of the literals [0.1], [0.3] and [0.7]. *)
Definition tenth : float := 0x1.999999999999ap-4%float.
Definition threeTenths : float := 0x1.3333333333333p-2%float.
Definition sevenTenths : float := 0x1.6666666666666p-1%float.

(** What holds of the variance helper (claim C8, amended): the binary64
    result is zero below two elements and is otherwise the sum of the squared
    deviations from the mean divided by the number of elements; read in exact
    arithmetic, that formula is zero on a constant collection and does not
    depend on the order of the elements. *)
Definition variance_is_population_variance : Prop :=
  (forall values : list float, length values < 2 -> variance values = 0%float) /\
  (forall values : list float, 2 <= length values ->
     let mean := (fsum values / ofNat (length values))%float in
     variance values =
     (fsum (map (fun v => (v - mean) * (v - mean)) values)
      / ofNat (length values))%float) /\
  (forall values : list Qc, length values < 2 -> varianceExact values = 0%Qc) /\
  (forall values : list Qc, 2 <= length values ->
     let mean := (foldl Qcplus 0 values / countQc (length values))%Qc in
     varianceExact values =
     (foldl Qcplus 0 (map (fun v => (v - mean) * (v - mean)) values)
      / countQc (length values))%Qc) /\
  (forall (a : Qc) (n : nat), varianceExact (replicate n a) = 0%Qc) /\
  (forall xs ys : list Qc, xs ≡ₚ ys -> varianceExact xs = varianceExact ys).

(** Team [d] has a player of the role who belongs to no group. *)
Definition hasFreeDonor (self : TeamOptimizer) (individual : Individual)
    (pos : string) (d : nat) : Prop :=
  exists i p,
    individual !! i = Some d /\ players self !! i = Some p /\
    isMatch pos p = true /\ isCoAssigned (coAssignGroups self) i = false.

(** [individual'] is [individual] with one player of the role, of no group,
    moved from team [d] to team [recipient]. *)
Definition takesFrom (self : TeamOptimizer) (individual : Individual)
    (pos : string) (d recipient : nat) (individual' : Individual) : Prop :=
  exists i p,
    individual !! i = Some d /\ players self !! i = Some p /\
    isMatch pos p = true /\ isCoAssigned (coAssignGroups self) i = false /\
    individual' = <[i:=recipient]> individual.

(** Team [d] of the snapshot is a candidate donor: another team than the
    needy one, with more than [threshold] players of the role. *)
Definition candidate (self : TeamOptimizer) (teams : list Team.t)
    (needy : nat) (pos : string) (threshold : nat) (d : nat) : Prop :=
  exists tm n,
    teams !! d = Some tm /\ d <> needy /\
    Team.getPositionCount (players self) tm pos = Some n /\ threshold < n.

(** The head count a donor must exceed in the first and in the second tier. *)
Definition surplusOver (pos : string) : nat :=
  if String.eqb pos "OF" then 3 else 1.

Definition fallbackOver (pos : string) : nat :=
  if String.eqb pos "OF" then 2 else 0.

(** A league with a grouped shortstop: a pitcher of no group, and a
    shortstop and a catcher who share group 1. *)
Definition carpoolLeague : TeamOptimizer :=
  newOptimizer
    [examplePlayer "P" None; examplePlayer "SS" (Some 1%positive);
     examplePlayer "C" (Some 1%positive)]
    2 (mkOptions (Some 2) (Some 1) true).

(** The tape whose draws are all zero. *)
Definition zeroTape : Tape := fun _ => Draw 0 0.

(** What [swapPositionPlayer] does (claim C10). *)
Definition swap_moves_free_players_only : Prop :=
  (forall self individual teams donor recipient pos t c moved individual' c',
     swapPositionPlayer self individual teams donor recipient pos t c
       = Some ((moved, individual'), c') ->
     (moved = true /\ takesFrom self individual pos donor recipient individual') \/
     (moved = false /\ individual' = individual /\ c' = c /\
      ~ hasFreeDonor self individual pos donor)) /\
  (forall self individual teams donor recipient pos t c,
     length individual <= length (players self) ->
     ~ hasFreeDonor self individual pos donor ->
     swapPositionPlayer self individual teams donor recipient pos t c
       = Some ((false, individual), c)) /\
  (let individual := [0; 1; 1] in
   let teams := decoded carpoolLeague individual in
   (exists i p, individual !! i = Some 1 /\ players carpoolLeague !! i = Some p /\
                isMatch "SS" p = true /\
                isCoAssigned (coAssignGroups carpoolLeague) i = true) /\
   forall t c,
     fixMissingPosition carpoolLeague individual teams 0 "SS" t c
       = Some ((false, individual), c)).

(** The result of [fixMissingPosition] (claim C3, amended).  On success one
    free player of the role moved to the needy team from a donor [d]: the
    first team with a surplus that has a free player of the role or, when no
    team with a surplus has one, the first team above the second-tier bound
    that has one.  On failure nothing changed, and no team above the
    second-tier bound has a free player of the role. *)
Definition fix_outcome (self : TeamOptimizer) (individual : Individual)
    (teams : list Team.t) (needy : nat) (pos : string)
    (fixed : bool) (individual' : Individual) (c c' : nat) : Prop :=
  if fixed then
    c' = S c /\
    exists d, takesFrom self individual pos d needy individual' /\
      ((candidate self teams needy pos (surplusOver pos) d /\
        forall d', d' < d -> candidate self teams needy pos (surplusOver pos) d' ->
                   ~ hasFreeDonor self individual pos d') \/
       ((forall d', candidate self teams needy pos (surplusOver pos) d' ->
                    ~ hasFreeDonor self individual pos d') /\
        candidate self teams needy pos (fallbackOver pos) d /\
        forall d', d' < d -> candidate self teams needy pos (fallbackOver pos) d' ->
                   ~ hasFreeDonor self individual pos d'))
  else
    individual' = individual /\ c' = c /\
    forall d, candidate self teams needy pos (fallbackOver pos) d ->
              ~ hasFreeDonor self individual pos d.

(** A league with a spare shortstop: a pitcher and two shortstops, no groups. *)
Definition spareLeague : TeamOptimizer :=
  newOptimizer
    [examplePlayer "P" None; examplePlayer "SS" None; examplePlayer "SS" None]
    2 (mkOptions (Some 2) (Some 1) true).

(** Every operator returns valid individuals (claim C9). *)
Definition operators_preserve_validity (self : TeamOptimizer) : Prop :=
  (0 < numTeams self -> returns (createIndividual self) (valid self)) /\
  (forall ind, valid self ind -> returns (mutate self ind) (valid self)) /\
  (forall ind1 ind2, valid self ind1 -> valid self ind2 ->
     returns (crossover self ind1 ind2)
             (fun r => valid self r.1 /\ valid self r.2)) /\
  (forall ind, valid self ind -> returns (repairIndividual self ind) (valid self)) /\
  (forall ind teams teamSizes targetSize,
     valid self ind -> length teamSizes <= numTeams self ->
     returns (balanceTeamSizes self ind teams teamSizes targetSize) (valid self)) /\
  (forall ind teams fromTeamId toTeamId,
     valid self ind -> toTeamId < numTeams self ->
     returns (movePlayer self ind teams fromTeamId toTeamId) (valid self)) /\
  (forall ind,
     valid self ind ->
     returns (repairPositions self ind (decoded self ind))
             (fun r => valid self r.2)) /\
  (forall ind needy pos,
     valid self ind -> needy < numTeams self ->
     returns (fixMissingPosition self ind (decoded self ind) needy pos)
             (fun r => valid self r.2)) /\
  (forall ind teams donor recipient pos,
     valid self ind -> recipient < numTeams self ->
     returns (swapPositionPlayer self ind teams donor recipient pos)
             (fun r => valid self r.2)).

(** Every operator keeps the members of a group on one team (claim C1). *)
Definition operators_keep_groups (self : TeamOptimizer) : Prop :=
  returns (createIndividual self) (grouped self) /\
  (forall ind, valid self ind -> grouped self ind ->
     returns (mutate self ind) (grouped self)) /\
  (forall ind1 ind2,
     valid self ind1 -> valid self ind2 -> grouped self ind1 -> grouped self ind2 ->
     returns (crossover self ind1 ind2)
             (fun r => grouped self r.1 /\ grouped self r.2)) /\
  (forall ind, valid self ind -> grouped self ind ->
     returns (repairIndividual self ind) (grouped self)).

(** Validity together with the grouping invariant. *)
Definition keepsGroups (self : TeamOptimizer) (ind : Individual) : Prop :=
  valid self ind /\ grouped self ind.

(** What one pass of the repair loop did, by its outcome (claim C5): sizes
    are rebalanced whenever the largest and the smallest team differ by more
    than one; otherwise the pass ends the repair when every role is covered;
    otherwise it tries a role move, and is stuck, with the individual
    unchanged, when there is none. *)
Definition pass_outcome (self : TeamOptimizer) (targetSize : nat)
    (ind : Individual) (t : Tape) (c : nat)
    (outcome : PassOutcome) (ind' : Individual) (c' : nat) : Prop :=
  exists teams,
    decodeIndividual self ind = Some teams /\
    let teamSizes := map (fun tm => length (Team.players tm)) teams in
    match outcome with
    | Rebalanced =>
        1 < sizeGap teamSizes /\
        balanceTeamSizes self ind teams teamSizes targetSize t c = Some (ind', c')
    | AllCovered =>
        sizeGap teamSizes <= 1 /\
        checkPositionsCovered (players self) teams = Some true /\
        ind' = ind /\ c' = c
    | RoleMoved =>
        sizeGap teamSizes <= 1 /\
        checkPositionsCovered (players self) teams = Some false /\
        repairPositions self ind teams t c = Some ((true, ind'), c')
    | Stuck =>
        sizeGap teamSizes <= 1 /\
        checkPositionsCovered (players self) teams = Some false /\
        repairPositions self ind teams t c = Some ((false, ind), c) /\
        ind' = ind /\ c' = c
    end.


(** ** Order of binary64 values

    The position of a number (not [NaN]) on the extended real line, as a
    key compared lexicographically: sign class, then exponent, then
    mantissa. *)
Definition rank (x : spec_float) : Z * Z * Z :=
  match x with
  | S754_infinity true => (-2, 0, 0)
  | S754_finite true m e => (-1, - e, Zneg m)
  | S754_zero _ => (0, 0, 0)
  | S754_nan => (0, 0, 0)
  | S754_finite false m e => (1, e, Zpos m)
  | S754_infinity false => (2, 0, 0)
  end%Z.

Definition lexCompare (a b : Z * Z * Z) : comparison :=
  match (a.1.1 ?= b.1.1)%Z with
  | Eq => match (a.1.2 ?= b.1.2)%Z with
          | Eq => (a.2 ?= b.2)%Z
          | c => c
          end
  | c => c
  end.

Definition lexle (a b : Z * Z * Z) : Prop :=
  (a.1.1 < b.1.1 \/
   (a.1.1 = b.1.1 /\ (a.1.2 < b.1.2 \/ (a.1.2 = b.1.2 /\ a.2 <= b.2))))%Z.

Definition lexlt (a b : Z * Z * Z) : Prop :=
  (a.1.1 < b.1.1 \/
   (a.1.1 = b.1.1 /\ (a.1.2 < b.1.2 \/ (a.1.2 = b.1.2 /\ a.2 < b.2))))%Z.

Definition frank (a : float) : Z * Z * Z := rank (Prim2SF a).

(** A league of two outfielders, no groups: two teams, a population of two,
    one generation, progress reported. *)
Definition pairLeague : TeamOptimizer :=
  newOptimizer [examplePlayer "OF" None; examplePlayer "OF" None]
    2 (mkOptions (Some 2) (Some 1) true).

(** The tape that replays the listed draws and then draws zero. *)
Definition tapeOf (draws : list draw) : Tape :=
  fun i => default (Draw 0 0) (draws !! i).

(** No fitness of the list is [NaN]. *)
Definition numbers (fitnesses : list float) : Prop :=
  Forall (fun f => isNaN f = false) fitnesses.

(** Generation [k] of the run evaluated the population [pop], and found the
    fitnesses [fitnesses], member by member. *)
Definition evaluated (self : TeamOptimizer) (t : Tape) (c : nat) (k : nat)
    (pop : list Individual) (fitnesses : list float) : Prop :=
  k < generations self /\
  (exists s ck, stateAfter self k t c = Some (s, ck) /\ population s = pop) /\
  mapM (evaluate self) pop = Some fitnesses.

(** [best] is the earliest individual of fitness [bestFit] that the
    generations before [bound] evaluated, the generations with a [NaN]
    fitness left aside: it is member [i] of the population of a generation
    [k] without [NaN], its fitness equals [bestFit], the members before it
    in that population and the members of every earlier generation without
    [NaN] have a strictly larger fitness. *)
Definition firstBest (self : TeamOptimizer) (t : Tape) (c : nat)
    (bound : nat) (best : Individual) (bestFit : float) : Prop :=
  exists k pop fitnesses i fbest,
    k < bound /\ evaluated self t c k pop fitnesses /\ numbers fitnesses /\
    pop !! i = Some best /\ fitnesses !! i = Some fbest /\
    evaluate self best = Some fbest /\ (fbest =? bestFit)%float = true /\
    (forall j f, j < i -> fitnesses !! j = Some f -> (bestFit <? f)%float = true) /\
    (forall j popj fitnessesj f,
       j < k -> evaluated self t c j popj fitnessesj -> numbers fitnessesj ->
       f ∈ fitnessesj -> (bestFit <? f)%float = true).

(** Elitism over the evaluated populations (claim C2, amended): the run
    ends in state [st]; the populations of generations [0 .. generations - 1]
    are the ones that were evaluated.  The best fitness at the end is at most
    the fitness of every member of every evaluated generation that has no
    [NaN] fitness; the best fitness never increases from a generation to the
    next; [optimize] returns the teams of the recorded best individual, which
    is the earliest evaluated individual of that fitness. *)
Definition elitism_holds (self : TeamOptimizer) (t : Tape) (c : nat)
    (st : LoopState) (c' : nat) : Prop :=
  (forall k pop fitnesses i ind,
     evaluated self t c k pop fitnesses -> numbers fitnesses ->
     pop !! i = Some ind ->
     exists f, fitnesses !! i = Some f /\ evaluate self ind = Some f /\
               fle (bestFitness st) f) /\
  (forall k s ck s' ck',
     k < generations self ->
     stateAfter self k t c = Some (s, ck) ->
     stateAfter self (S k) t c = Some (s', ck') ->
     fle (bestFitness s') (bestFitness s)) /\
  (exists best teams log,
     bestIndividual st = Some best /\
     optimize self t c = Some ((teams, log), c') /\
     decodeIndividual self best = Some teams /\
     firstBest self t c (generations self) best (bestFitness st)).

(** The tape whose draw number [i] is [(a * i + b) mod 10] tenths. *)
Definition stepTape (a b : nat) : Tape :=
  fun i => Draw ((a * i + b) mod 10) (9 - (a * i + b) mod 10).

(** A league of six players of different skill, no groups: two teams, a
    population of three, three generations. *)
Definition sixLeague : TeamOptimizer :=
  newOptimizer
    [mkPlayer "player" "P" 1 1 false None; mkPlayer "player" "OF" 2 1 false None;
     mkPlayer "player" "OF" 3 1 false None; mkPlayer "player" "SS" 4 1 false None;
     mkPlayer "player" "C" 5 1 false None; mkPlayer "player" "P" 6 1 false None]
    2 (mkOptions (Some 3) (Some 3) true).

(** An attendance so large that the sum of two overflows: 15 * 2^1020. *)
Definition hugeAttendance : float := (15 * 0x1p+1020)%float.

(** A league in which the first two players have that attendance: an
    individual that puts them on one team has the fitness [NaN].  Two teams,
    a population of three, two generations. *)
Definition heavyLeague : TeamOptimizer :=
  newOptimizer
    [mkPlayer "player" "P" 0 hugeAttendance false None;
     mkPlayer "player" "OF" 0 hugeAttendance false None;
     mkPlayer "player" "P" 0 1 false None; mkPlayer "player" "SS" 0 1 false None]
    2 (mkOptions (Some 3) (Some 2) true).

(** One draw of one half. *)
Definition half : draw := Draw 1 0.

(** A tape on which [smallLeague] starts from the individuals [0, 0, 0]
    and [0, 1, 1]. *)
Definition mixedTape : Tape :=
  tapeOf [Draw 0 0; Draw 0 0; Draw 0 0; Draw 0 0; half; half].

(** The progress events of a run with a progress callback: the events
    before the last are those of the generations whose index is a multiple of
    ten, in order, none of them flagged as completed; generation [k] reports
    its index, the best fitness so far and the mean fitness of the population
    it evaluated; the last event carries the number of generations, the best
    fitness, the best fitness again in the mean-fitness field, and the
    completion flag. *)
Definition progress_events (self : TeamOptimizer) (t : Tape) (c : nat)
    (log : list ProgressEvent) (c' : nat) : Prop :=
  exists st,
    evolve self t c = Some (st, c') /\
    log = events st ++
          [mkEvent (generations self) (bestFitness st) (bestFitness st) true] /\
    map ev_generation (events st)
      = List.filter (fun gen => gen mod 10 =? 0) (seq 0 (generations self)) /\
    Forall (fun e => ev_completed e = false) (events st) /\
    forall k s ck s' ck',
      stateAfter self k t c = Some (s, ck) ->
      stateAfter self (S k) t c = Some (s', ck') ->
      exists fitnesses,
        mapM (evaluate self) (population s) = Some fitnesses /\
        events s' =
          if k mod 10 =? 0
          then events s ++
               [mkEvent k (bestFitness s')
                  (fsum fitnesses / ofNat (length fitnesses))%float false]
          else events s.

(** Indices listed in ascending order. *)
Definition ascending (members : list nat) : Prop := StronglySorted lt members.

(** The loop of [buildCoAssignGroups] has read the players [pre]: each of
    them that names a group is a member of its entry, and an entry lists
    players already read, in ascending order. *)
Definition groups_full (pre : list Player) (groups : list (positive * list nat)) : Prop :=
  (forall j p g, pre !! j = Some p -> coAssignGroup p = Some g ->
     exists members, (g, members) ∈ groups /\ j ∈ members) /\
  (forall g members, (g, members) ∈ groups ->
     ascending members /\ Forall (fun i => i < length pre) members).

(** ** The file panel of the page (app.js) *)

(** [groups[g].push(p)] of [groupPlayersByCoAssign], creating the entry when
    it is missing; the entries stay in ascending key order, as in
    [pushGroup]. *)
Fixpoint pushPlayer (g : positive) (p : Player)
    (groups : list (positive * list Player)) : list (positive * list Player) :=
  match groups with
  | [] => [(g, [p])]
  | (h, members) :: rest =>
      match (g ?= h)%positive with
      | Eq => (h, members ++ [p]) :: rest
      | Lt => (g, [p]) :: groups
      | Gt => (h, members) :: pushPlayer g p rest
      end
  end.

(** [groupPlayersByCoAssign(players)] *)
Definition groupPlayersByCoAssign (ps : list Player) : list (positive * list Player) :=
  foldl (fun groups p =>
           match coAssignGroup p with
           | Some g => pushPlayer g p groups
           | None => groups
           end) [] ps.

(** The entry [shown] of the page lists the players that the entry [used] of
    the optimizer lists by index. *)
Definition sameGroup (ps : list Player)
    (shown : positive * list Player) (used : positive * list nat) : Prop :=
  shown.1 = used.1 /\ Forall2 (fun p i => ps !! i = Some p) shown.2 used.2.

(** The number of players placed on the teams. *)
Definition headCount (teams : list Team.t) : nat :=
  sum_list (map (fun tm => length (Team.players tm)) teams).

(** A team covers the roles: somebody plays each of the seven required
    roles, and three of its players are outfielders. *)
Definition covered (ps : list Player) : Prop :=
  (forall pos, pos ∈ requiredPositions -> 1 <= positionCount pos ps) /\
  3 <= positionCount "OF" ps.


(** What a call of [movePlayer] did to the individual, and whether it drew:
    it moved one player of the source team who is in no group; or, when every
    player of the source team is in a group, the whole group of one of them;
    or nothing, when the source team is empty. *)
Definition moved_outcome (self : TeamOptimizer) (individual : Individual)
    (fromTeamId toTeamId : nat) (individual' : Individual) (c c' : nat) : Prop :=
  (exists i,
     individual !! i = Some fromTeamId /\
     isCoAssigned (coAssignGroups self) i = false /\
     individual' = <[i:=toTeamId]> individual /\ c' = S c) \/
  ((exists i, individual !! i = Some fromTeamId) /\
   (forall i, individual !! i = Some fromTeamId ->
      isCoAssigned (coAssignGroups self) i = true) /\
   (exists i g members,
      individual !! i = Some fromTeamId /\
      (g, members) ∈ coAssignGroups self /\ i ∈ members /\
      (forall j, individual' !! j =
                 if bool_decide (j ∈ members) then Some toTeamId else individual !! j)) /\
   c' = S c) \/
  ((forall i, individual !! i <> Some fromTeamId) /\
   individual' = individual /\ c' = c).
(** [teams.map(t => t.players.length)] for the teams an individual decodes
    to: the number of cells that name each team. *)
Definition teamSizesOf (self : TeamOptimizer) (individual : Individual) : list nat :=
  map (fun tm => length (Team.players tm)) (decoded self individual).

(** What [balanceTeamSizes] did when the sizes differ by more than one: it
    called [movePlayer] from the first largest team to the first smallest
    one; when the largest team has a player of no group, it loses one
    player, the smallest team gains one, and the other sizes stay. *)
Definition balance_outcome (self : TeamOptimizer) (individual individual' : Individual)
    (c c' : nat) : Prop :=
  let teamSizes := teamSizesOf self individual in
  exists maxTeamId minTeamId maxSize minSize,
    maxOf teamSizes = Some maxSize /\ minOf teamSizes = Some minSize /\
    indexOf Nat.eqb maxSize teamSizes = Some maxTeamId /\
    indexOf Nat.eqb minSize teamSizes = Some minTeamId /\
    moved_outcome self individual maxTeamId minTeamId individual' c c' /\
    ((exists i, individual !! i = Some maxTeamId /\
                isCoAssigned (coAssignGroups self) i = false) ->
     teamSizesOf self individual'
       = <[minTeamId := S minSize]> (<[maxTeamId := maxSize - 1]> teamSizes)).

(** The competitor that the [k]-th draw of a tournament starting at cursor
    [c] samples. *)
Definition sampled (population : list Individual) (fitnesses : list float)
    (t : Tape) (c k : nat) : option (Individual * float) :=
  let idx := floor_scaled (t (c + k)) (length population) in
  individual ← population !! idx;
  Some (individual, default nan (fitnesses !! idx)).

(** What a user expects of the teams [optimize] returns: there are
    [numTeams] of them, every player is a member of exactly one, and the
    members of a co-assign group are members of the same team. *)
Definition assignment_ok (self : TeamOptimizer) (teams : list Team.t) : Prop :=
  length teams = numTeams self /\
  (forall i, i < numPlayers self ->
     exists t tm, teams !! t = Some tm /\ i ∈ Team.players tm /\
       forall t' tm', teams !! t' = Some tm' -> i ∈ Team.players tm' -> t' = t) /\
  (forall t tm i, teams !! t = Some tm -> i ∈ Team.players tm -> i < numPlayers self) /\
  (forall g members, (g, members) ∈ coAssignGroups self ->
     exists t tm, teams !! t = Some tm /\ forall i, i ∈ members -> i ∈ Team.players tm).

(** The invariant of the generation loop of [optimize]: the population has
    [populationSize] individuals, each valid and with its groups together,
    and so is the best individual recorded so far. *)
Definition population_ok (self : TeamOptimizer) (s : LoopState) : Prop :=
  length (population s) = populationSize self /\
  Forall (keepsGroups self) (population s) /\
  (forall best, bestIndividual s = Some best -> keepsGroups self best).

(** [teams.map(t => t.players.filter(p => p.isCoach).length)] on the members
    of the teams. *)
Definition coachCounts (rosters : list (list Player)) : list nat :=
  map (fun ps => length (List.filter isCoach ps)) rosters.

(** [m1] and [m2] are [p1] and [p2] with the cells of some players, all of
    no group, exchanged between the two. *)
Definition mixedFrom (self : TeamOptimizer) (p1 p2 m1 m2 : Individual) : Prop :=
  length m1 = length p1 /\ length m2 = length p2 /\
  forall i,
    (m1 !! i = p1 !! i /\ m2 !! i = p2 !! i) \/
    (isCoAssigned (coAssignGroups self) i = false /\
     m1 !! i = p2 !! i /\ m2 !! i = p1 !! i).

(** ** The CSV reader (parser.js)

    A JavaScript string is a sequence of UTF-16 code units; a code unit is a
    number below 65536. *)
Abbreviation jsString := (list N).

Definition quoteUnit : N := 34.
Definition commaUnit : N := 44.

(** The code units [String.prototype.trim] strips: white space and line
    terminators. *)
Definition isWhiteSpace (ch : N) : bool :=
  ((ch =? 9) || (ch =? 10) || (ch =? 11) || (ch =? 12) || (ch =? 13) || (ch =? 32)
   || (ch =? 160) || (ch =? 5760) || ((8192 <=? ch) && (ch <=? 8202))
   || (ch =? 8232) || (ch =? 8233) || (ch =? 8239) || (ch =? 8287)
   || (ch =? 12288) || (ch =? 65279))%N.

Fixpoint trimStart (s : jsString) : jsString :=
  match s with
  | [] => []
  | ch :: rest => if isWhiteSpace ch then trimStart rest else s
  end.

Definition trimEnd (s : jsString) : jsString := rev (trimStart (rev s)).

(** [s.trim()] *)
Definition trim (s : jsString) : jsString := trimEnd (trimStart s).

(** The loop of [parseCSVLine] over the rest of the line, with the values
    pushed so far, the field being read and the quote flag. *)
Fixpoint scanLine (line : jsString) (values : list jsString) (current : jsString)
    (inQuotes : bool) : list jsString :=
  match line with
  | [] => values ++ [trim current]
  | char :: rest =>
      if (char =? quoteUnit)%N then scanLine rest values current (negb inQuotes)
      else if (char =? commaUnit)%N && negb inQuotes
           then scanLine rest (values ++ [trim current]) [] inQuotes
           else scanLine rest values (current ++ [char]) inQuotes
  end.

(** [parseCSVLine(line)] *)
Definition parseCSVLine (line : jsString) : list jsString :=
  scanLine line [] [] false.

(** A field as a writer of CSV puts it on a line: as it is, or between
    double quotes. *)
Definition writeField (field : bool * jsString) : jsString :=
  if field.1 then quoteUnit :: field.2 ++ [quoteUnit] else field.2.

(** The fields of a record on one line, separated by commas. *)
Fixpoint writeLine (fields : list (bool * jsString)) : jsString :=
  match fields with
  | [] => []
  | [field] => writeField field
  | field :: rest => writeField field ++ commaUnit :: writeLine rest
  end.

(** A field that can be written: no double quote in it, and no comma unless
    it is written between quotes. *)
Definition writable (field : bool * jsString) : Prop :=
  (quoteUnit ∉ field.2) /\ (field.1 = false -> commaUnit ∉ field.2).

(** What the two loops of [mutate] leave, before the repair: a player of no
    group keeps its team or gets a team drawn at random; and either every
    grouped player keeps its team, or the members of one group all get the
    same drawn team and every other grouped player keeps its team. *)
Definition mutatedFrom (self : TeamOptimizer) (individual mutated : Individual) : Prop :=
  length mutated = length individual /\
  (forall i, isCoAssigned (coAssignGroups self) i = false ->
     mutated !! i = individual !! i \/
     exists team, team < numTeams self /\ mutated !! i = Some team) /\
  ((forall i, isCoAssigned (coAssignGroups self) i = true ->
      mutated !! i = individual !! i) \/
   (exists g members team,
      (g, members) ∈ coAssignGroups self /\ team < numTeams self /\
      (forall i, i ∈ members -> mutated !! i = Some team) /\
      (forall i, isCoAssigned (coAssignGroups self) i = true -> (i ∉ members) ->
         mutated !! i = individual !! i))).

(** A league of two groups of two players each, entered out of key order. *)
Definition twoCarpools : TeamOptimizer :=
  newOptimizer
    [examplePlayer "SS" (Some 2%positive); examplePlayer "C" (Some 1%positive);
     examplePlayer "P" (Some 2%positive); examplePlayer "OF" (Some 1%positive)]
    2 (mkOptions (Some 2) (Some 1) true).

(** The ids that are array indices when used as property keys. *)
Definition indexKey (g : positive) : Prop := (g < 4294967295)%positive.

(** ** The configuration panel of the page (app.js) *)

(** [Math.max(2, Math.floor(players.length / 10))]: the number of teams
    [handleFile] writes into the team count field. *)
Definition suggestedTeams (playerCount : nat) : nat := Nat.max 2 (playerCount / 10).

(** The range check of [runOptimization], [numTeams < 2 || numTeams > 20],
    on a team count that is a natural number. *)
Definition teamCountRejected (numTeams : nat) : bool :=
  (numTeams <? 2) || (20 <? numTeams).

(** The test behind the warning of [runOptimization]:
    [players.length < numTeams * 9]. *)
Definition tooFewPlayers (playerCount numTeams : nat) : bool :=
  playerCount <? numTeams * 9.

(** * Reasoning in the monad *)

Lemma bindM_Some {A B} (m : M A) (k : A -> M B) t c b c'' :
  bind m k t c = Some (b, c'') <->
  exists a c', m t c = Some (a, c') /\ k a t c' = Some (b, c'').
Proof.
  unfold bind. destruct (m t c) as [[a c']|]; split.
  - intros H. by exists a, c'.
  - by intros (a' & c1 & [= -> ->] & H).
  - done.
  - by intros (a' & c1 & [=] & _).
Qed.

Lemma liftM_Some {A} (o : option A) t c a c' :
  lift o t c = Some (a, c') <-> o = Some a /\ c' = c.
Proof.
  unfold lift. destruct o; split; try done.
  - by intros [= -> ->].
  - by intros [[= ->] ->].
  - by intros [? _].
Qed.

Lemma retM_Some {A} (x : A) t c a c' :
  ret x t c = Some (a, c') <-> a = x /\ c' = c.
Proof. unfold ret. split; [by intros [= -> ->]|by intros [-> ->]]. Qed.

Lemma randomInt_Some n t c k c' :
  randomInt n t c = Some (k, c') <-> k = floor_scaled (t c) n /\ c' = S c.
Proof.
  unfold randomInt, bind, random, ret.
  split; [by intros [= <- <-]|by intros [-> ->]].
Qed.

Lemma randomBelow_Some p q t c b c' :
  randomBelow p q t c = Some (b, c') <-> b = draw_below (t c) p q /\ c' = S c.
Proof.
  unfold randomBelow, bind, random, ret.
  split; [by intros [= <- <-]|by intros [-> ->]].
Qed.

Lemma floor_scaled_lt d n : 0 < n -> floor_scaled d n < n.
Proof.
  intros Hn. unfold floor_scaled, draw_den.
  apply Nat.Div0.div_lt_upper_bound. nia.
Qed.

Lemma returns_ret {A} (a : A) (Q : A -> Prop) : Q a -> returns (ret a) Q.
Proof. intros H t c. by exists a, c. Qed.

Lemma returns_bind {A B} (m : M A) (k : A -> M B) (P : A -> Prop) (Q : B -> Prop) :
  returns m P -> (forall a, P a -> returns (k a) Q) -> returns (bind m k) Q.
Proof.
  intros Hm Hk t c. destruct (Hm t c) as (a & c' & Ha & HP).
  destruct (Hk a HP t c') as (b & c'' & Hb & HQ).
  exists b, c''. split; [|done]. apply bindM_Some. eauto.
Qed.

Lemma returns_mono {A} (m : M A) (P Q : A -> Prop) :
  returns m P -> (forall a, P a -> Q a) -> returns m Q.
Proof. intros Hm HPQ t c. destruct (Hm t c) as (a & c' & ? & ?). eauto 6. Qed.

Lemma returns_lift {A} (o : option A) (Q : A -> Prop) a :
  o = Some a -> Q a -> returns (lift o) Q.
Proof. intros -> H t c. by exists a, c. Qed.

Lemma returns_randomInt n : 0 < n -> returns (randomInt n) (fun k => k < n).
Proof.
  intros Hn t c. exists (floor_scaled (t c) n), (S c).
  split; [done|]. by apply floor_scaled_lt.
Qed.

Lemma returns_randomInt_any n : returns (randomInt n) (fun _ => True).
Proof. intros t c. by exists (floor_scaled (t c) n), (S c). Qed.

Lemma returns_randomBelow p q : returns (randomBelow p q) (fun _ => True).
Proof. intros t c. by exists (draw_below (t c) p q), (S c). Qed.

Lemma returns_Some {A} (m : M A) (Q : A -> Prop) t c a c' :
  returns m Q -> m t c = Some (a, c') -> Q a.
Proof. intros H Hm. destruct (H t c) as (a' & c1 & Ha & HQ). congruence. Qed.

(** Splits an evaluation [... = Some _] of a monadic program into the
    evaluations of its steps. *)
Ltac inv_M H :=
  repeat match type of H with
  | bind _ _ _ _ = Some _ =>
      let a := fresh "a" in let c := fresh "c" in
      let H1 := fresh "H" in
      apply bindM_Some in H as (a & c & H1 & H); try inv_M H1
  | lift _ _ _ = Some _ => apply liftM_Some in H as [H ->]
  | ret _ _ _ = Some _ => apply retM_Some in H as [? ->]
  | randomInt _ _ _ = Some _ => apply randomInt_Some in H as [? ->]
  | randomBelow _ _ _ _ = Some _ => apply randomBelow_Some in H as [? ->]
  end.

(** * Lists as arrays *)

Lemma map_fmap {A B} (f : A -> B) (l : list A) : map f l = f <$> l.
Proof. reflexivity. Qed.

Lemma filter_elem_of {A} (f : A -> bool) (l : list A) x :
  x ∈ List.filter f l <-> x ∈ l /\ f x = true.
Proof. rewrite !list_elem_of_In. apply filter_In. Qed.

Lemma includes_spec members i : includes members i = true <-> i ∈ members.
Proof.
  unfold includes. rewrite existsb_exists. split.
  - intros (x & Hx & Heq). apply Nat.eqb_eq in Heq as ->. by apply list_elem_of_In.
  - intros Hi. exists i. split; [by apply list_elem_of_In|apply Nat.eqb_refl].
Qed.

Lemma isCoAssigned_spec groups i :
  isCoAssigned groups i = true <->
  exists g members, (g, members) ∈ groups /\ i ∈ members.
Proof.
  unfold isCoAssigned. rewrite existsb_exists. split.
  - intros ([g members] & Hin & Hi). exists g, members.
    split; [by apply list_elem_of_In|by apply includes_spec].
  - intros (g & members & Hin & Hi). exists (g, members).
    split; [by apply list_elem_of_In|by apply includes_spec].
Qed.

Lemma isCoAssigned_false groups i g members :
  isCoAssigned groups i = false -> (g, members) ∈ groups -> i ∉ members.
Proof.
  intros Hfree Hin Hi.
  assert (isCoAssigned groups i = true) by (apply isCoAssigned_spec; eauto).
  congruence.
Qed.

Lemma writeAll_length v idxs ind : length (writeAll v ind idxs) = length ind.
Proof.
  revert ind. induction idxs as [|i idxs IH]; intros ind; [done|].
  change (writeAll v ind (i :: idxs)) with (writeAll v (<[i:=v]> ind) idxs).
  by rewrite IH, length_insert.
Qed.

Lemma writeAll_lookup v idxs ind j :
  writeAll v ind idxs !! j =
  if bool_decide (j ∈ idxs /\ j < length ind) then Some v else ind !! j.
Proof.
  revert ind. induction idxs as [|i idxs IH]; intros ind.
  - cbn. rewrite bool_decide_eq_false_2; [done|]. intros [H _]. by apply elem_of_nil in H.
  - change (writeAll v ind (i :: idxs)) with (writeAll v (<[i:=v]> ind) idxs).
    rewrite IH, length_insert.
    destruct (decide (j ∈ idxs /\ j < length ind)) as [Hin|Hnin].
    + rewrite !bool_decide_eq_true_2; [done|split; [right|]; tauto|done].
    + rewrite (bool_decide_eq_false_2 _ Hnin).
      destruct (decide (i = j)) as [->|Hne].
      * destruct (decide (j < length ind)) as [Hlt|Hge].
        -- rewrite list_lookup_insert_eq by done.
           rewrite bool_decide_eq_true_2; [done|split; [left|done]].
        -- rewrite list_insert_ge by lia.
           rewrite bool_decide_eq_false_2; [done|tauto].
      * rewrite list_lookup_insert_ne by done.
        rewrite bool_decide_eq_false_2; [done|].
        intros [Hj ?]. apply elem_of_cons in Hj as [->|Hj]; [done|tauto].
Qed.

Lemma writeAll_Forall (P : nat -> Prop) v idxs ind :
  P v -> Forall P ind -> Forall P (writeAll v ind idxs).
Proof.
  intros Hv. revert ind. induction idxs as [|i idxs IH]; intros ind Hind; [done|].
  change (writeAll v ind (i :: idxs)) with (writeAll v (<[i:=v]> ind) idxs).
  apply IH. by apply Forall_insert.
Qed.

(** * The co-assign groups of a constructed optimizer *)

Lemma pushGroup_keys g idx groups k :
  k ∈ map fst (pushGroup g idx groups) -> k = g \/ k ∈ map fst groups.
Proof.
  induction groups as [|[h ms] rest IH]; cbn.
  - intros Hk. apply list_elem_of_singleton in Hk. by left.
  - destruct (Pos.compare_spec g h) as [->|Hlt|Hgt]; cbn.
    + intros Hk. by right.
    + intros Hk. apply elem_of_cons in Hk as [->|Hk]; [by left|by right].
    + intros Hk. apply elem_of_cons in Hk as [->|Hk]; [right; left|].
      destruct (IH Hk) as [->|Hin]; [by left|right; by right].
Qed.

Lemma pushGroup_sorted g idx groups :
  StronglySorted Pos.lt (map fst groups) ->
  StronglySorted Pos.lt (map fst (pushGroup g idx groups)).
Proof.
  induction groups as [|[h ms] rest IH]; cbn; intros Hs.
  - repeat constructor.
  - apply StronglySorted_inv in Hs as [Hrest Hall].
    destruct (Pos.compare_spec g h) as [->|Hlt|Hgt]; cbn.
    + by constructor.
    + constructor; [by constructor|].
      constructor; [done|]. eapply Forall_impl; [exact Hall|]. cbn. lia.
    + constructor; [by apply IH|].
      apply Forall_forall. intros k Hk.
      destruct (pushGroup_keys g idx rest k Hk) as [->|Hin]; [lia|].
      by eapply Forall_forall in Hall.
Qed.

Lemma sorted_NoDup (ks : list positive) : StronglySorted Pos.lt ks -> NoDup ks.
Proof.
  induction 1 as [|k ks Hs IH Hall]; constructor; [|done].
  intros Hin. eapply Forall_forall in Hall; [|exact Hin]. lia.
Qed.

Lemma pushGroup_members g idx groups h members i :
  (h, members) ∈ pushGroup g idx groups -> i ∈ members ->
  (exists old, (h, old) ∈ groups /\ i ∈ old) \/ (h = g /\ i = idx).
Proof.
  induction groups as [|[k ms] rest IH]; cbn.
  - intros Hin Hi. apply list_elem_of_singleton in Hin. simplify_eq.
    apply list_elem_of_singleton in Hi. by right.
  - destruct (Pos.compare_spec g k) as [->|Hlt|Hgt].
    + intros Hin Hi. apply elem_of_cons in Hin as [Heq|Hin].
      * simplify_eq. apply elem_of_app in Hi as [Hi|Hi].
        -- left. exists ms. split; [left|done].
        -- apply list_elem_of_singleton in Hi. by right.
      * left. exists members. split; [by right|done].
    + intros Hin Hi. apply elem_of_cons in Hin as [Heq|Hin].
      * simplify_eq. apply list_elem_of_singleton in Hi. by right.
      * left. by exists members.
    + intros Hin Hi. apply elem_of_cons in Hin as [Heq|Hin].
      * simplify_eq. left. exists ms. split; [left|done].
      * destruct (IH Hin Hi) as [(old & Hold & Hio)|?]; [|by right].
        left. exists old. split; [by right|done].
Qed.

Lemma pushGroup_nonempty g idx groups :
  (forall h members, (h, members) ∈ groups -> members <> []) ->
  forall h members, (h, members) ∈ pushGroup g idx groups -> members <> [].
Proof.
  induction groups as [|[k ms] rest IH]; cbn; intros Hne h members.
  - intros Hin. apply list_elem_of_singleton in Hin. by simplify_eq.
  - destruct (Pos.compare_spec g k) as [->|Hlt|Hgt].
    + intros Hin. apply elem_of_cons in Hin as [Heq|Hin].
      * simplify_eq. by destruct ms.
      * apply (Hne h). by right.
    + intros Hin. apply elem_of_cons in Hin as [Heq|Hin]; [by simplify_eq|].
      by apply (Hne h).
    + intros Hin. apply elem_of_cons in Hin as [Heq|Hin].
      * simplify_eq. apply (Hne k). left.
      * apply (IH (fun h' m' H' => Hne h' m' (list_elem_of_further _ _ _ H')) h members Hin).
Qed.

Lemma buildGroupsFrom_inv ps rest : forall pre groups,
  ps = pre ++ rest -> groups_inv ps groups ->
  groups_inv ps (buildGroupsFrom (length pre) rest groups).
Proof.
  induction rest as [|player rest IH]; intros pre groups Hps Hinv; [done|].
  cbn. replace (S (length pre)) with (length (pre ++ [player]))
    by (rewrite length_app; cbn; lia).
  apply IH; [by rewrite <- app_assoc|].
  destruct (coAssignGroup player) as [g|] eqn:Hg; [|done].
  destruct Hinv as (Hmem & Hsorted & Hne).
  split; [|split].
  - intros h members i Hin Hi.
    destruct (pushGroup_members _ _ _ _ _ _ Hin Hi) as [(old & Hold & Hio)|[? ?]];
      [|subst h i].
    + by apply (Hmem h old).
    + exists player. split; [|done].
      rewrite Hps. by apply list_lookup_middle.
  - by apply pushGroup_sorted.
  - by apply pushGroup_nonempty.
Qed.

Lemma buildCoAssignGroups_wf ps : groups_wf ps (buildCoAssignGroups ps).
Proof.
  destruct (buildGroupsFrom_inv ps ps [] [] eq_refl) as (Hmem & Hsorted & Hne).
  - split; [|split].
    + intros ? ? ? H. by apply elem_of_nil in H.
    + apply SSorted_nil.
    + intros ? ? H. by apply elem_of_nil in H.
  - split; [done|]. split; [|done]. by apply sorted_NoDup.
Qed.

Lemma newOptimizer_wf ps teams options : wf (newOptimizer ps teams options).
Proof. split; [done|]. apply buildCoAssignGroups_wf. Qed.

(** A player belongs to at most one entry of the groups. *)
Lemma group_unique ps groups g members g' members' i :
  groups_wf ps groups ->
  (g, members) ∈ groups -> (g', members') ∈ groups ->
  i ∈ members -> i ∈ members' -> g = g' /\ members = members'.
Proof.
  intros (Hmem & Hnd & _) Hin Hin' Hi Hi'.
  destruct (Hmem _ _ _ Hin Hi) as (p & Hp & Hg).
  destruct (Hmem _ _ _ Hin' Hi') as (p' & Hp' & Hg').
  assert (g = g') as <- by congruence. split; [done|].
  clear Hmem Hi Hi' Hp Hp' Hg Hg'.
  induction groups as [|[k ms] rest IH]; [by apply elem_of_nil in Hin|].
  cbn in Hnd. apply NoDup_cons in Hnd as [Hk Hnd].
  assert (forall m, (k, m) ∈ rest -> False) as Hfresh.
  { intros m Hm. apply Hk. rewrite map_fmap. apply list_elem_of_fmap.
    by exists (k, m). }
  apply elem_of_cons in Hin as [Heq|Hin];
    apply elem_of_cons in Hin' as [Heq'|Hin']; simplify_eq.
  - done.
  - by destruct (Hfresh members').
  - by destruct (Hfresh members).
  - by apply IH.
Qed.

Lemma group_member_lt self g members i :
  wf self -> (g, members) ∈ coAssignGroups self -> i ∈ members ->
  i < numPlayers self.
Proof.
  intros [Hn (Hmem & _)] Hin Hi.
  destruct (Hmem _ _ _ Hin Hi) as (p & Hp & _).
  rewrite Hn. by eapply lookup_lt_Some.
Qed.

(** * Decoding *)

Lemma indicesOnTeam_spec t cells : forall k i,
  i ∈ indicesOnTeam t k cells <-> exists j, i = k + j /\ cells !! j = Some t.
Proof.
  induction cells as [|c rest IH]; intros k i; cbn.
  - split; [by intros H%elem_of_nil|by intros (j & _ & ?)].
  - destruct (Nat.eqb_spec c t) as [->|Hne].
    + rewrite elem_of_cons, IH. split.
      * intros [->|(j & -> & Hj)]; [exists 0|exists (S j)]; split; (lia || done).
      * intros ([|j] & -> & Hj); [left; lia|right; exists j; split; [lia|done]].
    + rewrite IH. split.
      * intros (j & -> & Hj). exists (S j). split; [lia|done].
      * intros ([|j] & -> & Hj); [by simplify_eq/=|exists j; split; [lia|done]].
Qed.

Lemma indicesOnTeam_NoDup t cells : forall k, NoDup (indicesOnTeam t k cells).
Proof.
  induction cells as [|c rest IH]; intros k; cbn; [constructor|].
  destruct (c =? t); [|apply IH].
  constructor; [|apply IH].
  intros (j & Hj & _)%indicesOnTeam_spec. lia.
Qed.

Lemma indicesOnTeam_here t cells i :
  i ∈ indicesOnTeam t 0 cells <-> cells !! i = Some t.
Proof. rewrite indicesOnTeam_spec. split; [by intros (j & -> & ?)|by exists i]. Qed.

Lemma placePlayers_spec cells : forall k teams,
  Forall (fun c => c < length teams) cells ->
  placePlayers k cells teams =
  Some (imap (fun t tm =>
                Team.mk (Team.teamId tm) (Team.players tm ++ indicesOnTeam t k cells))
             teams).
Proof.
  induction cells as [|c rest IH]; intros k teams Hall; cbn.
  - f_equal. apply list_eq. intros i. rewrite list_lookup_imap.
    destruct (teams !! i) as [[id ps]|]; cbn; [|done]. by rewrite app_nil_r.
  - apply Forall_cons in Hall as [Hc Hrest].
    destruct (lookup_lt_is_Some_2 teams c Hc) as [tm Htm]. rewrite Htm. cbn.
    rewrite IH by (by rewrite length_insert). f_equal.
    apply list_eq. intros i. rewrite !list_lookup_imap.
    destruct (decide (i = c)) as [->|Hne].
    + rewrite list_lookup_insert_eq by done. rewrite Htm. cbn.
      rewrite Nat.eqb_refl. by rewrite <- app_assoc.
    + rewrite list_lookup_insert_ne by done.
      destruct (teams !! i) as [tm'|]; cbn; [|done].
      destruct (Nat.eqb_spec c i) as [->|_]; [done|done].
Qed.

Lemma decodeIndividual_decoded self individual :
  Forall (fun c => c < numTeams self) individual ->
  decodeIndividual self individual = Some (decoded self individual).
Proof.
  intros Hall. unfold decodeIndividual.
  rewrite placePlayers_spec by (by rewrite length_map, length_seq).
  f_equal. apply list_eq. intros i. unfold decoded.
  rewrite list_lookup_imap, !map_fmap, !list_lookup_fmap.
  destruct (decide (i < numTeams self)) as [Hlt|Hge].
  - by rewrite lookup_seq_lt.
  - by rewrite lookup_seq_ge by lia.
Qed.

Lemma decodeIndividual_valid self individual :
  valid self individual ->
  decodeIndividual self individual = Some (decoded self individual).
Proof. intros [_ Hall]. by apply decodeIndividual_decoded. Qed.

Lemma decoded_length self individual :
  length (decoded self individual) = numTeams self.
Proof. unfold decoded. by rewrite length_map, length_seq. Qed.

Lemma decoded_lookup self individual t tm :
  decoded self individual !! t = Some tm <->
  t < numTeams self /\ tm = Team.mk t (indicesOnTeam t 0 individual).
Proof.
  unfold decoded. rewrite map_fmap, list_lookup_fmap. split.
  - intros H. destruct (seq 0 (numTeams self) !! t) as [t'|] eqn:Ht; [|done].
    apply lookup_seq in Ht as [-> ?]. by simplify_eq/=.
  - intros [Hlt ->]. by rewrite lookup_seq_lt.
Qed.

Lemma decoded_member_lt self individual t tm i :
  decoded self individual !! t = Some tm -> i ∈ Team.players tm ->
  i < length individual.
Proof.
  intros [_ ->]%decoded_lookup Hi. cbn in Hi.
  apply indicesOnTeam_here in Hi. by eapply lookup_lt_Some.
Qed.

(** C6. [decodeIndividual] is a function of the individual (and of the
    number of teams) alone: it returns one team list, with [numTeams] teams,
    team [t] holding exactly the players whose cell is [t], each once; so
    every player index is in exactly one team and the teams together hold
    exactly the player indices.  The individual and the player list are
    values of the model and are not changed. *)
Theorem decodeIndividual_partition self individual :
  valid self individual -> decodes_to_partition self individual.
Proof.
  intros Hv. exists (decoded self individual).
  pose proof (decodeIndividual_valid _ _ Hv) as Hd. destruct Hv as [Hlen Hall].
  split; [done|]. split; [intros teams'; rewrite Hd; congruence|].
  split; [apply decoded_length|]. split; [|split].
  - intros t tm [Hlt ->]%decoded_lookup. cbn.
    split; [done|]. split; [apply indicesOnTeam_NoDup|].
    intros i. apply indicesOnTeam_here.
  - intros i Hi. rewrite <- Hlen in Hi.
    destruct (lookup_lt_is_Some_2 individual i Hi) as [t Ht].
    assert (t < numTeams self) as Hlt by (by eapply Forall_lookup_1 in Hall).
    exists t, (Team.mk t (indicesOnTeam t 0 individual)).
    split; [by apply decoded_lookup|]. split; [by apply indicesOnTeam_here|].
    intros t' tm' [_ ->]%decoded_lookup Hi'%indicesOnTeam_here. congruence.
  - intros t tm i Htm Hi. rewrite <- Hlen. by eapply decoded_member_lt.
Qed.

Lemma decodeIndividual_partition_witness :
  valid smallLeague [0; 1; 1] /\ decodes_to_partition smallLeague [0; 1; 1].
Proof.
  assert (valid smallLeague [0; 1; 1]) as Hv.
  { split; [reflexivity|]. repeat constructor. }
  split; [exact Hv|]. exact (decodeIndividual_partition smallLeague [0; 1; 1] Hv).
Defined.

(** * The hard penalties of [evaluate] *)

Lemma deref_length roster tm ps :
  Team.deref roster tm = Some ps -> length ps = length (Team.players tm).
Proof.
  unfold Team.deref. intros H%mapM_Some. symmetry. by eapply Forall2_length.
Qed.

Lemma getPositionCount_deref roster tm ps pos :
  Team.deref roster tm = Some ps ->
  Team.getPositionCount roster tm pos = Some (positionCount pos ps).
Proof. unfold Team.getPositionCount. by intros ->. Qed.

Lemma missingRolePenalty_spec roster tm ps positions : forall penalty,
  Team.deref roster tm = Some ps ->
  missingRolePenalty roster tm positions penalty =
  Some (penalty + 10000 * Z.of_nat
          (length (List.filter (fun pos => positionCount pos ps <? 1)%nat positions)))%Z.
Proof.
  intros penalty Hps. revert penalty.
  induction positions as [|pos rest IH]; intros penalty.
  - cbn. f_equal. lia.
  - cbn [missingRolePenalty List.filter].
    rewrite (getPositionCount_deref _ _ _ _ Hps). cbn [mbind option_bind].
    rewrite IH. destruct (positionCount pos ps <? 1); cbn [length]; f_equal; lia.
Qed.

Lemma teamPenalty_spec roster tm ps penalty :
  Team.deref roster tm = Some ps ->
  teamPenalty roster tm penalty =
  Some (penalty + roleCoveragePenalty ps + sizePenalty ps)%Z.
Proof.
  intros Hps. unfold teamPenalty.
  rewrite (missingRolePenalty_spec _ _ _ _ _ Hps). cbn [mbind option_bind].
  rewrite (getPositionCount_deref _ _ _ _ Hps). cbn [mbind option_bind].
  rewrite <- (deref_length _ _ _ Hps).
  unfold roleCoveragePenalty, missingRoles, sizePenalty. f_equal.
  destruct (Nat.ltb_spec (positionCount "OF" ps) 3);
    destruct (Nat.ltb_spec (length ps) 9); lia.
Qed.

Lemma teamsPenalty_spec roster teams : forall rosters penalty,
  mapM (Team.deref roster) teams = Some rosters ->
  teamsPenalty roster teams penalty =
  Some (penalty + sumZ (map roleCoveragePenalty rosters)
        + sumZ (map sizePenalty rosters))%Z.
Proof.
  induction teams as [|tm teams IH]; intros rosters penalty Hm.
  - apply mapM_Some in Hm. apply Forall2_nil_inv_l in Hm as ->. cbn. f_equal. lia.
  - apply mapM_Some in Hm. apply Forall2_cons_inv_l in Hm as (ps & rest & Hps & Hrest & ->).
    apply mapM_Some in Hrest. cbn [teamsPenalty].
    rewrite (teamPenalty_spec _ _ _ _ Hps). cbn [mbind option_bind].
    rewrite (IH _ _ Hrest). unfold sumZ. cbn [map foldr]. f_equal. lia.
Qed.

Lemma splitPenalty_shift individual groups : forall penalty,
  splitPenalty individual groups penalty =
  (penalty + splitPenalty individual groups 0)%Z.
Proof.
  unfold splitPenalty. induction groups as [|entry groups IH]; intros penalty.
  - cbn. lia.
  - cbn [foldl].
    rewrite (IH (if groupIsSplit individual entry.2 then (penalty + 500)%Z else penalty)).
    rewrite (IH (if groupIsSplit individual entry.2 then (0 + 500)%Z else 0%Z)).
    destruct (groupIsSplit individual entry.2); lia.
Qed.

Lemma imbalancePenalty_shift sizes penalty :
  imbalancePenalty sizes penalty = (penalty + imbalancePenalty sizes 0)%Z.
Proof. unfold imbalancePenalty. destruct (1 <? sizeGap sizes); lia. Qed.

Lemma team_sizes_rosters roster teams rosters :
  mapM (Team.deref roster) teams = Some rosters ->
  map (fun tm => length (Team.players tm)) teams = map length rosters.
Proof.
  intros Hm%mapM_Some. induction Hm as [|tm ps teams rosters Hps _ IH]; [done|].
  cbn. by rewrite IH, (deref_length _ _ _ Hps).
Qed.

Lemma hardPenalty_spec self individual teams rosters :
  mapM (Team.deref (players self)) teams = Some rosters ->
  hardPenalty self individual teams =
  Some (sumZ (map roleCoveragePenalty rosters)
        + sumZ (map sizePenalty rosters)
        + splitPenalty individual (coAssignGroups self) 0
        + imbalancePenalty (map length rosters) 0)%Z.
Proof.
  intros Hm. unfold hardPenalty.
  rewrite (teamsPenalty_spec _ _ _ _ Hm). cbn [mbind option_bind].
  rewrite (team_sizes_rosters _ _ _ Hm).
  rewrite imbalancePenalty_shift, splitPenalty_shift. f_equal; lia.
Qed.

(** The members of the teams of a valid individual can all be read. *)
Lemma deref_is_Some roster tm :
  (forall i, i ∈ Team.players tm -> i < length roster) ->
  is_Some (Team.deref roster tm).
Proof.
  intros Hlt. unfold Team.deref. apply mapM_is_Some. apply Forall_forall.
  intros i Hi. apply lookup_lt_is_Some_2. by apply Hlt.
Qed.

Lemma decoded_deref self individual :
  wf self -> valid self individual ->
  Forall (fun tm => is_Some (Team.deref (players self) tm)) (decoded self individual).
Proof.
  intros [Hn _] [Hlen _]. apply Forall_lookup. intros t tm Htm.
  apply deref_is_Some. intros i Hi.
  rewrite <- Hn, <- Hlen. by eapply decoded_member_lt.
Qed.


Lemma mapM_rosters {A} (f : Team.t -> option A) (g : list Player -> A)
    roster teams rosters :
  (forall tm ps, Team.deref roster tm = Some ps -> f tm = Some (g ps)) ->
  mapM (Team.deref roster) teams = Some rosters ->
  mapM f teams = Some (map g rosters).
Proof.
  intros Hf Hm%mapM_Some. apply mapM_Some.
  induction Hm as [|tm ps teams rosters Hps _ IH]; cbn; constructor; auto.
Qed.

Lemma getAverageSkill_deref roster tm ps :
  Team.deref roster tm = Some ps ->
  Team.getAverageSkill roster tm = Some (averageOf totalScore ps).
Proof.
  intros Hps. unfold Team.getAverageSkill, averageOf.
  rewrite (deref_length _ _ _ Hps).
  destruct (length (Team.players tm) =? 0); [reflexivity|]. by rewrite Hps.
Qed.

Lemma getAverageAttendance_deref roster tm ps :
  Team.deref roster tm = Some ps ->
  Team.getAverageAttendance roster tm = Some (averageOf attendance ps).
Proof.
  intros Hps. unfold Team.getAverageAttendance, averageOf.
  rewrite (deref_length _ _ _ Hps).
  destruct (length (Team.players tm) =? 0); [reflexivity|]. by rewrite Hps.
Qed.

Lemma getSkillVariance_deref roster tm ps :
  Team.deref roster tm = Some ps ->
  Team.getSkillVariance roster tm = Some (skillSpread ps).
Proof.
  intros Hps. unfold Team.getSkillVariance, skillSpread.
  rewrite (deref_length _ _ _ Hps).
  destruct (length (Team.players tm) <? 2); [reflexivity|].
  rewrite (getAverageSkill_deref _ _ _ Hps). cbn [mbind option_bind].
  by rewrite Hps.
Qed.

Lemma coachCount_deref roster tm ps :
  Team.deref roster tm = Some ps ->
  Team.coachCount roster tm = Some (length (List.filter isCoach ps)).
Proof. unfold Team.coachCount. by intros ->. Qed.



(** * The variance helper *)

Lemma foldl_Qcplus (xs : list Qc) : forall acc : Qc,
  foldl Qcplus acc xs = (acc + foldr Qcplus 0 xs)%Qc.
Proof.
  induction xs as [|x xs IH]; intros acc; cbn.
  - ring.
  - rewrite IH. ring.
Qed.

Lemma foldr_Qcplus_perm (xs ys : list Qc) :
  xs ≡ₚ ys -> foldr Qcplus 0%Qc xs = foldr Qcplus 0%Qc ys.
Proof.
  induction 1 as [|x xs ys _ IH|x y xs|xs ys zs _ IH1 _ IH2]; cbn.
  - done.
  - by rewrite IH.
  - ring.
  - congruence.
Qed.

Lemma sumQc_perm (xs ys : list Qc) :
  xs ≡ₚ ys -> foldl Qcplus 0%Qc xs = foldl Qcplus 0%Qc ys.
Proof. intros H. rewrite !foldl_Qcplus. by rewrite (foldr_Qcplus_perm _ _ H). Qed.

Lemma countQc_S n : countQc (S n) = (countQc n + 1)%Qc.
Proof.
  unfold countQc. apply Qc_is_canon. cbn [this Qcplus Q2Qc].
  rewrite !Qred_correct. rewrite Nat2Z.inj_succ. unfold Z.succ.
  by rewrite inject_Z_plus.
Qed.

Lemma countQc_pos n : countQc (S n) <> 0%Qc.
Proof.
  intros H. assert (countQc (S n) == 0)%Q as Heq by (by rewrite H).
  unfold countQc in Heq. cbn [this Q2Qc] in Heq. rewrite Qred_correct in Heq.
  unfold Qeq in Heq. cbn in Heq. lia.
Qed.

Lemma sumQc_replicate (a : Qc) n :
  foldr Qcplus 0%Qc (replicate n a) = (countQc n * a)%Qc.
Proof.
  induction n as [|n IH].
  - cbn. unfold countQc. cbn. ring_simplify. apply Qc_is_canon. reflexivity.
  - cbn [replicate foldr]. rewrite IH, countQc_S. ring.
Qed.

Lemma variance_constant_exact (a : Qc) n : varianceExact (replicate n a) = 0%Qc.
Proof.
  unfold varianceExact, varianceOver. rewrite length_replicate.
  destruct (n <? 2) eqn:Hn; [done|].
  apply Nat.ltb_ge in Hn. destruct n as [|n]; [lia|].
  rewrite !foldl_Qcplus, sumQc_replicate.
  assert ((0 + countQc (S n) * a) / countQc (S n) = a)%Qc as ->.
  { field. apply countQc_pos. }
  assert (map (fun v => (v - a) * (v - a))%Qc (replicate (S n) a)
          = replicate (S n) 0%Qc) as ->.
  { rewrite map_fmap, fmap_replicate. f_equal. ring. }
  rewrite sumQc_replicate. field. apply countQc_pos.
Qed.

Lemma variance_permutation_exact (xs ys : list Qc) :
  xs ≡ₚ ys -> varianceExact xs = varianceExact ys.
Proof.
  intros H. unfold varianceExact, varianceOver.
  rewrite <- (Permutation_length H). destruct (length xs <? 2); [done|].
  rewrite <- (sumQc_perm _ _ H). f_equal.
  apply sumQc_perm. rewrite !map_fmap. by apply fmap_Permutation.
Qed.

(** C8, as the code has it.  In binary64 the helper returns zero below two
    elements and otherwise the sum of the squared deviations from the mean
    divided by the number of elements N (not N - 1).  That a constant
    collection has variance zero and that the order of the elements does not
    matter holds of the same formula in exact arithmetic. *)
Theorem variance_population : variance_is_population_variance.
Proof.
  unfold variance_is_population_variance. repeat split.
  - intros values Hlen. unfold variance, varianceOver.
    by apply Nat.ltb_lt in Hlen as ->.
  - intros values Hlen. unfold variance, varianceOver.
    by apply Nat.ltb_ge in Hlen as ->.
  - intros values Hlen. unfold varianceExact, varianceOver.
    by apply Nat.ltb_lt in Hlen as ->.
  - intros values Hlen. unfold varianceExact, varianceOver.
    by apply Nat.ltb_ge in Hlen as ->.
  - apply variance_constant_exact.
  - apply variance_permutation_exact.
Qed.

(** C8, counterexample: in binary64 the variance of [0.1, 0.1, 0.1] is not
    zero (the mean rounds to a neighbour of 0.1), and the variance of
    [0.1, 0.7, 0.3] differs from that of [0.3, 0.7, 0.1]. *)
Lemma variance_rounding_counterexample :
  (variance [tenth; tenth; tenth] =? 0)%float = false /\
  (variance [tenth; sevenTenths; threeTenths]
   =? variance [threeTenths; sevenTenths; tenth])%float = false.
Proof. split; vm_compute; reflexivity. Qed.

(** C8, at an instance: a single reading has variance zero, and the exact
    variance of 1, 2, 3 is that of 3, 2, 1. *)
Lemma variance_population_witness :
  length [1%float] < 2 /\ variance [1%float] = 0%float /\
  [Q2Qc 1; Q2Qc 2; Q2Qc 3] ≡ₚ [Q2Qc 3; Q2Qc 2; Q2Qc 1] /\
  varianceExact [Q2Qc 1; Q2Qc 2; Q2Qc 3] = varianceExact [Q2Qc 3; Q2Qc 2; Q2Qc 1].
Proof.
  assert (length [1%float] < 2) as Hlen by (cbn; lia).
  assert ([Q2Qc 1; Q2Qc 2; Q2Qc 3] ≡ₚ [Q2Qc 3; Q2Qc 2; Q2Qc 1]) as Hperm.
  { etransitivity; [apply Permutation_swap|].
    etransitivity; [apply Permutation_skip, Permutation_swap|].
    apply Permutation_swap. }
  destruct variance_population as (Hshort & _ & _ & _ & _ & Hreorder).
  split; [exact Hlen|]. split; [exact (Hshort _ Hlen)|].
  split; [exact Hperm|exact (Hreorder _ _ Hperm)].
Defined.

(** * Donor selection *)

Lemma donorPlayersFrom_spec self donor pos cells : forall k ds,
  donorPlayersFrom self donor pos k cells = Some ds ->
  forall i, i ∈ ds <->
    exists j p, i = k + j /\ cells !! j = Some donor /\
      players self !! i = Some p /\ isMatch pos p = true /\
      isCoAssigned (coAssignGroups self) i = false.
Proof.
  induction cells as [|cell rest IH]; intros k ds Hds i.
  - cbn in Hds. simplify_eq. split; [by intros H%elem_of_nil|by intros (j & p & _ & ? & _)].
  - cbn [donorPlayersFrom] in Hds.
    destruct (Nat.eqb_spec cell donor) as [->|Hne].
    + destruct (players self !! k) as [player|] eqn:Hp; [|done].
      cbn [mbind option_bind] in Hds.
      destruct (donorPlayersFrom self donor pos (S k) rest) as [more|] eqn:Hmore; [|done].
      cbn [mbind option_bind] in Hds. simplify_eq.
      specialize (IH _ _ Hmore i).
      destruct (isMatch pos player && negb (isCoAssigned (coAssignGroups self) k)) eqn:Hsel.
      * apply andb_true_iff in Hsel as [Hm Hfree%negb_true_iff].
        rewrite elem_of_cons, IH. split.
        -- intros [->|(j & p & -> & Hj & ? & ? & ?)].
           ++ exists 0, player. rewrite Nat.add_0_r. done.
           ++ exists (S j), p. split_and!; [lia|done..].
        -- intros ([|j] & p & -> & Hj & Hp' & ? & ?).
           ++ left. lia.
           ++ right. exists j, p. replace (S k + j) with (k + S j) by lia. done.
      * rewrite IH. split.
        -- intros (j & p & -> & Hj & ? & ? & ?). exists (S j), p.
           split_and!; [lia|done..].
        -- intros ([|j] & p & -> & Hj & Hp' & Hm & Hfree).
           ++ rewrite Nat.add_0_r in Hp', Hfree. simplify_eq.
              rewrite Hm, Hfree in Hsel. done.
           ++ exists j, p. replace (S k + j) with (k + S j) by lia. done.
    + specialize (IH _ _ Hds i). rewrite IH. split.
      * intros (j & p & -> & Hj & ? & ? & ?). exists (S j), p.
        split_and!; [lia|done..].
      * intros ([|j] & p & -> & Hj & ? & ? & ?); [by simplify_eq/=|].
        exists j, p. replace (S k + j) with (k + S j) by lia. done.
Qed.

Lemma donorPlayersFrom_is_Some self donor pos cells : forall k,
  k + length cells <= length (players self) ->
  is_Some (donorPlayersFrom self donor pos k cells).
Proof.
  induction cells as [|cell rest IH]; intros k Hk; [done|].
  cbn [donorPlayersFrom length] in *.
  destruct (IH (S k)) as [more Hmore]; [lia|].
  destruct (cell =? donor); [|by rewrite Hmore].
  destruct (lookup_lt_is_Some_2 (players self) k) as [p ->]; [lia|].
  cbn [mbind option_bind]. rewrite Hmore. done.
Qed.

Lemma hasFreeDonor_donors self individual pos donor ds :
  donorPlayersFrom self donor pos 0 individual = Some ds ->
  (exists i, i ∈ ds) <-> hasFreeDonor self individual pos donor.
Proof.
  intros Hds. unfold hasFreeDonor. split.
  - intros (i & Hi). apply (donorPlayersFrom_spec _ _ _ _ _ _ Hds) in Hi
      as (j & p & -> & ? & ? & ? & ?). by exists j, p.
  - intros (i & p & ? & ? & ? & ?). exists i.
    apply (donorPlayersFrom_spec _ _ _ _ _ _ Hds). by exists i, p.
Qed.

Lemma swapPositionPlayer_spec self individual teams donor recipient pos t c
    moved individual' c' :
  swapPositionPlayer self individual teams donor recipient pos t c
    = Some ((moved, individual'), c') ->
  (moved = true /\ c' = S c /\
   takesFrom self individual pos donor recipient individual') \/
  (moved = false /\ individual' = individual /\ c' = c /\
   ~ hasFreeDonor self individual pos donor).
Proof.
  unfold swapPositionPlayer. intros H. inv_M H.
  rename a into ds. rename H0 into Hds.
  destruct (Nat.ltb_spec 0 (length ds)) as [Hpos|Hempty].
  - inv_M H. left. simplify_eq.
    split; [done|]. split; [done|].
    pose proof (floor_scaled_lt (t c) _ Hpos) as Hk.
    destruct (lookup_lt_is_Some_2 ds _ Hk) as [i Hi]. rewrite Hi.
    apply list_elem_of_lookup_2 in Hi.
    apply (donorPlayersFrom_spec _ _ _ _ _ _ Hds) in Hi as (j & p & -> & ? & ? & ? & ?).
    by exists j, p.
  - inv_M H. right. simplify_eq. repeat split; try done.
    intros Hfree. apply (hasFreeDonor_donors _ _ _ _ _ Hds) in Hfree as [i Hi].
    destruct ds; [by apply elem_of_nil in Hi|cbn in Hempty; lia].
Qed.

Lemma swapPositionPlayer_none self individual teams donor recipient pos t c :
  length individual <= length (players self) ->
  ~ hasFreeDonor self individual pos donor ->
  swapPositionPlayer self individual teams donor recipient pos t c
    = Some ((false, individual), c).
Proof.
  intros Hlen Hnone. unfold swapPositionPlayer.
  destruct (donorPlayersFrom_is_Some self donor pos individual 0) as [ds Hds]; [lia|].
  unfold bind, lift. rewrite Hds.
  destruct ds as [|i ds]; [done|].
  destruct Hnone. apply (hasFreeDonor_donors _ _ _ _ _ Hds). exists i. left.
Qed.

(** C10. [swapPositionPlayer] moves one player of the role who belongs to no
    group, or nothing: when every player of the role on the donor team is in
    a group it returns [false], leaves the individual as it was and draws
    nothing.  So role repair can fail although a donor team has a player of
    the role: in [carpoolLeague] the only shortstop is grouped, and
    [fixMissingPosition] reports failure for the team without a shortstop. *)
Theorem swapPositionPlayer_free_only : swap_moves_free_players_only.
Proof.
  split; [|split].
  - intros self individual teams donor recipient pos t c moved individual' c' H.
    apply swapPositionPlayer_spec in H as [(-> & _ & ?)|(-> & -> & -> & ?)]; eauto.
  - intros. by apply swapPositionPlayer_none.
  - cbv zeta. split.
    + exists 1, (examplePlayer "SS" (Some 1%positive)). by vm_compute.
    + intros t c. reflexivity.
Qed.

Lemma carpool_no_free_shortstop : ~ hasFreeDonor carpoolLeague [0; 1; 1] "SS" 1.
Proof.
  intros (i & p & Hi & Hp & Hm & Hfree).
  destruct i as [|[|[|i]]]; cbn in Hi, Hp; try discriminate;
    injection Hp as <-; vm_compute in Hm, Hfree; discriminate.
Qed.

(** C10, at an instance: the team of [carpoolLeague] that holds the grouped
    shortstop gives nothing. *)
Lemma swapPositionPlayer_free_only_witness :
  let individual := [0; 1; 1] in
  let teams := decoded carpoolLeague individual in
  length individual <= length (players carpoolLeague) /\
  ~ hasFreeDonor carpoolLeague individual "SS" 1 /\
  swapPositionPlayer carpoolLeague individual teams 1 0 "SS" zeroTape 0
    = Some ((false, individual), 0).
Proof.
  cbv zeta. split; [reflexivity|]. split; [exact carpool_no_free_shortstop|].
  destruct swapPositionPlayer_free_only as (_ & Hnone & _).
  apply Hnone; [reflexivity|exact carpool_no_free_shortstop].
Defined.

(** * The two tiers of [fixMissingPosition] *)

Lemma needed_position pos :
  (if String.eqb pos "OF" then "OF"%string else pos) = pos.
Proof. by destruct (String.eqb_spec pos "OF") as [->|]. Qed.

Lemma donorSearch_spec self ofMin roleMin teams needy pos pending :
  forall k individual t c moved individual' c',
  donorSearch self ofMin roleMin teams needy pos k pending individual t c
    = Some ((moved, individual'), c') ->
  let over := if String.eqb pos "OF" then ofMin else roleMin in
  let eligible d :=
    exists tm n, pending !! d = Some tm /\ k + d <> needy /\
      Team.getPositionCount (players self) tm pos = Some n /\ over < n in
  (moved = true /\ c' = S c /\
   exists d, eligible d /\ takesFrom self individual pos (k + d) needy individual' /\
     forall d', d' < d -> eligible d' -> ~ hasFreeDonor self individual pos (k + d')) \/
  (moved = false /\ individual' = individual /\ c' = c /\
   forall d, eligible d -> ~ hasFreeDonor self individual pos (k + d)).
Proof.
  induction pending as [|team rest IH]; intros k individual t c moved individual' c' H over.
  - cbn in H. inv_M H. simplify_eq. right. repeat split; try done.
    intros d (tm & n & Hd & _). by rewrite lookup_nil in Hd.
  - cbn [donorSearch] in H.
    assert (forall moved' ind' c1,
      donorSearch self ofMin roleMin teams needy pos (S k) rest individual t c
        = Some ((moved', ind'), c1) ->
      (forall n, Team.getPositionCount (players self) team pos = Some n ->
                    k <> needy -> over < n -> ~ hasFreeDonor self individual pos k) ->
      let eligible d :=
        exists tm n, (team :: rest) !! d = Some tm /\ k + d <> needy /\
          Team.getPositionCount (players self) tm pos = Some n /\ over < n in
      (moved' = true /\ c1 = S c /\
       exists d, eligible d /\ takesFrom self individual pos (k + d) needy ind' /\
         forall d', d' < d -> eligible d' -> ~ hasFreeDonor self individual pos (k + d')) \/
      (moved' = false /\ ind' = individual /\ c1 = c /\
       forall d, eligible d -> ~ hasFreeDonor self individual pos (k + d))) as Hrec.
    { intros moved' ind' c1 Hr Hhead eligible.
      apply IH in Hr as [(-> & -> & d & (tm & n & Hd & Hne & Hn & Hov) & Htake & Hfirst)
                        |(-> & -> & -> & Hnone)].
      - left. split; [done|]. split; [done|]. exists (S d).
        split; [exists tm, n; split_and!; [done|lia|done..]|].
        split; [by replace (k + S d) with (S k + d) by lia|].
        intros [|d'] Hlt (tm' & n' & Hd' & Hne' & Hn' & Hov').
        + rewrite Nat.add_0_r in *. cbn in Hd'. simplify_eq. by eapply Hhead.
        + replace (k + S d') with (S k + d') by lia.
          apply Hfirst; [lia|]. exists tm', n'. split_and!; [done|lia|done..].
      - right. split_and!; try done.
        intros [|d] (tm & n & Hd & Hne & Hn & Hov).
        + rewrite Nat.add_0_r in *. cbn in Hd. simplify_eq. by eapply Hhead.
        + replace (k + S d) with (S k + d) by lia.
          apply Hnone. exists tm, n. split_and!; [done|lia|done..]. }
    destruct (Nat.eqb_spec k needy) as [->|Hk].
    { apply Hrec in H; [done|]. intros; done. }
    inv_M H. rename a into n. rename H0 into Hn. rewrite needed_position in Hn.
    fold over in H. destruct (Nat.ltb_spec over n) as [Hov|Hov].
    + inv_M H. destruct a as [moved0 ind0].
      apply swapPositionPlayer_spec in H0
        as [(-> & -> & Htake)|(-> & -> & -> & Hnone)].
      * inv_M H. simplify_eq. left. split; [done|]. split; [done|].
        exists 0. rewrite Nat.add_0_r.
        split; [exists team, n; split_and!; [done|lia|done..]|].
        split; [done|]. intros d' Hd'. lia.
      * apply Hrec in H; [done|]. intros n' Hn' _ _. done.
    + apply Hrec in H; [done|]. intros n' Hn' _ Hov'. simplify_eq. lia.
Qed.

Lemma fallback_le_surplus pos : fallbackOver pos <= surplusOver pos.
Proof. unfold fallbackOver, surplusOver. destruct (String.eqb pos "OF"); lia. Qed.

(** C3, as the code has it.  The donor search has two tiers over the teams
    other than the needy one, each in team order: first the teams with a
    surplus of the role (more than one player of an ordinary role, more than
    three outfielders), then the teams with at least one player of an
    ordinary role, or at least three outfielders; a team is used only if it
    has a player of the role who belongs to no group.  Failure is reported
    when neither tier yields a move. *)
Theorem fixMissingPosition_tiers self individual teams needy pos t c
    fixed individual' c' :
  fixMissingPosition self individual teams needy pos t c
    = Some ((fixed, individual'), c') ->
  fix_outcome self individual teams needy pos fixed individual' c c'.
Proof.
  unfold fixMissingPosition. intros H. inv_M H. destruct a as [moved ind1].
  apply donorSearch_spec in H0 as [(-> & -> & d & Hel & Htake & Hfirst)
                                  |(-> & -> & -> & Hnone1)].
  - inv_M H. simplify_eq. cbn. split; [done|]. exists d.
    split; [done|]. left. split.
    + destruct Hel as (tm & n & ? & ? & ? & ?). by exists tm, n.
    + intros d' Hlt (tm & n & ? & ? & ? & ?). apply Hfirst; [done|]. by exists tm, n.
  - apply donorSearch_spec in H as [(-> & -> & d & Hel & Htake & Hfirst)
                                   |(-> & -> & -> & Hnone2)].
    + cbn. split; [done|]. exists d. split; [done|]. right. split_and!.
      * intros d' (tm & n & ? & ? & ? & ?). apply (Hnone1 d'). by exists tm, n.
      * destruct Hel as (tm & n & ? & ? & ? & ?). by exists tm, n.
      * intros d' Hlt (tm & n & ? & ? & ? & ?). apply Hfirst; [done|]. by exists tm, n.
    + cbn. by split_and!.
Qed.

Lemma fixMissingPosition_tiers_witness :
  let individual := [0; 1; 1] in
  let teams := decoded spareLeague individual in
  fixMissingPosition spareLeague individual teams 0 "SS" zeroTape 0
    = Some ((true, [0; 0; 1]), 1) /\
  fix_outcome spareLeague individual teams 0 "SS" true [0; 0; 1] 0 1.
Proof.
  cbv zeta. split; [reflexivity|].
  exact (fixMissingPosition_tiers spareLeague [0; 1; 1]
           (decoded spareLeague [0; 1; 1]) 0 "SS" zeroTape 0 true [0; 0; 1] 1
           eq_refl).
Defined.

(** C3, counterexample: team 1 holds two outfielders of no group, so it has
    at least one player of the needed role; yet the repair of team 0, which
    has no outfielder, takes nobody and reports failure, because the second
    tier asks an outfield donor for more than two outfielders. *)
Lemma fixMissingPosition_outfield_counterexample :
  let individual := [0; 1; 1] in
  let teams := decoded smallLeague individual in
  (exists tm, teams !! 1 = Some tm /\
     Team.getPositionCount (players smallLeague) tm "OF" = Some 2) /\
  hasFreeDonor smallLeague individual "OF" 1 /\
  forall t c,
    fixMissingPosition smallLeague individual teams 0 "OF" t c
      = Some ((false, individual), c).
Proof.
  cbv zeta. split; [|split].
  - eexists. split; reflexivity.
  - exists 1, (examplePlayer "OF" None). by vm_compute.
  - intros t c. reflexivity.
Qed.

(** * Invariants of the repair engine *)

Lemma returns_intro {A} (m : M A) (Q : A -> Prop) :
  (forall t c, is_Some (m t c)) ->
  (forall t c a c', m t c = Some (a, c') -> Q a) ->
  returns m Q.
Proof.
  intros Htotal Hpost t c. destruct (Htotal t c) as [[a c'] Ha]. eauto.
Qed.

Lemma insert_valid self individual i v :
  valid self individual -> v < numTeams self -> valid self (<[i:=v]> individual).
Proof.
  intros [Hlen Hall] Hv. split; [by rewrite length_insert|by apply Forall_insert].
Qed.

Lemma writeAll_valid self individual members v :
  valid self individual -> v < numTeams self ->
  valid self (writeAll v individual members).
Proof.
  intros [Hlen Hall] Hv. split; [by rewrite writeAll_length|by apply writeAll_Forall].
Qed.

Lemma insert_grouped self individual i v :
  grouped self individual -> isCoAssigned (coAssignGroups self) i = false ->
  grouped self (<[i:=v]> individual).
Proof.
  intros Hg Hfree g members a b Hin Ha Hb.
  pose proof (isCoAssigned_false _ _ _ _ Hfree Hin) as Hi.
  rewrite !list_lookup_insert_ne by (intros ->; done).
  by eapply Hg.
Qed.

Lemma writeAll_grouped self individual g members v :
  wf self -> length individual = numPlayers self ->
  grouped self individual -> (g, members) ∈ coAssignGroups self ->
  grouped self (writeAll v individual members).
Proof.
  intros Hwf Hlen Hg Hin g' members' a b Hin' Ha Hb.
  rewrite !writeAll_lookup.
  destruct (decide (a ∈ members)) as [Ham|Ham].
  - destruct (group_unique _ _ _ _ _ _ a (proj2 Hwf) Hin Hin' Ham Ha) as [-> ->].
    pose proof (group_member_lt _ _ _ _ Hwf Hin' Ha).
    pose proof (group_member_lt _ _ _ _ Hwf Hin' Hb).
    rewrite !bool_decide_eq_true_2 by (split; [done|lia]). done.
  - destruct (decide (b ∈ members)) as [Hbm|Hbm].
    + destruct (group_unique _ _ _ _ _ _ b (proj2 Hwf) Hin Hin' Hbm Hb) as [-> ->]. done.
    + rewrite !bool_decide_eq_false_2 by tauto. by eapply Hg.
Qed.

Lemma valid_numTeams_pos self individual :
  valid self individual -> 0 < numPlayers self -> 0 < numTeams self.
Proof.
  intros [Hlen Hall] Hn. destruct individual as [|cell rest]; [cbn in Hlen; lia|].
  apply Forall_cons in Hall as [? _]. lia.
Qed.

Lemma indexOf_lt {A} (same : A -> A -> bool) v (values : list A) i :
  indexOf same v values = Some i -> i < length values.
Proof.
  revert i. induction values as [|x rest IH]; intros i; cbn; [done|].
  destruct (same x v); [intros [= <-]; lia|].
  destruct (indexOf same v rest) as [j|]; [|done].
  intros [= <-]. specialize (IH j eq_refl). lia.
Qed.

Lemma moveWithGroup_cases groups playerIdx v individual :
  (exists g members, (g, members) ∈ groups /\ playerIdx ∈ members /\
     moveWithGroup groups playerIdx v individual = writeAll v individual members) \/
  (isCoAssigned groups playerIdx = false /\
   moveWithGroup groups playerIdx v individual = <[playerIdx:=v]> individual).
Proof.
  induction groups as [|[g members] rest IH]; cbn [moveWithGroup].
  - by right.
  - destruct (includes members playerIdx) eqn:Hinc.
    + left. exists g, members. split; [left|]. split; [by apply includes_spec|done].
    + destruct IH as [(g' & ms & Hin & Hp & Heq)|[Hfree Heq]].
      * left. exists g', ms. split; [by right|done].
      * right. split; [|done]. unfold isCoAssigned in *. cbn [existsb snd].
        by rewrite Hinc.
Qed.

Lemma getPositionCount_is_Some roster tm pos :
  is_Some (Team.deref roster tm) -> is_Some (Team.getPositionCount roster tm pos).
Proof. intros [ps Hps]. unfold Team.getPositionCount. by rewrite Hps. Qed.

Lemma rolesCovered_is_Some roster tm positions :
  is_Some (Team.deref roster tm) -> is_Some (rolesCovered roster tm positions).
Proof.
  intros Hd. induction positions as [|pos rest IH]; cbn [rolesCovered]; [done|].
  destruct (getPositionCount_is_Some roster tm pos Hd) as [n ->].
  cbn [mbind option_bind]. by destruct (n <? 1).
Qed.

Lemma checkPositionsCovered_is_Some roster teams :
  Forall (fun tm => is_Some (Team.deref roster tm)) teams ->
  is_Some (checkPositionsCovered roster teams).
Proof.
  induction 1 as [|tm teams Hd _ IH]; cbn [checkPositionsCovered]; [done|].
  destruct (rolesCovered_is_Some roster tm requiredPositions Hd) as [covered ->].
  cbn [mbind option_bind]. destruct covered; [|done].
  destruct (getPositionCount_is_Some roster tm "OF" Hd) as [n ->].
  cbn [mbind option_bind]. by destruct (n <? 3).
Qed.

Section Repair.
Context (self : TeamOptimizer) (Hwf : wf self).

(** An invariant of individuals that implies validity and is kept by the
    two writes of the repair engine: moving a player of no group, and
    moving a whole group. *)
Context (I : Individual -> Prop).
Hypothesis I_valid : forall ind, I ind -> valid self ind.
Hypothesis I_free : forall ind i v,
  I ind -> isCoAssigned (coAssignGroups self) i = false -> v < numTeams self ->
  I (<[i:=v]> ind).
Hypothesis I_group : forall ind g members v,
  I ind -> (g, members) ∈ coAssignGroups self -> v < numTeams self ->
  I (writeAll v ind members).

Lemma I_length ind : I ind -> length ind <= length (players self).
Proof. intros [Hlen _]%I_valid. destruct Hwf as [Hn _]. lia. Qed.

Lemma swapPositionPlayer_returns ind teams donor recipient pos :
  I ind -> recipient < numTeams self ->
  returns (swapPositionPlayer self ind teams donor recipient pos)
          (fun r => I r.2).
Proof.
  intros HI Hr. unfold swapPositionPlayer.
  destruct (donorPlayersFrom_is_Some self donor pos ind 0) as [ds Hds];
    [by apply I_length|].
  apply returns_bind with
    (P := fun ds => forall i, i ∈ ds -> isCoAssigned (coAssignGroups self) i = false).
  - eapply returns_lift; [exact Hds|]. intros i Hi.
    by apply (donorPlayersFrom_spec _ _ _ _ _ _ Hds) in Hi as (? & ? & ? & ? & ? & ? & ?).
  - intros ds' Hfree. destruct (0 <? length ds').
    + apply returns_bind with (P := fun _ => True); [apply returns_randomInt_any|].
      intros k _. apply returns_ret. cbn.
      destruct (ds' !! k) as [i|] eqn:Hk; [|done].
      apply I_free; [done| |done]. apply Hfree. by eapply list_elem_of_lookup_2.
    + by apply returns_ret.
Qed.

Lemma donorSearch_returns ofMin roleMin teams needy pos pending :
  Forall (fun tm => is_Some (Team.deref (players self) tm)) pending ->
  needy < numTeams self ->
  forall k ind, I ind ->
  returns (donorSearch self ofMin roleMin teams needy pos k pending ind)
          (fun r => I r.2).
Proof.
  intros Hall Hneedy. induction Hall as [|team rest Hd _ IH]; intros k ind HI.
  - by apply returns_ret.
  - cbn [donorSearch]. destruct (k =? needy); [by apply IH|].
    apply returns_bind with (P := fun _ => True).
    + destruct (getPositionCount_is_Some (players self) team
                  (if String.eqb pos "OF" then "OF"%string else pos) Hd) as [n Hn].
      by eapply returns_lift.
    + intros n _. destruct (_ <? n); [|by apply IH].
      eapply returns_bind; [by apply swapPositionPlayer_returns|].
      intros [moved ind'] HI'. cbn in HI'.
      destruct moved; [by apply returns_ret|by apply IH].
Qed.

Lemma fixMissingPosition_returns ind teams needy pos :
  Forall (fun tm => is_Some (Team.deref (players self) tm)) teams ->
  needy < numTeams self -> I ind ->
  returns (fixMissingPosition self ind teams needy pos) (fun r => I r.2).
Proof.
  intros Hall Hneedy HI. unfold fixMissingPosition.
  eapply returns_bind; [by apply donorSearch_returns|].
  intros [moved ind'] HI'. cbn in HI'.
  destruct moved; [by apply returns_ret|by apply donorSearch_returns].
Qed.

Lemma repairRoles_returns teams teamId team positions :
  Forall (fun tm => is_Some (Team.deref (players self) tm)) teams ->
  is_Some (Team.deref (players self) team) ->
  teamId < numTeams self ->
  forall ind, I ind ->
  returns (repairRoles self teams teamId team positions ind) (fun r => I r.2).
Proof.
  intros Hall Hd Hid. induction positions as [|pos rest IH]; intros ind HI.
  - by apply returns_ret.
  - cbn [repairRoles].
    apply returns_bind with (P := fun _ => True).
    + destruct (getPositionCount_is_Some (players self) team pos Hd) as [n Hn].
      by eapply returns_lift.
    + intros n _. destruct (n <? 1); [|by apply IH].
      eapply returns_bind; [by apply fixMissingPosition_returns|].
      intros [fixed ind'] HI'. cbn in HI'.
      destruct fixed; [by apply returns_ret|by apply IH].
Qed.

Lemma repairTeams_returns teams pending :
  Forall (fun tm => is_Some (Team.deref (players self) tm)) teams ->
  Forall (fun tm => is_Some (Team.deref (players self) tm)) pending ->
  forall teamId ind, teamId + length pending <= numTeams self -> I ind ->
  returns (repairTeams self teams teamId pending ind) (fun r => I r.2).
Proof.
  intros Hall Hpending.
  induction Hpending as [|team rest Hd _ IH]; intros teamId ind Hid HI.
  - by apply returns_ret.
  - cbn [repairTeams]. cbn [length] in Hid.
    eapply returns_bind; [apply repairRoles_returns; [done|done|lia|done]|].
    intros [fixed ind'] HI'. cbn in HI'.
    destruct fixed; [by apply returns_ret|].
    apply returns_bind with (P := fun _ => True).
    + destruct (getPositionCount_is_Some (players self) team "OF" Hd) as [n Hn].
      by eapply returns_lift.
    + intros n _. destruct (n <? 3); [|apply IH; [lia|done]].
      eapply returns_bind; [apply fixMissingPosition_returns; [done|lia|done]|].
      intros [fixed' ind''] HI''. cbn in HI''.
      destruct fixed'; [by apply returns_ret|apply IH; [lia|done]].
Qed.

Lemma repairPositions_returns ind teams :
  Forall (fun tm => is_Some (Team.deref (players self) tm)) teams ->
  length teams <= numTeams self -> I ind ->
  returns (repairPositions self ind teams) (fun r => I r.2).
Proof. intros Hall Hlen HI. by apply repairTeams_returns. Qed.

Lemma movePlayer_returns ind teams fromTeamId toTeamId :
  I ind -> toTeamId < numTeams self ->
  returns (movePlayer self ind teams fromTeamId toTeamId) I.
Proof.
  intros HI Hto. unfold movePlayer.
  destruct (0 <? length (List.filter _ (indicesOnTeam fromTeamId 0 ind))).
  - apply returns_bind with (P := fun _ => True); [apply returns_randomInt_any|].
    intros k _. apply returns_ret.
    destruct (List.filter _ _ !! k) as [i|] eqn:Hk; [|done].
    apply list_elem_of_lookup_2, filter_elem_of in Hk as [_ Hfree].
    apply I_free; [done| |done]. by apply negb_true_iff.
  - destruct (0 <? length (indicesOnTeam fromTeamId 0 ind)); [|by apply returns_ret].
    apply returns_bind with (P := fun _ => True); [apply returns_randomInt_any|].
    intros k _. apply returns_ret.
    destruct (indicesOnTeam fromTeamId 0 ind !! k) as [i|]; [|done].
    destruct (moveWithGroup_cases (coAssignGroups self) i toTeamId ind)
      as [(g & members & Hin & _ & ->)|[Hfree ->]].
    + by eapply I_group.
    + by apply I_free.
Qed.

Lemma balanceTeamSizes_returns ind teams teamSizes targetSize :
  I ind -> length teamSizes <= numTeams self ->
  returns (balanceTeamSizes self ind teams teamSizes targetSize) I.
Proof.
  intros HI Hlen. unfold balanceTeamSizes.
  destruct (1 <? sizeGap teamSizes); [|by apply returns_ret].
  destruct (maxOf teamSizes) as [maxSize|]; [|by apply returns_ret].
  destruct (minOf teamSizes) as [minSize|]; [|by apply returns_ret].
  destruct (indexOf Nat.eqb maxSize teamSizes) as [maxTeamId|]; [|by apply returns_ret].
  destruct (indexOf Nat.eqb minSize teamSizes) as [minTeamId|] eqn:Hmin;
    [|by apply returns_ret].
  apply movePlayer_returns; [done|]. apply indexOf_lt in Hmin. lia.
Qed.

Lemma repairPass_returns targetSize ind :
  I ind -> returns (repairPass self targetSize ind) (fun r => I r.2).
Proof.
  intros HI. unfold repairPass.
  pose proof (I_valid _ HI) as Hv.
  pose proof (decoded_deref _ _ Hwf Hv) as Hall.
  apply returns_bind with (P := fun teams => teams = decoded self ind).
  { eapply returns_lift; [by apply decodeIndividual_valid|done]. }
  intros teams ->.
  destruct (1 <? sizeGap _).
  - eapply returns_bind.
    + apply balanceTeamSizes_returns; [done|].
      by rewrite length_map, decoded_length.
    + intros ind' HI'. by apply returns_ret.
  - apply returns_bind with (P := fun _ => True).
    + destruct (checkPositionsCovered_is_Some _ _ Hall) as [covered Hc].
      by eapply returns_lift.
    + intros covered _. destruct covered; [by apply returns_ret|].
      eapply returns_bind.
      * apply repairPositions_returns; [done| |done]. by rewrite decoded_length.
      * intros [fixed ind'] HI'. by apply returns_ret.
Qed.

Lemma repairLoop_returns targetSize budget : forall ind,
  I ind ->
  returns (repairLoop self targetSize budget ind)
          (fun r => I r.1 /\ r.2 <= budget).
Proof.
  induction budget as [|budget IH]; intros ind HI; cbn [repairLoop].
  - apply returns_ret. by split.
  - eapply returns_bind; [by apply repairPass_returns|].
    intros [outcome ind'] HI'. cbn in HI'.
    destruct outcome.
    + eapply returns_bind; [by apply IH|].
      intros [repaired passes] [? ?]. apply returns_ret. cbn in *. split; [done|lia].
    + apply returns_ret. cbn. split; [done|lia].
    + eapply returns_bind; [by apply IH|].
      intros [repaired passes] [? ?]. apply returns_ret. cbn in *. split; [done|lia].
    + apply returns_ret. cbn. split; [done|lia].
Qed.

Lemma repairIndividual_returns ind :
  I ind -> returns (repairIndividual self ind) I.
Proof.
  intros HI. unfold repairIndividual.
  eapply returns_bind; [by apply repairLoop_returns|].
  intros [repaired passes] [? _]. by apply returns_ret.
Qed.

Lemma nonCoAssignIndices_free i :
  i ∈ nonCoAssignIndices self ->
  isCoAssigned (coAssignGroups self) i = false /\ i < numPlayers self.
Proof.
  unfold nonCoAssignIndices. intros [Hi Hfree%negb_true_iff]%filter_elem_of.
  split; [done|]. apply elem_of_seq in Hi. lia.
Qed.

Lemma mutatePlayers_returns nonCoAssign :
  (forall i, i ∈ nonCoAssign ->
     isCoAssigned (coAssignGroups self) i = false /\ i < numPlayers self) ->
  forall ind, I ind ->
  returns (mutatePlayers (numTeams self) nonCoAssign ind) I.
Proof.
  induction nonCoAssign as [|idx rest IH]; intros Hfree ind HI; cbn [mutatePlayers].
  - by apply returns_ret.
  - destruct (Hfree idx) as [Hidx Hlt]; [left|].
    assert (forall i, i ∈ rest ->
              isCoAssigned (coAssignGroups self) i = false /\ i < numPlayers self)
      as Hrest by (intros i Hi; apply Hfree; by right).
    apply returns_bind with (P := fun _ => True); [apply returns_randomBelow|].
    intros hit _. destruct hit; [|by apply IH].
    eapply returns_bind.
    + apply returns_randomInt. eapply valid_numTeams_pos; [by apply I_valid|lia].
    + intros team Hteam. apply IH; [done|]. by apply I_free.
Qed.

Lemma mutateGroup_returns ind : I ind -> returns (mutateGroup self ind) I.
Proof.
  intros HI. unfold mutateGroup.
  destruct (0 <? length (map fst (coAssignGroups self))) eqn:Hlen;
    [|by apply returns_ret].
  assert (0 < numTeams self) as Hpos.
  { apply Nat.ltb_lt in Hlen. rewrite length_map in Hlen.
    destruct (coAssignGroups self) as [|[g members] rest] eqn:Hgs; [cbn in Hlen; lia|].
    assert ((g, members) ∈ coAssignGroups self) as Hin by (rewrite Hgs; left).
    destruct members as [|i members].
    { destruct Hwf as [_ (_ & _ & Hne)]. by destruct (Hne _ _ Hin). }
    pose proof (group_member_lt self g (i :: members) i Hwf Hin) as Hi.
    eapply valid_numTeams_pos; [by apply I_valid|]. apply Nat.le_lt_trans with i; [lia|].
    apply Hi. left. }
  apply returns_bind with (P := fun _ => True); [apply returns_randomBelow|].
  intros hit _. destruct hit; [|by apply returns_ret].
  apply returns_bind with (P := fun _ => True); [apply returns_randomInt_any|].
  intros k _. eapply returns_bind; [by apply returns_randomInt|].
  intros newTeam Hnew. apply returns_ret.
  destruct (coAssignGroups self !! k) as [[g members]|] eqn:Hk; [|done].
  eapply I_group; [done| |done]. by eapply list_elem_of_lookup_2.
Qed.

Lemma mutate_returns ind : I ind -> returns (mutate self ind) I.
Proof.
  intros HI. unfold mutate.
  eapply returns_bind.
  { apply mutatePlayers_returns; [|done]. apply nonCoAssignIndices_free. }
  intros mutated HI'. eapply returns_bind; [by apply mutateGroup_returns|].
  intros mutated' HI''. by apply repairIndividual_returns.
Qed.

Lemma swapSegment_inv idxs : forall o,
  (forall i, i ∈ idxs -> isCoAssigned (coAssignGroups self) i = false) ->
  I o.1 -> I o.2 ->
  let o' := foldl (fun o idx =>
                     match o.1 !! idx, o.2 !! idx with
                     | Some a, Some b => (<[idx:=b]> o.1, <[idx:=a]> o.2)
                     | _, _ => o
                     end) o idxs in
  I o'.1 /\ I o'.2.
Proof.
  induction idxs as [|idx rest IH]; intros o Hfree H1 H2; cbn [foldl]; [done|].
  apply IH.
  - intros i Hi. apply Hfree. by right.
  - destruct (o.1 !! idx) as [a|] eqn:Ha; [|done].
    destruct (o.2 !! idx) as [b|] eqn:Hb; [|done]. cbn.
    apply I_free; [done|apply Hfree; left|].
    destruct (I_valid _ H2) as [_ Hall]. by eapply Forall_lookup_1 in Hall.
  - destruct (o.1 !! idx) as [a|] eqn:Ha; [|done].
    destruct (o.2 !! idx) as [b|] eqn:Hb; [|done]. cbn.
    apply I_free; [done|apply Hfree; left|].
    destruct (I_valid _ H1) as [_ Hall]. by eapply Forall_lookup_1 in Hall.
Qed.

Lemma crossover_returns ind1 ind2 :
  I ind1 -> I ind2 ->
  returns (crossover self ind1 ind2) (fun r => I r.1 /\ I r.2).
Proof.
  intros H1 H2. unfold crossover.
  apply returns_bind with (P := fun _ => True); [apply returns_randomBelow|].
  intros doSwap _.
  apply returns_bind with (P := fun r => I r.1 /\ I r.2).
  - destruct doSwap; [|by apply returns_ret].
    destruct (2 <? length (nonCoAssignIndices self)); [|by apply returns_ret].
    apply returns_bind with (P := fun _ => True); [apply returns_randomInt_any|].
    intros point1 _.
    apply returns_bind with (P := fun _ => True); [apply returns_randomInt_any|].
    intros k _. apply returns_ret. unfold swapSegment.
    apply swapSegment_inv; [|done|done].
    intros i Hi. apply nonCoAssignIndices_free.
    apply list_elem_of_lookup in Hi as [j Hj].
    apply lookup_take_Some in Hj as [Hj _]. rewrite lookup_drop in Hj.
    by eapply list_elem_of_lookup_2.
  - intros [o1 o2] [Ho1 Ho2]. cbn in Ho1, Ho2.
    eapply returns_bind; [by apply repairIndividual_returns|].
    intros o1' Ho1'. eapply returns_bind; [by apply repairIndividual_returns|].
    intros o2' Ho2'. by apply returns_ret.
Qed.
End Repair.

(** * Creation *)

Lemma insertAll_length {A} (v : A) idxs : forall l : list A,
  length (foldl (fun l idx => <[idx:=v]> l) l idxs) = length l.
Proof.
  induction idxs as [|i idxs IH]; intros l; [done|].
  cbn [foldl]. by rewrite IH, length_insert.
Qed.

Lemma insertAll_lookup {A} (v : A) idxs : forall (l : list A) j,
  foldl (fun l idx => <[idx:=v]> l) l idxs !! j =
  if bool_decide (j ∈ idxs /\ j < length l) then Some v else l !! j.
Proof.
  induction idxs as [|i idxs IH]; intros l j.
  - cbn. rewrite bool_decide_eq_false_2; [done|]. intros [H _]. by apply elem_of_nil in H.
  - cbn [foldl]. rewrite IH, length_insert.
    destruct (decide (j ∈ idxs /\ j < length l)) as [Hin|Hnin].
    + rewrite !bool_decide_eq_true_2; [done|split; [right|]; tauto|done].
    + rewrite (bool_decide_eq_false_2 _ Hnin).
      destruct (decide (i = j)) as [->|Hne].
      * destruct (decide (j < length l)) as [Hlt|Hge].
        -- rewrite list_lookup_insert_eq by done.
           rewrite bool_decide_eq_true_2; [done|split; [left|done]].
        -- rewrite list_insert_ge by lia.
           rewrite bool_decide_eq_false_2; [done|tauto].
      * rewrite list_lookup_insert_ne by done.
        rewrite bool_decide_eq_false_2; [done|].
        intros [Hj ?]. apply elem_of_cons in Hj as [->|Hj]; [done|tauto].
Qed.

Lemma assignGroup_spec team idxs : forall st,
  assignGroup team idxs st =
  (writeAll team st.1 idxs, foldl (fun l idx => <[idx:=true]> l) st.2 idxs).
Proof.
  unfold assignGroup, writeAll.
  induction idxs as [|i idxs IH]; intros [ind assigned]; [done|].
  cbn [foldl]. by rewrite IH.
Qed.

Lemma createGroups_spec ps groups n :
  groups_wf ps groups ->
  forall gs st t c st' c',
  (forall e, e ∈ gs -> e ∈ groups) -> NoDup (map fst gs) ->
  length st.2 = length st.1 ->
  createGroups n gs st t c = Some (st', c') ->
  length st'.1 = length st.1 /\ length st'.2 = length st.1 /\
  (forall i, (forall g ms, (g, ms) ∈ gs -> i ∉ ms) ->
     st'.1 !! i = st.1 !! i /\ st'.2 !! i = st.2 !! i) /\
  (forall g ms, (g, ms) ∈ gs ->
     exists v, forall i, i ∈ ms -> i < length st.1 ->
       st'.1 !! i = Some v /\ st'.2 !! i = Some true) /\
  (0 < n -> Forall (fun cell => cell < n) st.1 -> Forall (fun cell => cell < n) st'.1).
Proof.
  intros Hwf gs. induction gs as [|[g0 ms0] rest IH];
    intros st t c st' c' Hsub Hnd Hlen H.
  - cbn in H. inv_M H. simplify_eq. split_and!; try done.
    intros g ms Hin. by apply elem_of_nil in Hin.
  - cbn [createGroups] in H. inv_M H. subst a.
    rewrite assignGroup_spec in H.
    cbn [map] in Hnd. apply NoDup_cons in Hnd as [Hfresh Hnd].
    apply IH in H as (Hl1 & Hl2 & Hout & Hgrp & Hbound);
      [|intros e He; apply Hsub; by right|done
       |cbn; by rewrite insertAll_length, writeAll_length].
    cbn [fst snd] in *. rewrite writeAll_length in *.
    assert (forall i g ms, i ∈ ms0 -> (g, ms) ∈ rest -> i ∉ ms) as Hdisj.
    { intros i g ms Hi0 Hin Hi.
      destruct (group_unique ps groups g0 ms0 g ms i Hwf) as [-> _];
        [apply Hsub; left|apply Hsub; by right|done|done|].
      apply Hfresh. rewrite map_fmap. apply list_elem_of_fmap. by exists (g, ms). }
    split_and!; try done.
    + intros i Hi. destruct (Hout i) as [-> ->].
      { intros g ms Hin. apply (Hi g ms). by right. }
      assert (i ∉ ms0) as Hi0 by (apply (Hi g0); left).
      rewrite writeAll_lookup, insertAll_lookup.
      rewrite !bool_decide_eq_false_2 by tauto. done.
    + intros g ms Hin. apply elem_of_cons in Hin as [Heq|Hin].
      * simplify_eq. exists (floor_scaled (t c) n). intros i Hi Hlt.
        destruct (Hout i) as [-> ->]; [intros g ms Hin; by eapply Hdisj|].
        rewrite writeAll_lookup, insertAll_lookup.
        rewrite !bool_decide_eq_true_2 by (split; [done|lia]). done.
      * destruct (Hgrp g ms Hin) as [v Hv]. exists v. done.
    + intros Hn Hall. apply Hbound; [done|].
      apply writeAll_Forall; [by apply floor_scaled_lt|done].
Qed.

Lemma createRemaining_spec n pending assigned : forall ind t c ind' c',
  createRemaining n pending assigned ind t c = Some (ind', c') ->
  length ind' = length ind /\
  (forall i, assigned !! i = Some true -> ind' !! i = ind !! i) /\
  (0 < n -> Forall (fun cell => cell < n) ind -> Forall (fun cell => cell < n) ind').
Proof.
  induction pending as [|i rest IH]; intros ind t c ind' c' H.
  - cbn in H. inv_M H. by simplify_eq.
  - cbn [createRemaining] in H.
    destruct (assigned !! i) as [[|]|] eqn:Hi.
    + by apply IH in H.
    + inv_M H. subst a. apply IH in H as (Hl & Hkeep & Hbound).
      rewrite length_insert in Hl. split_and!; [done| |].
      * intros j Hj. rewrite Hkeep by done.
        apply list_lookup_insert_ne. congruence.
      * intros Hn Hall. apply Hbound; [done|].
        apply Forall_insert; [done|by apply floor_scaled_lt].
    + inv_M H. subst a. apply IH in H as (Hl & Hkeep & Hbound).
      rewrite length_insert in Hl. split_and!; [done| |].
      * intros j Hj. rewrite Hkeep by done.
        apply list_lookup_insert_ne. congruence.
      * intros Hn Hall. apply Hbound; [done|].
        apply Forall_insert; [done|by apply floor_scaled_lt].
Qed.

Lemma createGroups_total n gs : forall st,
  returns (createGroups n gs st) (fun _ => True).
Proof.
  induction gs as [|[g ms] rest IH]; intros st; cbn [createGroups].
  - by apply returns_ret.
  - apply returns_bind with (P := fun _ => True); [apply returns_randomInt_any|].
    intros team _. apply IH.
Qed.

Lemma createRemaining_total n pending assigned : forall ind,
  returns (createRemaining n pending assigned ind) (fun _ => True).
Proof.
  induction pending as [|i rest IH]; intros ind; cbn [createRemaining].
  - by apply returns_ret.
  - destruct (assigned !! i) as [[|]|]; [apply IH| |];
      (apply returns_bind with (P := fun _ => True); [apply returns_randomInt_any|]);
      intros team _; apply IH.
Qed.

Lemma createIndividual_spec self t c ind c' :
  wf self -> createIndividual self t c = Some (ind, c') ->
  length ind = numPlayers self /\ grouped self ind /\
  (0 < numTeams self -> valid self ind).
Proof.
  intros Hwf H. unfold createIndividual in H. inv_M H. destruct a as [ind1 assigned].
  cbn [fst snd] in H.
  eapply (createGroups_spec _ _ _ (proj2 Hwf)) in H0
    as (Hl1 & Hl2 & _ & Hgrp & Hb1);
    [|done|apply (proj2 Hwf)|cbn; by rewrite !length_replicate].
  cbn [fst snd] in *. rewrite length_replicate in *.
  apply createRemaining_spec in H as (Hl & Hkeep & Hb).
  split_and!.
  - lia.
  - intros g ms i j Hin Hi Hj. destruct (Hgrp g ms Hin) as [v Hv].
    pose proof (group_member_lt _ _ _ _ Hwf Hin Hi).
    pose proof (group_member_lt _ _ _ _ Hwf Hin Hj).
    destruct (Hv i Hi) as [Hi1 Hi2]; [done|].
    destruct (Hv j Hj) as [Hj1 Hj2]; [done|].
    rewrite (Hkeep i Hi2), (Hkeep j Hj2). congruence.
  - intros Hn. split; [lia|]. apply Hb; [done|]. apply Hb1; [done|].
    apply Forall_replicate. lia.
Qed.

Lemma createIndividual_total self :
  returns (createIndividual self) (fun _ => True).
Proof.
  unfold createIndividual.
  eapply returns_bind; [apply createGroups_total|].
  intros st _. apply createRemaining_total.
Qed.

Lemma createIndividual_returns self (Q : Individual -> Prop) :
  (forall t c ind c', createIndividual self t c = Some (ind, c') -> Q ind) ->
  returns (createIndividual self) Q.
Proof.
  intros HQ. apply returns_intro; [|exact HQ].
  intros t c. destruct (createIndividual_total self t c) as (a & c' & -> & _). done.
Qed.

(** * The operators keep individuals valid and groups together *)

Lemma keepsGroups_free self ind i v :
  keepsGroups self ind -> isCoAssigned (coAssignGroups self) i = false ->
  v < numTeams self -> keepsGroups self (<[i:=v]> ind).
Proof.
  intros [Hv Hg] Hfree Hlt. split; [by apply insert_valid|by apply insert_grouped].
Qed.

Lemma keepsGroups_group self ind g members v :
  wf self -> keepsGroups self ind -> (g, members) ∈ coAssignGroups self ->
  v < numTeams self -> keepsGroups self (writeAll v ind members).
Proof.
  intros Hwf [Hv Hg] Hin Hlt. split; [by apply writeAll_valid|].
  eapply writeAll_grouped; [done|apply Hv|done|done].
Qed.

(** ** Every operator, for a constructed optimizer *)

Lemma valid_free self ind i v :
  valid self ind -> isCoAssigned (coAssignGroups self) i = false ->
  v < numTeams self -> valid self (<[i:=v]> ind).
Proof. intros Hv _ Hlt. by apply insert_valid. Qed.

Lemma valid_group self ind (g : positive) members v :
  valid self ind -> (g, members) ∈ coAssignGroups self ->
  v < numTeams self -> valid self (writeAll v ind members).
Proof. intros Hv _ Hlt. by apply writeAll_valid. Qed.

(** C9. For an optimizer as its constructor builds it, with at least one
    team: [createIndividual] returns a valid individual, and [mutate],
    [crossover] (both offspring), [repairIndividual] and the repair helpers
    return valid individuals when they are given valid ones (and team
    indices below [numTeams]); none of them throws. *)
Theorem operators_valid ps teamCount options :
  operators_preserve_validity (newOptimizer ps teamCount options).
Proof.
  pose proof (newOptimizer_wf ps teamCount options) as Hwf.
  set (self := newOptimizer ps teamCount options) in *.
  pose proof (fun ind (H : valid self ind) => H) as Hid.
  pose proof (valid_free self) as Hfree.
  pose proof (valid_group self) as Hgroup.
  split_and!.
  - intros Hn. apply createIndividual_returns. intros t c ind c' H.
    by apply (createIndividual_spec _ _ _ _ _ Hwf H).
  - intros ind Hv. by apply (mutate_returns self Hwf (valid self)).
  - intros ind1 ind2 H1 H2. by apply (crossover_returns self Hwf (valid self)).
  - intros ind Hv. by apply (repairIndividual_returns self Hwf (valid self)).
  - intros ind teams teamSizes targetSize Hv Hlen.
    by apply (balanceTeamSizes_returns self (valid self)).
  - intros ind teams fromTeamId toTeamId Hv Hto.
    by apply (movePlayer_returns self (valid self)).
  - intros ind Hv.
    apply (repairPositions_returns self Hwf (valid self)); try done.
    + by apply decoded_deref.
    + by rewrite decoded_length.
  - intros ind needy pos Hv Hneedy.
    apply (fixMissingPosition_returns self Hwf (valid self)); try done.
    by apply decoded_deref.
  - intros ind teams donor recipient pos Hv Hr.
    by apply (swapPositionPlayer_returns self Hwf (valid self)).
Qed.

Lemma operators_valid_witness :
  0 < 2 /\
  returns (createIndividual smallLeague) (valid smallLeague) /\
  returns (mutate smallLeague [0; 1; 1]) (valid smallLeague).
Proof.
  assert (0 < 2) as Hpos by lia.
  pose proof (operators_valid
                [examplePlayer "P" None; examplePlayer "OF" None;
                 examplePlayer "OF" None]
                2 (mkOptions (Some 2) (Some 1) true)) as (Hc & Hm & _).
  split; [exact Hpos|]. split; [exact (Hc Hpos)|].
  apply Hm. split; [reflexivity|]. repeat constructor.
Defined.

(** C1. For an optimizer as its constructor builds it: every individual
    [createIndividual] returns maps the members of each co-assign group to
    one team, and so does the result of [mutate], each offspring of
    [crossover] and the result of [repairIndividual] (the repair step run
    inside them) when the individuals they are given are valid and satisfy
    the grouping invariant; none of them throws. *)
Theorem operators_grouped ps teamCount options :
  operators_keep_groups (newOptimizer ps teamCount options).
Proof.
  pose proof (newOptimizer_wf ps teamCount options) as Hwf.
  set (self := newOptimizer ps teamCount options) in *.
  assert (forall ind, keepsGroups self ind -> valid self ind) as Hv by (by intros ind []).
  pose proof (keepsGroups_free self) as Hfree.
  pose proof (fun ind g members v H => keepsGroups_group self ind g members v Hwf H)
    as Hgroup.
  split_and!.
  - apply createIndividual_returns. intros t c ind c' H.
    by apply (createIndividual_spec _ _ _ _ _ Hwf H).
  - intros ind Hval Hg.
    eapply returns_mono;
      [apply (mutate_returns self Hwf (keepsGroups self)); done|by intros ? []].
  - intros ind1 ind2 Hv1 Hv2 Hg1 Hg2.
    eapply returns_mono;
      [apply (crossover_returns self Hwf (keepsGroups self)); done|].
    by intros [o1 o2] [[] []].
  - intros ind Hval Hg.
    eapply returns_mono;
      [apply (repairIndividual_returns self Hwf (keepsGroups self)); done|by intros ? []].
Qed.

Lemma carpool_grouped : grouped carpoolLeague [0; 1; 1].
Proof.
  intros g members i j Hin Hi Hj.
  change (coAssignGroups carpoolLeague) with [(1%positive, [1; 2])] in Hin.
  apply list_elem_of_singleton in Hin. simplify_eq.
  apply elem_of_cons in Hi as [->|Hi]; apply elem_of_cons in Hj as [->|Hj];
    repeat match goal with
           | H : _ ∈ [_] |- _ => apply list_elem_of_singleton in H; subst
           end; reflexivity.
Qed.

Lemma operators_grouped_witness :
  valid carpoolLeague [0; 1; 1] /\ grouped carpoolLeague [0; 1; 1] /\
  returns (mutate carpoolLeague [0; 1; 1]) (grouped carpoolLeague) /\
  returns (crossover carpoolLeague [0; 1; 1] [0; 1; 1])
          (fun r => grouped carpoolLeague r.1 /\ grouped carpoolLeague r.2).
Proof.
  assert (valid carpoolLeague [0; 1; 1]) as Hv.
  { split; [reflexivity|]. repeat constructor. }
  pose proof carpool_grouped as Hg.
  pose proof (operators_grouped
                [examplePlayer "P" None; examplePlayer "SS" (Some 1%positive);
                 examplePlayer "C" (Some 1%positive)]
                2 (mkOptions (Some 2) (Some 1) true)) as (_ & Hm & Hx & _).
  split; [exact Hv|]. split; [exact Hg|]. split.
  - exact (Hm _ Hv Hg).
  - exact (Hx _ _ Hv Hv Hg Hg).
Defined.

(** * The repair loop *)

Lemma fixMissingPosition_false self individual teams needy pos t c individual' c' :
  fixMissingPosition self individual teams needy pos t c
    = Some ((false, individual'), c') ->
  individual' = individual /\ c' = c.
Proof.
  unfold fixMissingPosition. intros H. inv_M H. destruct a as [moved ind1].
  apply donorSearch_spec in H0 as [(-> & -> & _)|(-> & -> & -> & _)].
  - inv_M H. simplify_eq.
  - by apply donorSearch_spec in H as [(? & _)|(_ & -> & -> & _)].
Qed.

Lemma repairRoles_false self teams teamId team positions :
  forall ind t c ind' c',
  repairRoles self teams teamId team positions ind t c = Some ((false, ind'), c') ->
  ind' = ind /\ c' = c.
Proof.
  induction positions as [|pos rest IH]; intros ind t c ind' c' H.
  - cbn in H. inv_M H. by simplify_eq.
  - cbn [repairRoles] in H. inv_M H.
    destruct (_ <? 1); [|by apply IH in H].
    inv_M H.
    match goal with
    | Hfix : fixMissingPosition _ _ _ _ _ _ _ = Some (?r, _) |- _ =>
        destruct r as [fixed ind1];
        destruct fixed; [inv_M H; simplify_eq|];
        apply fixMissingPosition_false in Hfix as [-> ->]
    end.
    by apply IH in H.
Qed.

Lemma repairTeams_false self teams pending :
  forall teamId ind t c ind' c',
  repairTeams self teams teamId pending ind t c = Some ((false, ind'), c') ->
  ind' = ind /\ c' = c.
Proof.
  induction pending as [|team rest IH]; intros teamId ind t c ind' c' H.
  - cbn in H. inv_M H. by simplify_eq.
  - cbn [repairTeams] in H. inv_M H.
    match goal with
    | Hroles : repairRoles _ _ _ _ _ _ _ _ = Some (?r, _) |- _ =>
        destruct r as [fixed ind1]; destruct fixed; [inv_M H; simplify_eq|];
        apply repairRoles_false in Hroles as [-> ->]
    end.
    inv_M H. destruct (_ <? 3); [|by apply IH in H].
    inv_M H.
    match goal with
    | Hfix : fixMissingPosition _ _ _ _ _ _ _ = Some (?r, _) |- _ =>
        destruct r as [fixed ind2];
        destruct fixed; [inv_M H; simplify_eq|];
        apply fixMissingPosition_false in Hfix as [-> ->]
    end.
    by apply IH in H.
Qed.

Lemma repairPass_spec self targetSize ind t c outcome ind' c' :
  repairPass self targetSize ind t c = Some ((outcome, ind'), c') ->
  pass_outcome self targetSize ind t c outcome ind' c'.
Proof.
  unfold repairPass. intros H. inv_M H.
  match goal with
  | Hd : decodeIndividual _ _ = Some ?teams |- _ =>
      exists teams; split; [exact Hd|]; cbv zeta;
      destruct (Nat.ltb_spec 1 (sizeGap (map (fun tm => length (Team.players tm)) teams)))
        as [Hgap|Hgap]
  end.
  - inv_M H. simplify_eq. done.
  - inv_M H.
    match goal with
    | Hc : checkPositionsCovered _ _ = Some ?covered |- _ => destruct covered
    end.
    + inv_M H. simplify_eq. done.
    + inv_M H.
      match goal with
      | Hr : repairPositions _ _ _ _ _ = Some (?r, _) |- _ =>
          destruct r as [fixed ind1]; inv_M H; simplify_eq; destruct fixed; [done|];
          destruct (repairTeams_false _ _ _ _ _ _ _ _ _ Hr) as [-> ->]
      end.
      done.
Qed.

Lemma repairLoop_step self targetSize budget ind t c repaired passes c' :
  repairLoop self targetSize (S budget) ind t c = Some ((repaired, passes), c') ->
  exists outcome ind1 c1,
    repairPass self targetSize ind t c = Some ((outcome, ind1), c1) /\
    match outcome with
    | Rebalanced | RoleMoved =>
        exists passes',
          repairLoop self targetSize budget ind1 t c1 = Some ((repaired, passes'), c') /\
          passes = S passes'
    | AllCovered | Stuck => repaired = ind1 /\ passes = 1 /\ c' = c1
    end.
Proof.
  cbn [repairLoop]. intros H. inv_M H. destruct a as [outcome ind1].
  exists outcome, ind1, c0. split; [done|].
  destruct outcome.
  - inv_M H. destruct a as [r n]. inv_M H. simplify_eq. by exists n.
  - inv_M H. by simplify_eq.
  - inv_M H. destruct a as [r n]. inv_M H. simplify_eq. by exists n.
  - inv_M H. by simplify_eq.
Qed.




(** * The order of JavaScript numbers *)

Lemma SFcompare_rank x y :
  x <> S754_nan -> y <> S754_nan ->
  SFcompare x y = Some (lexCompare (rank x) (rank y)).
Proof.
  intros Hx Hy.
  destruct x as [sx|sx| |sx mx ex], y as [sy|sy| |sy my ey]; try done;
    try (destruct sx; destruct sy; reflexivity).
  destruct sx, sy; try reflexivity.
  unfold lexCompare, rank; cbn [fst snd SFcompare].
  rewrite Z.compare_opp, (Z.compare_antisym ex ey).
  change (-1 ?= -1)%Z with Eq. cbn match.
  destruct (ex ?= ey)%Z; reflexivity.
Qed.

Lemma lexCompare_le a b :
  (lexCompare a b = Lt \/ lexCompare a b = Eq) <-> lexle a b.
Proof.
  unfold lexCompare, lexle.
  destruct (Z.compare_spec a.1.1 b.1.1); destruct (Z.compare_spec a.1.2 b.1.2);
    destruct (Z.compare_spec a.2 b.2); split; intros; try lia;
    intuition discriminate.
Qed.

Lemma lexCompare_lt a b : lexCompare a b = Lt <-> lexlt a b.
Proof.
  unfold lexCompare, lexlt.
  destruct (Z.compare_spec a.1.1 b.1.1); destruct (Z.compare_spec a.1.2 b.1.2);
    destruct (Z.compare_spec a.2 b.2); split; intros; try lia;
    try discriminate; try done.
Qed.

Lemma lexCompare_eq a b : lexCompare a b = Eq <-> a = b.
Proof.
  destruct a as [[a1 a2] a3], b as [[b1 b2] b3]. unfold lexCompare. cbn [fst snd].
  destruct (Z.compare_spec a1 b1); destruct (Z.compare_spec a2 b2);
    destruct (Z.compare_spec a3 b3); split; intros; try discriminate;
    try (simplify_eq; lia); subst; done.
Qed.

Lemma SFeqb_refl x : x <> S754_nan -> SFeqb x x = true.
Proof.
  intros Hx. unfold SFeqb. rewrite SFcompare_rank by done.
  assert (lexCompare (rank x) (rank x) = Eq) as -> by (by apply lexCompare_eq).
  done.
Qed.

Lemma isNaN_spec a : isNaN a = false <-> Prim2SF a <> S754_nan.
Proof.
  unfold isNaN. rewrite FloatAxioms.eqb_spec.
  destruct (Prim2SF a) as [s|s| |s m e] eqn:Ha;
    try (rewrite SFeqb_refl by done; split; done).
  cbn. split; [done|]. intros H. by destruct H.
Qed.

Lemma fle_rank a b :
  isNaN a = false -> isNaN b = false -> fle a b <-> lexle (frank a) (frank b).
Proof.
  intros Ha%isNaN_spec Hb%isNaN_spec. unfold fle, frank.
  rewrite FloatAxioms.leb_spec. unfold SFleb. rewrite SFcompare_rank by done.
  rewrite <- lexCompare_le.
  destruct (lexCompare _ _); split; intros; try done; intuition discriminate.
Qed.

Lemma flt_rank a b :
  isNaN a = false -> isNaN b = false ->
  (a <? b)%float = true <-> lexlt (frank a) (frank b).
Proof.
  intros Ha%isNaN_spec Hb%isNaN_spec. unfold frank.
  rewrite FloatAxioms.ltb_spec. unfold SFltb. rewrite SFcompare_rank by done.
  rewrite <- lexCompare_lt.
  destruct (lexCompare _ _); split; intros; try done.
Qed.

Lemma feq_rank a b :
  isNaN a = false -> isNaN b = false ->
  (a =? b)%float = true <-> frank a = frank b.
Proof.
  intros Ha%isNaN_spec Hb%isNaN_spec. unfold frank.
  rewrite FloatAxioms.eqb_spec. unfold SFeqb. rewrite SFcompare_rank by done.
  rewrite <- lexCompare_eq.
  destruct (lexCompare _ _); split; intros; try done.
Qed.

Lemma flt_not_nan a b : (a <? b)%float = true -> isNaN a = false /\ isNaN b = false.
Proof.
  rewrite FloatAxioms.ltb_spec. unfold SFltb. intros H.
  split; apply isNaN_spec; intros Hn; rewrite Hn in H;
    [done|by destruct (Prim2SF a)].
Qed.

Lemma feq_not_nan a b : (a =? b)%float = true -> isNaN a = false /\ isNaN b = false.
Proof.
  rewrite FloatAxioms.eqb_spec. unfold SFeqb. intros H.
  split; apply isNaN_spec; intros Hn; rewrite Hn in H;
    [done|by destruct (Prim2SF a)].
Qed.

Lemma fle_refl a : isNaN a = false -> fle a a.
Proof. intros Ha. apply fle_rank; [done..|]. unfold lexle. lia. Qed.

Lemma fle_trans a b c :
  isNaN a = false -> isNaN b = false -> isNaN c = false ->
  fle a b -> fle b c -> fle a c.
Proof.
  intros Ha Hb Hc Hab%fle_rank Hbc%fle_rank; try done.
  apply fle_rank; [done..|]. unfold lexle in *. lia.
Qed.

Lemma flt_fle a b : (a <? b)%float = true -> fle a b.
Proof.
  intros H. destruct (flt_not_nan _ _ H) as [Ha Hb].
  apply flt_rank in H; [|done..]. apply fle_rank; [done..|].
  unfold lexle, lexlt in *. lia.
Qed.

Lemma not_flt_fle a b :
  isNaN a = false -> isNaN b = false -> (a <? b)%float = false -> fle b a.
Proof.
  intros Ha Hb H. apply fle_rank; [done..|].
  assert (~ lexlt (frank a) (frank b)) as Hn.
  { intros Hlt. apply flt_rank in Hlt; [|done..]. congruence. }
  unfold lexle, lexlt in *. lia.
Qed.

Lemma feq_fle a b : (a =? b)%float = true -> fle a b /\ fle b a.
Proof.
  intros H. destruct (feq_not_nan _ _ H) as [Ha Hb].
  apply feq_rank in H; [|done..].
  split; (apply fle_rank; [done..|]); rewrite H; unfold lexle; lia.
Qed.

Lemma min2_spec a b :
  isNaN a = false -> isNaN b = false ->
  (min2 a b = a \/ min2 a b = b) /\ fle (min2 a b) a /\ fle (min2 a b) b.
Proof.
  intros Ha Hb. unfold min2. rewrite Ha, Hb. cbn [orb].
  destruct (b <? a)%float eqn:Hba.
  - split; [by right|]. split; [by apply flt_fle|by apply fle_refl].
  - destruct (a <? b)%float eqn:Hab.
    + split; [by left|]. split; [by apply fle_refl|by apply flt_fle].
    + pose proof (not_flt_fle _ _ Hb Ha Hba) as Hle1.
      pose proof (not_flt_fle _ _ Ha Hb Hab) as Hle2.
      destruct (classify b); (split; [by (left + right)|]);
        (split; [by (apply fle_refl + done)|by (apply fle_refl + done)]).
Qed.

Lemma mathMin_from acc values :
  isNaN acc = false -> Forall (fun f => isNaN f = false) values ->
  let m := foldl min2 acc values in
  isNaN m = false /\ fle m acc /\ (forall f, f ∈ values -> fle m f) /\
  (m = acc \/ m ∈ values).
Proof.
  intros Hacc Hall. revert acc Hacc.
  induction Hall as [|f values Hf _ IH]; intros acc Hacc; cbn [foldl].
  - split_and!; [done|by apply fle_refl| |by left].
    intros f Hf. by apply elem_of_nil in Hf.
  - destruct (min2_spec acc f Hacc Hf) as (Hor & Hle1 & Hle2).
    assert (isNaN (min2 acc f) = false) as Hm by (by destruct Hor as [-> | ->]).
    destruct (IH _ Hm) as (Hnan & Hle & Hin & Hwhich).
    split_and!; [done| | |].
    + by apply (fle_trans _ (min2 acc f) _).
    + intros x Hx. apply elem_of_cons in Hx as [->|Hx]; [|by apply Hin].
      by apply (fle_trans _ (min2 acc f) _).
    + destruct Hwhich as [->|Hm']; [|right; by right].
      destruct Hor as [-> | ->]; [by left|right; left].
Qed.

Lemma isNaN_infinity : isNaN infinity = false.
Proof. reflexivity. Qed.

Lemma mathMin_spec values :
  Forall (fun f => isNaN f = false) values ->
  isNaN (mathMin values) = false /\
  (forall f, f ∈ values -> fle (mathMin values) f) /\
  (mathMin values = infinity \/ mathMin values ∈ values).
Proof.
  intros Hall. destruct (mathMin_from infinity values isNaN_infinity Hall)
    as (? & _ & ? & ?). done.
Qed.

Lemma indexOf_Some {A} (same : A -> A -> bool) v (values : list A) i :
  indexOf same v values = Some i ->
  exists x, values !! i = Some x /\ same x v = true.
Proof.
  revert i. induction values as [|y rest IH]; intros i; cbn; [done|].
  destruct (same y v) eqn:Hy.
  - intros [= <-]. by exists y.
  - destruct (indexOf same v rest) as [j|]; [|done].
    intros [= <-]. destruct (IH j eq_refl) as (x & ? & ?). by exists x.
Qed.

Lemma indexOf_first {A} (same : A -> A -> bool) v (values : list A) i :
  indexOf same v values = Some i ->
  forall j x, j < i -> values !! j = Some x -> same x v = false.
Proof.
  revert i. induction values as [|y rest IH]; intros i; cbn; [done|].
  destruct (same y v) eqn:Hy.
  - intros [= <-] j x Hj. lia.
  - destruct (indexOf same v rest) as [i'|]; [|done].
    intros [= <-] j x Hj Hx. destruct j as [|j]; cbn in Hx.
    + by simplify_eq.
    + apply (IH i' eq_refl j); [lia|done].
Qed.

Lemma flt_fle_trans a b c :
  isNaN c = false -> (a <? b)%float = true -> fle b c -> (a <? c)%float = true.
Proof.
  intros Hc Hab Hbc. destruct (flt_not_nan _ _ Hab) as [Ha Hb].
  apply flt_rank in Hab; [|done..]. apply fle_rank in Hbc; [|done..].
  apply flt_rank; [done..|]. unfold lexle, lexlt in *. lia.
Qed.

Lemma fle_neq_flt a b :
  isNaN a = false -> isNaN b = false ->
  fle a b -> (b =? a)%float = false -> (a <? b)%float = true.
Proof.
  intros Ha Hb Hab Hne. apply fle_rank in Hab; [|done..].
  apply flt_rank; [done..|].
  assert (frank b <> frank a) as Hr.
  { intros Heq. apply feq_rank in Heq; [|done..]. congruence. }
  destruct (frank a) as [[a1 a2] a3], (frank b) as [[b1 b2] b3].
  unfold lexle, lexlt in *. cbn [fst snd] in *.
  destruct (decide (a1 = b1)) as [->|]; [|lia].
  destruct (decide (a2 = b2)) as [->|]; [|lia].
  destruct (decide (a3 = b3)) as [->|]; [done|lia].
Qed.

(** [Math.min] returns [NaN] as soon as one argument is [NaN]. *)
Lemma foldl_min2_nan acc values :
  isNaN acc = true -> isNaN (foldl min2 acc values) = true.
Proof.
  revert acc. induction values as [|f values IH]; intros acc Hacc; cbn [foldl]; [done|].
  apply IH. unfold min2. rewrite Hacc. reflexivity.
Qed.

Lemma mathMin_numbers values :
  isNaN (mathMin values) = false -> numbers values.
Proof.
  unfold mathMin, numbers. generalize infinity as acc.
  induction values as [|f values IH]; intros acc Hm; [constructor|].
  cbn [foldl] in Hm. constructor.
  - destruct (isNaN f) eqn:Hf; [|done].
    rewrite foldl_min2_nan in Hm; [done|].
    unfold min2. rewrite Hf, orb_true_r. reflexivity.
  - by apply (IH (min2 acc f)).
Qed.

(** * The generation loop *)

Lemma generationsFrom_S self k : forall g st t c s' c'',
  generationsFrom self g (S k) st t c = Some (s', c'') <->
  exists s c', generationsFrom self g k st t c = Some (s, c') /\
               generationStep self (g + k) s t c' = Some (s', c'').
Proof.
  induction k as [|k IH]; intros g st t c s' c''.
  - cbn [generationsFrom]. rewrite Nat.add_0_r. split.
    + intros H. inv_M H. simplify_eq. exists st, c. split; [reflexivity|done].
    + intros (s & c' & Hs & Hstep). inv_M Hs. simplify_eq.
      apply bindM_Some. exists s', c''. split; [done|reflexivity].
  - change (generationsFrom self g (S (S k)) st t c)
      with (bind (generationStep self g st)
                 (fun st1 => generationsFrom self (S g) (S k) st1) t c).
    rewrite bindM_Some. split.
    + intros (st1 & c1 & Hstep & Hrest). apply IH in Hrest as (s & c' & Hs & Hlast).
      exists s, c'. split; [|by rewrite Nat.add_succ_r].
      cbn [generationsFrom]. apply bindM_Some. eauto.
    + intros (s & c' & Hs & Hlast). cbn [generationsFrom] in Hs.
      apply bindM_Some in Hs as (st1 & c1 & Hstep & Hrest).
      exists st1, c1. split; [done|]. apply IH. exists s, c'.
      split; [done|by rewrite Nat.add_succ_r in Hlast].
Qed.

Lemma stateAfter_S self k t c s' c'' :
  stateAfter self (S k) t c = Some (s', c'') <->
  exists s c', stateAfter self k t c = Some (s, c') /\
               generationStep self k s t c' = Some (s', c'').
Proof.
  unfold stateAfter. rewrite bindM_Some. split.
  - intros (pop & c0 & Hpop & Hgen). apply generationsFrom_S in Hgen as (s & c' & ? & ?).
    exists s, c'. split; [|done]. apply bindM_Some. eauto.
  - intros (s & c' & Hs & Hstep). apply bindM_Some in Hs as (pop & c0 & Hpop & Hgen).
    exists pop, c0. split; [done|]. apply generationsFrom_S. eauto.
Qed.

Lemma stateAfter_earlier self k j t c s c' :
  stateAfter self k t c = Some (s, c') -> j <= k ->
  exists sj cj, stateAfter self j t c = Some (sj, cj).
Proof.
  revert s c'. induction k as [|k IH]; intros s c' Hs Hj.
  - assert (j = 0) as -> by lia. eauto.
  - destruct (decide (j = S k)) as [->|Hne]; [eauto|].
    apply stateAfter_S in Hs as (s0 & c0 & Hs0 & _).
    eapply IH; [done|lia].
Qed.

Lemma stateAfter_0 self t c s c' :
  stateAfter self 0 t c = Some (s, c') ->
  bestIndividual s = None /\ bestFitness s = infinity.
Proof.
  unfold stateAfter. intros H. inv_M H. cbn [generationsFrom] in H. inv_M H.
  by simplify_eq.
Qed.

Lemma generationStep_spec self gen st t c st' c' :
  generationStep self gen st t c = Some (st', c') ->
  exists fitnesses,
    mapM (evaluate self) (population st) = Some fitnesses /\
    (if (mathMin fitnesses <? bestFitness st)%float
     then bestFitness st' = mathMin fitnesses /\
          exists i ind,
            indexOf PrimFloat.eqb (mathMin fitnesses) fitnesses = Some i /\
            population st !! i = Some ind /\ bestIndividual st' = Some ind
     else bestFitness st' = bestFitness st /\
          bestIndividual st' = bestIndividual st) /\
    (exists elite offspring,
       bestIndividual st' = Some elite /\ population st' = elite :: offspring) /\
    events st' =
      (if onProgress self && (gen mod 10 =? 0)
       then events st ++ [mkEvent gen (bestFitness st')
                            (fsum fitnesses / ofNat (length fitnesses))%float false]
       else events st).
Proof.
  unfold generationStep. intros H.
  apply bindM_Some in H as (fs & c1 & Hfs & H). apply liftM_Some in Hfs as [Hfs ->].
  apply bindM_Some in H as ([best bestFit] & c2 & Hupd & H).
  apply bindM_Some in H as (elite & c3 & Helite & H).
  apply liftM_Some in Helite as [Helite ->].
  apply bindM_Some in H as (offspring & c4 & Hfill & H).
  apply retM_Some in H as [-> ->].
  exists fs. split; [done|]. cbn [bestFitness bestIndividual population events].
  split; [|split; [eauto|done]].
  destruct (mathMin fs <? bestFitness st)%float.
  - apply bindM_Some in Hupd as (ind & c5 & Hind & Hupd).
    apply liftM_Some in Hind as [Hind ->].
    apply retM_Some in Hupd as [Heq ->]. simplify_eq. split; [done|].
    destruct (indexOf PrimFloat.eqb (mathMin fs) fs) as [i|] eqn:Hidx; [|done].
    cbn in Hind. eauto.
  - apply retM_Some in Hupd as [Heq ->]. by simplify_eq.
Qed.

Lemma evaluate_decode self ind f :
  evaluate self ind = Some f -> is_Some (decodeIndividual self ind).
Proof. unfold evaluate. by destruct (decodeIndividual self ind). Qed.

Lemma evaluated_fun self t c k pop fitnesses pop' fitnesses' :
  evaluated self t c k pop fitnesses -> evaluated self t c k pop' fitnesses' ->
  pop' = pop /\ fitnesses' = fitnesses.
Proof.
  intros (_ & (s & ck & Hs & Hpop) & Hfs) (_ & (s' & ck' & Hs' & Hpop') & Hfs').
  assert (pop' = pop) as -> by congruence. split; [done|congruence].
Qed.

Lemma firstBest_later self t c bound bound' best bestFit :
  firstBest self t c bound best bestFit -> bound <= bound' ->
  firstBest self t c bound' best bestFit.
Proof.
  intros (k & pop & fs & i & fbest & Hk & H) Hle.
  exists k, pop, fs, i, fbest. split; [lia|done].
Qed.

(** The invariant of the generation loop.  The best fitness is never [NaN]:
    it starts at [Infinity] and is replaced only by a minimum that compares
    below it.  A generation with a [NaN] fitness has the minimum [NaN],
    which compares below nothing: it leaves the best as it was. *)
Lemma elitism_upto self t c k : forall s ck,
  k <= generations self -> stateAfter self k t c = Some (s, ck) ->
  isNaN (bestFitness s) = false /\
  (forall j pop fitnesses f,
     j < k -> evaluated self t c j pop fitnesses -> numbers fitnesses ->
     f ∈ fitnesses -> fle (bestFitness s) f) /\
  (forall j sj cj sj' cj',
     j < k -> stateAfter self j t c = Some (sj, cj) ->
     stateAfter self (S j) t c = Some (sj', cj') ->
     fle (bestFitness sj') (bestFitness sj)) /\
  (0 < k ->
   exists best, bestIndividual s = Some best /\
                firstBest self t c k best (bestFitness s)).
Proof.
  induction k as [|k IH]; intros s ck Hk Hs.
  - apply stateAfter_0 in Hs as [Hb Hf]. split_and!; try (intros; lia).
    by rewrite Hf.
  - pose proof Hs as Hs'.
    apply stateAfter_S in Hs' as (s0 & c0 & Hs0 & Hstep).
    destruct (IH s0 c0) as (Hnan0 & Hlow0 & Hmono0 & Hbest0); [lia|done|].
    apply generationStep_spec in Hstep
      as (fs & Hfs & Hupd & (elite & off & Helite & _) & _).
    assert (evaluated self t c k (population s0) fs) as Hev.
    { split; [lia|]. split; [|done]. by exists s0, c0. }
    destruct (mathMin fs <? bestFitness s0)%float eqn:Hlt.
    + destruct Hupd as (Hbf & i & ind & Hidx & Hind & Hbi).
      destruct (flt_not_nan _ _ Hlt) as [Hmnan _].
      pose proof (mathMin_numbers fs Hmnan) as Hall.
      destruct (mathMin_spec fs Hall) as (_ & Hmle & _).
      assert (forall j pop fitnesses f,
                j < k -> evaluated self t c j pop fitnesses -> numbers fitnesses ->
                f ∈ fitnesses -> (mathMin fs <? f)%float = true) as Hearlier.
      { intros j pop fitnesses f Hj Hevj Hnum Hf.
        apply (flt_fle_trans _ (bestFitness s0)); [|done|by eapply (Hlow0 j)].
        unfold numbers in Hnum. rewrite Forall_forall in Hnum. by apply Hnum. }
      rewrite Hbf. split_and!.
      * done.
      * intros j pop fitnesses f Hj Hevj Hnum Hf.
        destruct (decide (j = k)) as [->|Hne].
        -- destruct (evaluated_fun _ _ _ _ _ _ _ _ Hev Hevj) as [-> ->]. by apply Hmle.
        -- apply flt_fle. apply (Hearlier j pop fitnesses); [lia|done..].
      * intros j sj cj sj' cj' Hj Hsj Hsj'.
        destruct (decide (j = k)) as [->|Hne].
        -- assert (sj = s0) as -> by congruence.
           assert (sj' = s) as -> by congruence. rewrite Hbf. by apply flt_fle.
        -- eapply (Hmono0 j); [lia|done..].
      * intros _. exists ind. split; [done|].
        pose proof (indexOf_first _ _ _ _ Hidx) as Hfirst.
        apply indexOf_Some in Hidx as (x & Hx & Heq).
        pose proof Hfs as Hall2. apply mapM_Some in Hall2.
        destruct (Forall2_lookup_r _ _ _ _ _ Hall2 Hx) as (ind' & Hind' & Hevx).
        assert (ind' = ind) as -> by congruence.
        exists k, (population s0), fs, i, x.
        split_and!; [lia|done..| |done].
        intros j f Hj Hf.
        assert (f ∈ fs) as Hin by (by eapply list_elem_of_lookup_2).
        apply fle_neq_flt; [done| |by apply Hmle|by eapply Hfirst].
        unfold numbers in Hall. rewrite Forall_forall in Hall. by apply Hall.
    + destruct Hupd as (Hbf & Hbi). rewrite Hbf. split_and!.
      * done.
      * intros j pop fitnesses f Hj Hevj Hnum Hf.
        destruct (decide (j = k)) as [->|Hne]; [|apply (Hlow0 j pop fitnesses); [lia|done..]].
        destruct (evaluated_fun _ _ _ _ _ _ _ _ Hev Hevj) as [-> ->].
        destruct (mathMin_spec fs Hnum) as (Hmnan & Hmle & _).
        apply (fle_trans _ (mathMin fs)); [done..| | |by apply Hmle].
        -- unfold numbers in Hnum. rewrite Forall_forall in Hnum. by apply Hnum.
        -- by apply not_flt_fle.
      * intros j sj cj sj' cj' Hj Hsj Hsj'.
        destruct (decide (j = k)) as [->|Hne].
        -- assert (sj = s0) as -> by congruence.
           assert (sj' = s) as -> by congruence. rewrite Hbf. by apply fle_refl.
        -- eapply (Hmono0 j); [lia|done..].
      * intros _. destruct k as [|k'].
        { apply stateAfter_0 in Hs0 as [Hnone _]. congruence. }
        destruct Hbest0 as (best & Hb & Hfb); [lia|].
        exists best. split; [congruence|].
        apply (firstBest_later _ _ _ (S k')); [done|lia].
Qed.

Lemma orDefault_pos x d : 0 < d -> 0 < orDefault x d.
Proof. intros Hd. unfold orDefault. destruct x as [[|n]|]; lia. Qed.

(** C2, as the code has it.  The populations the run evaluates are those
    of generations 0 to generations - 1; the offspring of the last
    generation are never evaluated.  For a run that returns: the best
    fitness at the end is at most the fitness of every member of every
    evaluated generation in which no fitness is [NaN]; the best fitness never
    increases from one generation to the next; and [optimize] returns the
    teams decoded from the recorded best individual, which is the earliest
    evaluated individual whose fitness equals the best fitness: a member of
    a generation without [NaN], before which, in that population and in the
    earlier generations without [NaN], every fitness is strictly larger. *)
Theorem optimize_elitism ps teams options t c st c' :
  let self := newOptimizer ps teams options in
  evolve self t c = Some (st, c') ->
  elitism_holds self t c st c'.
Proof.
  intros self Hrun.
  assert (0 < generations self) as Hgen by (apply orDefault_pos; lia).
  destruct (elitism_upto self t c (generations self) st c' (le_n _) Hrun)
    as (Hnan & Hlow & Hmono & Hbest).
  destruct (Hbest Hgen) as (best & Hb & Hfirst).
  assert (exists fbest, evaluate self best = Some fbest) as (fbest & Hevb).
  { destruct Hfirst as (k & pop & fs & i & fbest & _ & _ & _ & _ & _ & Hevb & _).
    by exists fbest. }
  destruct (evaluate_decode _ _ _ Hevb) as [decodedTeams Hdec].
  split_and!.
  - intros k pop fitnesses i ind Hev Hnum Hind.
    pose proof Hev as (Hk & _ & Hfs). apply mapM_Some in Hfs.
    destruct (Forall2_lookup_l _ _ _ _ _ Hfs Hind) as (f & Hf & Hevf).
    exists f. split_and!; [done..|].
    apply (Hlow k pop fitnesses); [done..|]. by eapply list_elem_of_lookup_2.
  - intros k s ck s' ck' Hk Hs Hs'. by eapply Hmono.
  - eexists best, decodedTeams, _. split_and!; try done.
    unfold optimize, bind. rewrite Hrun. unfold lift. rewrite Hb, Hdec. reflexivity.
Qed.

(** The run of [sixLeague] on the tape of draws 0, 3, 6, 9, 2, ... tenths:
    generation 0 evaluates three different individuals and records the first;
    generation 1 finds a better one, its third member, which the run returns. *)
Lemma sixLeague_generations :
  exists s0 c0 s1 c1 s2 c2,
    stateAfter sixLeague 0 (stepTape 3 0) 0 = Some (s0, c0) /\
    stateAfter sixLeague 1 (stepTape 3 0) 0 = Some (s1, c1) /\
    stateAfter sixLeague 2 (stepTape 3 0) 0 = Some (s2, c2) /\
    population s0 = [[0; 0; 1; 1; 0; 1]; [1; 0; 0; 1; 0; 0]; [1; 1; 0; 1; 1; 0]] /\
    population s1 = [[0; 0; 1; 1; 0; 1]; [1; 1; 0; 0; 0; 1]; [0; 1; 0; 1; 0; 1]] /\
    bestIndividual s1 = Some [0; 0; 1; 1; 0; 1] /\
    bestIndividual s2 = Some [0; 1; 0; 1; 0; 1] /\
    (bestFitness s2 <? bestFitness s1)%float = true.
Proof.
  eexists _, _, _, _, _, _.
  split; [vm_compute; reflexivity|].
  split; [vm_compute; reflexivity|].
  split; [vm_compute; reflexivity|].
  split; [reflexivity|]. split; [reflexivity|].
  split; [reflexivity|]. split; [reflexivity|].
  vm_compute. reflexivity.
Qed.

Lemma optimize_elitism_witness :
  exists st c',
    evolve sixLeague (stepTape 3 0) 0 = Some (st, c') /\
    bestIndividual st = Some [0; 1; 0; 1; 0; 1] /\
    elitism_holds sixLeague (stepTape 3 0) 0 st c'.
Proof.
  assert (exists st c', evolve sixLeague (stepTape 3 0) 0 = Some (st, c') /\
                        bestIndividual st = Some [0; 1; 0; 1; 0; 1])
    as (st & c' & Hrun & Hbest).
  { eexists _, _. split; [vm_compute; reflexivity|reflexivity]. }
  exists st, c'. split; [exact Hrun|]. split; [exact Hbest|].
  exact (optimize_elitism
           [mkPlayer "player" "P" 1 1 false None; mkPlayer "player" "OF" 2 1 false None;
            mkPlayer "player" "OF" 3 1 false None; mkPlayer "player" "SS" 4 1 false None;
            mkPlayer "player" "C" 5 1 false None; mkPlayer "player" "P" 6 1 false None]
           2 (mkOptions (Some 3) (Some 3) true) (stepTape 3 0) 0 st c' Hrun).
Defined.

(** C2, counterexample: in the run of [pairLeague] on the all-zero tape,
    [optimize] returns the teams of the individual [0, 0], of fitness
    195002.5, while the last population, generated during the run and never
    evaluated, holds the individual [1, 0], of fitness 192000. *)
Lemma optimize_elitism_counterexample :
  exists st c' teams log fbest f,
    evolve pairLeague zeroTape 0 = Some (st, c') /\
    optimize pairLeague zeroTape 0 = Some ((teams, log), c') /\
    bestIndividual st = Some [0; 0] /\
    decodeIndividual pairLeague [0; 0] = Some teams /\
    evaluate pairLeague [0; 0] = Some fbest /\
    [1; 0] ∈ population st /\
    evaluate pairLeague [1; 0] = Some f /\
    (f <? fbest)%float = true.
Proof.
  eexists _, _, _, _, _, _.
  split; [vm_compute; reflexivity|].
  split; [vm_compute; reflexivity|].
  split; [reflexivity|].
  split; [vm_compute; reflexivity|].
  split; [vm_compute; reflexivity|].
  split; [right; left|].
  split; [vm_compute; reflexivity|].
  vm_compute. reflexivity.
Qed.

(** The generations with a [NaN] fitness cannot be brought under the bound.
    In the run of [heavyLeague] on the tape of draws 7, 3, 9, 5, 1, ... tenths,
    generation 1 evaluates [0, 1, 0, 1] at 173000, [1, 1, 0, 0] at [NaN]
    and [0, 1, 1, 0] at 163000: [Math.min] returns [NaN], the best is left
    as it was, and [optimize] returns the teams of [0, 1, 0, 1]. *)
Lemma optimize_nan_generation :
  exists s1 c1 st c' fitnesses fbest f,
    stateAfter heavyLeague 1 (stepTape 6 7) 0 = Some (s1, c1) /\
    population s1 = [[0; 1; 0; 1]; [1; 1; 0; 0]; [0; 1; 1; 0]] /\
    mapM (evaluate heavyLeague) (population s1) = Some fitnesses /\
    isNaN (mathMin fitnesses) = true /\
    evolve heavyLeague (stepTape 6 7) 0 = Some (st, c') /\
    bestIndividual st = Some [0; 1; 0; 1] /\
    evaluate heavyLeague [0; 1; 0; 1] = Some fbest /\
    evaluate heavyLeague [0; 1; 1; 0] = Some f /\
    (f <? fbest)%float = true.
Proof.
  eexists _, _, _, _, _, _, _.
  split; [vm_compute; reflexivity|].
  split; [reflexivity|].
  split; [vm_compute; reflexivity|].
  split; [vm_compute; reflexivity|].
  split; [vm_compute; reflexivity|].
  split; [reflexivity|].
  split; [vm_compute; reflexivity|].
  split; [vm_compute; reflexivity|].
  vm_compute. reflexivity.
Qed.

(** * Progress events *)

Lemma events_upto self t c :
  onProgress self = true ->
  forall k s ck, stateAfter self k t c = Some (s, ck) ->
    map ev_generation (events s)
      = List.filter (fun gen => gen mod 10 =? 0) (seq 0 k) /\
    Forall (fun e => ev_completed e = false) (events s).
Proof.
  intros Hcb. induction k as [|k IH]; intros s ck Hs.
  - unfold stateAfter in Hs. apply bindM_Some in Hs as (pop & c0 & _ & Hs).
    cbn [generationsFrom] in Hs. apply retM_Some in Hs as [Hs _]. subst s.
    by split.
  - apply stateAfter_S in Hs as (s0 & c0 & Hs0 & Hstep).
    destruct (IH _ _ Hs0) as [Hgens Hopen].
    apply generationStep_spec in Hstep as (fs & _ & _ & _ & Hev).
    rewrite Hcb in Hev. cbn [andb] in Hev.
    rewrite seq_S, List.filter_app. cbn [List.filter Nat.add].
    destruct (k mod 10 =? 0); rewrite Hev.
    + rewrite map_app, Hgens. split; [reflexivity|].
      apply Forall_app. split; [done|]. by apply Forall_singleton.
    + rewrite app_nil_r. by split.
Qed.

(** C7, what the code does: with a progress callback, every tenth
    generation reports its index, the best fitness so far and the mean
    fitness of the population it evaluated, and one more event is reported at
    completion, whose mean-fitness field holds the best fitness. *)
Theorem optimize_progress_events self t c teams log c' :
  onProgress self = true ->
  optimize self t c = Some ((teams, log), c') ->
  progress_events self t c log c'.
Proof.
  intros Hcb H. unfold optimize in H.
  apply bindM_Some in H as (st & c1 & Hrun & H).
  apply bindM_Some in H as (best & c2 & Hbest & H).
  apply liftM_Some in Hbest as [Hbest ->].
  apply bindM_Some in H as (decodedTeams & c3 & Hdec & H).
  apply liftM_Some in Hdec as [Hdec ->].
  apply retM_Some in H as [Heq ->]. rewrite Hcb in Heq.
  exists st. split; [done|]. split; [congruence|].
  destruct (events_upto self t c Hcb (generations self) st c1 Hrun) as [Hgens Hopen].
  split; [done|]. split; [done|].
  intros k s ck s' ck' Hs Hs'.
  apply stateAfter_S in Hs' as (s0 & c0 & Hs0 & Hstep).
  assert (s0 = s) as -> by congruence.
  apply generationStep_spec in Hstep as (fs & Hfs & _ & _ & Hev).
  exists fs. split; [done|]. by rewrite Hcb in Hev.
Qed.

Lemma optimize_progress_events_witness :
  exists teams log c' st final fitnesses,
    onProgress smallLeague = true /\
    optimize smallLeague mixedTape 0 = Some ((teams, log), c') /\
    progress_events smallLeague mixedTape 0 log c' /\
    evolve smallLeague mixedTape 0 = Some (st, c') /\
    last log = Some final /\ ev_completed final = true /\
    mapM (evaluate smallLeague) (population st) = Some fitnesses /\
    (ev_avgFitness final =? fsum fitnesses / ofNat (length fitnesses))%float = false.
Proof.
  assert (exists teams log c',
            optimize smallLeague mixedTape 0 = Some ((teams, log), c') /\
            exists st final fitnesses,
              evolve smallLeague mixedTape 0 = Some (st, c') /\
              last log = Some final /\ ev_completed final = true /\
              mapM (evaluate smallLeague) (population st) = Some fitnesses /\
              (ev_avgFitness final =? fsum fitnesses / ofNat (length fitnesses))%float
                = false)
    as (teams & log & c' & Hrun & st & final & fs & Hst & Hlast & Hdone & Hfs & Hne).
  { eexists _, _, _. split; [vm_compute; reflexivity|].
    eexists _, _, _. split; [vm_compute; reflexivity|].
    split; [reflexivity|]. split; [reflexivity|].
    split; [vm_compute; reflexivity|]. vm_compute. reflexivity. }
  exists teams, log, c', st, final, fs.
  split; [reflexivity|]. split; [exact Hrun|].
  split; [exact (optimize_progress_events smallLeague mixedTape 0 teams log c'
                   eq_refl Hrun)|].
  split; [exact Hst|]. split; [exact Hlast|]. split; [exact Hdone|].
  split; [exact Hfs|exact Hne].
Defined.

(** * What [buildCoAssignGroups] collects *)

Lemma pushGroup_keeps g idx groups h old i :
  (h, old) ∈ groups -> i ∈ old ->
  exists members, (h, members) ∈ pushGroup g idx groups /\ i ∈ members.
Proof.
  induction groups as [|[k ms] rest IH]; intros Hin Hi; [by apply elem_of_nil in Hin|].
  cbn [pushGroup]. destruct (Pos.compare_spec g k) as [->|Hlt|Hgt].
  - apply elem_of_cons in Hin as [[= -> ->]|Hin].
    + exists (ms ++ [idx]). split; [left|]. apply elem_of_app. by left.
    + exists old. split; [by right|done].
  - exists old. split; [by right|done].
  - apply elem_of_cons in Hin as [[= -> ->]|Hin].
    + exists ms. split; [left|done].
    + destruct (IH Hin Hi) as (members & ? & ?). exists members. split; [by right|done].
Qed.

Lemma pushGroup_adds g idx groups :
  exists members, (g, members) ∈ pushGroup g idx groups /\ idx ∈ members.
Proof.
  induction groups as [|[k ms] rest IH]; cbn [pushGroup].
  - exists [idx]. split; [left|left].
  - destruct (Pos.compare_spec g k) as [->|Hlt|Hgt].
    + exists (ms ++ [idx]). split; [left|]. apply elem_of_app. right. left.
    + exists [idx]. split; [left|left].
    + destruct IH as (members & ? & ?). exists members. split; [by right|done].
Qed.

Lemma pushGroup_entry g idx groups h members :
  (h, members) ∈ pushGroup g idx groups ->
  (h, members) ∈ groups \/
  (h = g /\ exists old, members = old ++ [idx] /\ (old = [] \/ (g, old) ∈ groups)).
Proof.
  induction groups as [|[k ms] rest IH]; cbn [pushGroup]; intros Hin.
  - apply list_elem_of_singleton in Hin as [= -> ->]. right. split; [done|].
    exists []. split; [done|by left].
  - destruct (Pos.compare_spec g k) as [->|Hlt|Hgt].
    + apply elem_of_cons in Hin as [[= -> ->]|Hin].
      * right. split; [done|]. exists ms. split; [done|]. right. left.
      * left. by right.
    + apply elem_of_cons in Hin as [[= -> ->]|Hin].
      * right. split; [done|]. exists []. split; [done|by left].
      * by left.
    + apply elem_of_cons in Hin as [[= -> ->]|Hin].
      * left. left.
      * destruct (IH Hin) as [?|(-> & old & -> & [->|Hold])].
        -- left. by right.
        -- right. split; [done|]. exists []. split; [done|by left].
        -- right. split; [done|]. exists old. split; [done|]. right. by right.
Qed.

(** Every player read so far sits in the entry of its group, and the
    members of an entry are listed in ascending order. *)
Lemma buildGroupsFrom_full ps rest : forall pre groups,
  ps = pre ++ rest -> groups_full pre groups ->
  groups_full ps (buildGroupsFrom (length pre) rest groups).
Proof.
  induction rest as [|player rest IH]; intros pre groups Hps Hfull.
  - cbn. by rewrite Hps, app_nil_r.
  - cbn. replace (S (length pre)) with (length (pre ++ [player]))
      by (rewrite length_app; cbn; lia).
    apply IH; [by rewrite <- app_assoc|].
    destruct Hfull as [Hall Hsorted].
    assert (forall j p g, pre !! j = Some p -> coAssignGroup p = Some g ->
              exists members,
                (g, members) ∈ match coAssignGroup player with
                                | Some h => pushGroup h (length pre) groups
                                | None => groups
                                end /\ j ∈ members) as Hold.
    { intros j p g Hj Hg. destruct (Hall j p g Hj Hg) as (old & Hin & Hjo).
      destruct (coAssignGroup player); [|eauto]. by eapply pushGroup_keeps. }
    split.
    + intros j p g Hj Hg.
      apply lookup_app_Some in Hj as [Hj|[Hge Hj]]; [by eapply Hold|].
      apply list_lookup_singleton_Some in Hj as [Hj <-].
      assert (j = length pre) as -> by lia. rewrite Hg. apply pushGroup_adds.
    + intros g members Hin.
      assert (ascending members /\ Forall (fun i => i < length pre) members \/
              exists old, members = old ++ [length pre] /\
                ascending old /\ Forall (fun i => i < length pre) old)
        as [[Hs Hlt]|(old & -> & Hs & Hlt)].
      { destruct (coAssignGroup player) as [h|]; [|left; by apply (Hsorted g)].
        apply pushGroup_entry in Hin as [Hin|(-> & old & -> & [->|Hin])].
        - left. by apply (Hsorted g).
        - right. exists []. split; [done|]. split; constructor.
        - right. exists old. split; [done|]. by apply (Hsorted h). }
      * split; [done|]. rewrite length_app. cbn.
        eapply Forall_impl; [exact Hlt|]. cbn. lia.
      * rewrite length_app. cbn. split.
        -- clear Hin. induction Hs as [|x xs Hxs IHs Hx]; cbn.
           { repeat constructor. }
           apply Forall_cons in Hlt as [Hx0 Hlt]. constructor; [by apply IHs|].
           apply Forall_app. split; [done|]. by repeat constructor.
        -- apply Forall_app. split.
           ++ eapply Forall_impl; [exact Hlt|]. cbn. lia.
           ++ repeat constructor. lia.
Qed.

Lemma buildCoAssignGroups_full ps : groups_full ps (buildCoAssignGroups ps).
Proof.
  apply (buildGroupsFrom_full ps ps [] []); [done|]. split.
  - intros j p g Hj. by rewrite lookup_nil in Hj.
  - intros g members Hin. by apply elem_of_nil in Hin.
Qed.

(** X1. The co-assign groups the constructor builds hold exactly the players
    that name a group: player [i] is a member of the entry of [g] if and only
    if its [coAssignGroup] is [g]; no key has two entries; when every id is
    an array index (below 2^32 - 1) the keys come in ascending order; and the
    members of an entry come in ascending index order.  So the test the
    operators use to recognise a grouped player is true exactly of the
    players whose [coAssignGroup] is not [null]. *)
Theorem buildCoAssignGroups_exact ps :
  (forall g i,
     (exists members, (g, members) ∈ buildCoAssignGroups ps /\ i ∈ members) <->
     (exists p, ps !! i = Some p /\ coAssignGroup p = Some g)) /\
  NoDup (map fst (buildCoAssignGroups ps)) /\
  ((forall p g, p ∈ ps -> coAssignGroup p = Some g -> indexKey g) ->
   StronglySorted Pos.lt (map fst (buildCoAssignGroups ps))) /\
  (forall g members, (g, members) ∈ buildCoAssignGroups ps -> ascending members) /\
  (forall i,
     isCoAssigned (buildCoAssignGroups ps) i = true <->
     exists p, ps !! i = Some p /\ coAssignGroup p <> None).
Proof.
  destruct (buildCoAssignGroups_full ps) as [Hall Hsorted].
  destruct (buildGroupsFrom_inv ps ps [] [] eq_refl) as (Hmem & Hkeys & _).
  { split; [|split].
    - intros ? ? ? H. by apply elem_of_nil in H.
    - apply SSorted_nil.
    - intros ? ? H. by apply elem_of_nil in H. }
  assert (forall g i,
     (exists members, (g, members) ∈ buildCoAssignGroups ps /\ i ∈ members) <->
     (exists p, ps !! i = Some p /\ coAssignGroup p = Some g)) as Hiff.
  { intros g i. split.
    - intros (members & Hin & Hi). by apply (Hmem g members).
    - intros (p & Hp & Hg). by apply (Hall i p g). }
  split; [exact Hiff|]. split; [by apply sorted_NoDup|].
  split; [intros _; exact Hkeys|]. split.
  - intros g members Hin. by apply (Hsorted g).
  - intros i. rewrite isCoAssigned_spec. split.
    + intros (g & members & Hin & Hi).
      destruct (proj1 (Hiff g i)) as (p & Hp & Hg); [eauto|].
      exists p. split; [done|]. by rewrite Hg.
    + intros (p & Hp & Hg). destruct (coAssignGroup p) as [g|] eqn:Hgp; [|done].
      destruct (proj2 (Hiff g i)) as (members & ? & ?); eauto.
Qed.

Lemma buildCoAssignGroups_exact_witness :
  buildCoAssignGroups (players twoCarpools)
    = [(1%positive, [1; 3]); (2%positive, [0; 2])] /\
  StronglySorted Pos.lt (map fst (buildCoAssignGroups (players twoCarpools))).
Proof.
  split; [reflexivity|].
  apply (buildCoAssignGroups_exact (players twoCarpools)).
  intros p g Hp Hg. unfold indexKey.
  change (players twoCarpools)
    with [examplePlayer "SS" (Some 2%positive); examplePlayer "C" (Some 1%positive);
          examplePlayer "P" (Some 2%positive); examplePlayer "OF" (Some 1%positive)] in Hp.
  repeat (apply elem_of_cons in Hp as [->|Hp]; [cbn in Hg; injection Hg as <-; reflexivity|]).
  by apply elem_of_nil in Hp.
Defined.

(** * The groups the page counts are the groups the optimizer moves *)

Lemma push_sameGroup ps g p idx shown used :
  ps !! idx = Some p ->
  Forall2 (sameGroup ps) shown used ->
  Forall2 (sameGroup ps) (pushPlayer g p shown) (pushGroup g idx used).
Proof.
  intros Hp H. induction H as [|[k members] [k' idxs] shown used [Hk Hm] H IH];
    cbn [pushPlayer pushGroup].
  - constructor; [|constructor]. split; [done|]. cbn. by repeat constructor.
  - cbn in Hk. subst k'. destruct (g ?= k)%positive.
    + constructor; [|done]. split; [done|]. cbn. apply Forall2_app; [done|].
      by repeat constructor.
    + constructor; [|by constructor]. split; [done|]. cbn. by repeat constructor.
    + by constructor.
Qed.

Lemma groupPlayers_from ps rest : forall pre shown used,
  ps = pre ++ rest -> Forall2 (sameGroup ps) shown used ->
  Forall2 (sameGroup ps)
    (foldl (fun groups p =>
              match coAssignGroup p with
              | Some g => pushPlayer g p groups
              | None => groups
              end) shown rest)
    (buildGroupsFrom (length pre) rest used).
Proof.
  induction rest as [|player rest IH]; intros pre shown used Hps H; [done|].
  cbn [foldl buildGroupsFrom].
  replace (S (length pre)) with (length (pre ++ [player]))
    by (rewrite length_app; cbn; lia).
  apply IH; [by rewrite <- app_assoc|].
  destruct (coAssignGroup player) as [g|]; [|done].
  apply push_sameGroup; [|done]. rewrite Hps. by apply list_lookup_middle.
Qed.

(** X2. The car-pool groups of the file panel ([groupPlayersByCoAssign]) are
    the co-assign groups of the optimizer ([buildCoAssignGroups]) entry by
    entry: the same keys in the same order, each entry listing the players
    the optimizer's entry lists by index.  In particular the number of groups
    the page reports is the number of groups the optimizer keeps together. *)
Theorem groupPlayersByCoAssign_agrees ps :
  Forall2 (sameGroup ps) (groupPlayersByCoAssign ps) (buildCoAssignGroups ps) /\
  length (groupPlayersByCoAssign ps) = length (buildCoAssignGroups ps).
Proof.
  assert (Forall2 (sameGroup ps) (groupPlayersByCoAssign ps) (buildCoAssignGroups ps))
    as H by (apply (groupPlayers_from ps ps [] [] []); [done|constructor]).
  split; [exact H|]. by eapply Forall2_length.
Qed.

(** * When decoding throws, and what it conserves *)

Lemma placePlayers_Some cells : forall k teams placed,
  placePlayers k cells teams = Some placed ->
  Forall (fun c => c < length teams) cells.
Proof.
  induction cells as [|c cells IH]; intros k teams placed H; [constructor|].
  cbn [placePlayers] in H. destruct (teams !! c) as [tm|] eqn:Htm; [|done].
  cbn [mbind option_bind] in H. constructor; [by eapply lookup_lt_Some|].
  apply IH in H. by rewrite length_insert in H.
Qed.

Lemma headCount_insert teams t tm ref :
  teams !! t = Some tm ->
  headCount (<[t := Team.addPlayer tm ref]> teams) = S (headCount teams).
Proof.
  unfold headCount. revert t. induction teams as [|x teams IH]; intros [|t] H;
    try done.
  - injection H as ->. cbn [insert list_insert map sum_list Team.addPlayer Team.players].
    rewrite length_app. cbn. lia.
  - change (<[S t:=Team.addPlayer tm ref]> (x :: teams))
      with (x :: <[t:=Team.addPlayer tm ref]> teams).
    cbn [map sum_list]. rewrite (IH t H). lia.
Qed.

Lemma placePlayers_headCount cells : forall k teams placed,
  placePlayers k cells teams = Some placed ->
  headCount placed = headCount teams + length cells.
Proof.
  induction cells as [|c cells IH]; intros k teams placed H.
  - cbn in H. injection H as <-. cbn. lia.
  - cbn [placePlayers] in H. destruct (teams !! c) as [tm|] eqn:Htm; [|done].
    cbn [mbind option_bind] in H. apply IH in H.
    rewrite (headCount_insert _ _ _ _ Htm) in H. cbn. lia.
Qed.

Lemma headCount_new n k : headCount (map Team.new (seq k n)) = 0.
Proof. unfold headCount. revert k. induction n as [|n IH]; intros k; [done|]. cbn. apply IH. Qed.

(** X3. [decodeIndividual] throws exactly when some cell of the individual
    names a team outside [0 .. numTeams - 1] (whatever the length of the
    individual); otherwise it returns [numTeams] teams, team [t] holding in
    ascending order the indices whose cell is [t]. *)
Theorem decodeIndividual_throws_iff self individual :
  (decodeIndividual self individual = None <->
   Exists (fun cell => numTeams self <= cell) individual) /\
  (forall teams,
     decodeIndividual self individual = Some teams <->
     Forall (fun cell => cell < numTeams self) individual /\
     teams = decoded self individual).
Proof.
  assert (forall teams,
     decodeIndividual self individual = Some teams <->
     Forall (fun cell => cell < numTeams self) individual /\
     teams = decoded self individual) as Hsome.
  { intros teams. split.
    - intros H. assert (Forall (fun cell => cell < numTeams self) individual) as Hall.
      { apply placePlayers_Some in H. by rewrite length_map, length_seq in H. }
      split; [done|]. rewrite (decodeIndividual_decoded _ _ Hall) in H. congruence.
    - intros [Hall ->]. by apply decodeIndividual_decoded. }
  split; [|exact Hsome].
  destruct (decide (Forall (fun cell => cell < numTeams self) individual)) as [Hall|Hnot].
  - rewrite (decodeIndividual_decoded _ _ Hall). split; [done|].
    intros Hex. apply Exists_exists in Hex as (cell & Hin & Hge).
    rewrite Forall_forall in Hall. specialize (Hall cell Hin). lia.
  - split.
    + intros _. apply not_Forall_Exists in Hnot; [|intros cell; apply _].
      eapply Exists_impl; [exact Hnot|]. cbn. lia.
    + intros _. destruct (decodeIndividual self individual) as [teams|] eqn:H; [|done].
      destruct (proj1 (Hsome teams) eq_refl) as [Hall _]. done.
Qed.

(** X4. Decoding loses and duplicates nobody: the sizes of the teams
    [decodeIndividual] returns add up to the length of the individual. *)
Theorem decodeIndividual_headCount self individual teams :
  decodeIndividual self individual = Some teams ->
  headCount teams = length individual.
Proof.
  intros H. apply placePlayers_headCount in H. by rewrite headCount_new in H.
Qed.

Lemma decodeIndividual_headCount_witness :
  decodeIndividual carpoolLeague [0; 1; 1]
    = Some [Team.mk 0 [0]; Team.mk 1 [1; 2]] /\
  headCount [Team.mk 0 [0]; Team.mk 1 [1; 2]] = 3.
Proof.
  split; [reflexivity|].
  exact (decodeIndividual_headCount carpoolLeague [0; 1; 1]
           [Team.mk 0 [0]; Team.mk 1 [1; 2]] eq_refl).
Defined.

(** * When evaluation throws *)

Lemma evaluate_rosters self individual teams rosters :
  decodeIndividual self individual = Some teams ->
  mapM (Team.deref (players self)) teams = Some rosters ->
  is_Some (evaluate self individual).
Proof.
  intros Hd Hr. unfold evaluate. rewrite Hd. cbn [mbind option_bind].
  rewrite (hardPenalty_spec _ _ _ _ Hr). cbn [mbind option_bind].
  rewrite (mapM_rosters _ _ _ _ _ (getAverageSkill_deref _) Hr).
  cbn [mbind option_bind].
  rewrite (mapM_rosters _ _ _ _ _ (getAverageAttendance_deref _) Hr).
  cbn [mbind option_bind].
  rewrite (mapM_rosters _ _ _ _ _ (getSkillVariance_deref _) Hr).
  cbn [mbind option_bind].
  destruct (0 <? length (List.filter isCoach (players self))).
  - rewrite (mapM_rosters _ _ _ _ _ (coachCount_deref _) Hr).
    cbn [mbind option_bind]. eauto.
  - cbn [mbind option_bind]. eauto.
Qed.

Lemma teamPenalty_deref roster tm penalty :
  is_Some (teamPenalty roster tm penalty) -> is_Some (Team.deref roster tm).
Proof.
  destruct (Team.deref roster tm) as [ps|] eqn:Hd; [eauto|].
  assert (teamPenalty roster tm penalty = None) as ->; [|by intros [? ?]].
  unfold teamPenalty, requiredPositions. cbn [missingRolePenalty].
  unfold Team.getPositionCount. by rewrite Hd.
Qed.

Lemma teamsPenalty_deref roster teams : forall penalty,
  is_Some (teamsPenalty roster teams penalty) ->
  Forall (fun tm => is_Some (Team.deref roster tm)) teams.
Proof.
  induction teams as [|tm teams IH]; intros penalty H; [constructor|].
  cbn [teamsPenalty] in H.
  destruct (teamPenalty roster tm penalty) as [p|] eqn:Hp; [|by destruct H].
  cbn [mbind option_bind] in H. constructor; [|by eapply IH].
  apply (teamPenalty_deref _ _ penalty). rewrite Hp. eauto.
Qed.

Lemma deref_member_lt roster tm i :
  is_Some (Team.deref roster tm) -> i ∈ Team.players tm -> i < length roster.
Proof.
  intros [ps Hps] Hi. unfold Team.deref in Hps. apply mapM_Some in Hps.
  apply list_elem_of_lookup in Hi as [k Hk].
  destruct (Forall2_lookup_l _ _ _ _ _ Hps Hk) as (p & _ & Hp).
  by eapply lookup_lt_Some.
Qed.

(** X5. [evaluate] returns a number exactly when every cell of the
    individual names one of the [numTeams] teams and the individual has no
    more cells than there are players; otherwise it throws (a cell outside
    the team array, or a team member that is [undefined]). *)
Theorem evaluate_throws_iff self individual :
  is_Some (evaluate self individual) <->
  Forall (fun cell => cell < numTeams self) individual /\
  length individual <= length (players self).
Proof.
  split.
  - intros [f Hf]. unfold evaluate in Hf.
    destruct (decodeIndividual self individual) as [teams|] eqn:Hd; [|done].
    cbn [mbind option_bind] in Hf.
    assert (Forall (fun cell => cell < numTeams self) individual) as Hall.
    { apply placePlayers_Some in Hd. by rewrite length_map, length_seq in Hd. }
    split; [done|].
    rewrite (decodeIndividual_decoded _ _ Hall) in Hd. injection Hd as <-.
    unfold hardPenalty in Hf.
    destruct (teamsPenalty (players self) (decoded self individual) 0) as [p|] eqn:Hp;
      [|done].
    assert (Forall (fun tm => is_Some (Team.deref (players self) tm))
              (decoded self individual)) as Hderef.
    { apply (teamsPenalty_deref _ _ 0%Z). rewrite Hp. eauto. }
    destruct (decide (length individual <= length (players self))) as [|Hgt]; [done|].
    exfalso. assert (is_Some (individual !! length (players self))) as [t Ht].
    { apply lookup_lt_is_Some. lia. }
    rewrite Forall_lookup in Hall. pose proof (Hall _ _ Ht) as Hlt. cbn in Hlt.
    rewrite Forall_lookup in Hderef.
    assert (decoded self individual !! t
            = Some (Team.mk t (indicesOnTeam t 0 individual))) as Htm.
    { by apply decoded_lookup. }
    pose proof (deref_member_lt _ _ (length (players self)) (Hderef _ _ Htm)) as Habs.
    cbn in Habs. rewrite indicesOnTeam_here in Habs. specialize (Habs Ht). lia.
  - intros [Hall Hlen].
    assert (is_Some (mapM (Team.deref (players self)) (decoded self individual)))
      as [rosters Hr].
    { apply mapM_is_Some. apply Forall_lookup. intros t tm Htm.
      apply deref_is_Some. intros i Hi.
      pose proof (decoded_member_lt _ _ _ _ _ Htm Hi). lia. }
    eapply evaluate_rosters; [by apply decodeIndividual_decoded|exact Hr].
Qed.

(** * The penalties and the constraints they stand for *)

Lemma sumZ_zero zs :
  Forall (fun z => 0 <= z)%Z zs -> (sumZ zs = 0%Z <-> Forall (fun z => z = 0%Z) zs).
Proof.
  unfold sumZ. induction 1 as [|z zs Hz Hzs IH]; cbn [foldr].
  - split; [constructor|done].
  - assert (0 <= foldr Z.add 0 zs)%Z as Hsum.
    { clear IH. induction Hzs as [|y ys Hy _ IHy]; cbn; lia. }
    split.
    + intros Hsum0. constructor; [lia|]. apply IH. lia.
    + intros [-> Hall]%Forall_cons. apply IH in Hall. lia.
Qed.

Lemma roleCoveragePenalty_nonneg ps : (0 <= roleCoveragePenalty ps)%Z.
Proof. unfold roleCoveragePenalty. lia. Qed.

Lemma roleCoveragePenalty_zero ps : roleCoveragePenalty ps = 0%Z <-> covered ps.
Proof.
  unfold roleCoveragePenalty, covered, missingRoles. split.
  - intros H.
    assert (List.filter (fun pos => positionCount pos ps <? 1) requiredPositions = [])
      as Hnone by (apply length_zero_iff_nil; lia).
    split; [|lia]. intros pos Hpos.
    destruct (Nat.ltb_spec (positionCount pos ps) 1) as [Hlt|]; [|done].
    assert (pos ∈ List.filter (fun pos => positionCount pos ps <? 1) requiredPositions)
      as Hin by (apply filter_elem_of; split; [done|by apply Nat.ltb_lt]).
    rewrite Hnone in Hin. by apply elem_of_nil in Hin.
  - intros [Hroles Hof].
    assert (List.filter (fun pos => positionCount pos ps <? 1) requiredPositions = [])
      as ->.
    { destruct (List.filter _ requiredPositions) as [|pos rest] eqn:Hf; [done|].
      assert (pos ∈ List.filter (fun pos => positionCount pos ps <? 1) requiredPositions)
        as Hin by (rewrite Hf; left).
      apply filter_elem_of in Hin as [Hin Hlt]. apply Nat.ltb_lt in Hlt.
      specialize (Hroles pos Hin). lia. }
    cbn [length]. lia.
Qed.

Lemma rolesCovered_spec roster tm ps positions :
  Team.deref roster tm = Some ps ->
  rolesCovered roster tm positions
    = Some (forallb (fun pos => negb (positionCount pos ps <? 1)) positions).
Proof.
  intros Hps. induction positions as [|pos rest IH]; [done|].
  cbn [rolesCovered forallb]. rewrite (getPositionCount_deref _ _ _ _ Hps).
  cbn [mbind option_bind]. by destruct (positionCount pos ps <? 1).
Qed.

Lemma covered_decide ps :
  covered ps <->
  forallb (fun pos => negb (positionCount pos ps <? 1)) requiredPositions = true /\
  (positionCount "OF" ps <? 3) = false.
Proof.
  unfold covered. rewrite forallb_forall, Nat.ltb_ge. split.
  - intros [Hroles Hof]. split; [|done]. intros pos Hpos%list_elem_of_In.
    apply negb_true_iff, Nat.ltb_ge. by apply Hroles.
  - intros [Hroles Hof]. split; [|done]. intros pos Hpos%list_elem_of_In.
    by apply Hroles, negb_true_iff, Nat.ltb_ge in Hpos.
Qed.

Lemma checkPositionsCovered_spec roster teams : forall rosters,
  mapM (Team.deref roster) teams = Some rosters ->
  (checkPositionsCovered roster teams = Some true <-> Forall covered rosters) /\
  is_Some (checkPositionsCovered roster teams).
Proof.
  induction teams as [|tm teams IH]; intros rosters Hm.
  - apply mapM_Some in Hm. apply Forall2_nil_inv_l in Hm as ->. cbn.
    split; [|eauto]. split; [constructor|done].
  - apply mapM_Some in Hm.
    apply Forall2_cons_inv_l in Hm as (ps & rest & Hps & Hrest & ->).
    apply mapM_Some in Hrest. destruct (IH _ Hrest) as [IHiff IHsome].
    cbn [checkPositionsCovered]. rewrite (rolesCovered_spec _ _ _ _ Hps).
    cbn [mbind option_bind]. rewrite (getPositionCount_deref _ _ _ _ Hps).
    cbn [mbind option_bind]. rewrite Forall_cons, covered_decide.
    destruct (forallb _ requiredPositions); [|split; [|eauto]; split; [done|]; by intros [[? ?] ?]].
    destruct (positionCount "OF" ps <? 3); [split; [|eauto]; split; [done|]; by intros [[? ?] ?]|].
    split; [|done]. rewrite IHiff. tauto.
Qed.

(** X6. The test that ends the repair loop agrees with the fitness: for
    teams whose members can all be read, [checkPositionsCovered] returns
    [true] exactly when the role coverage penalty that [evaluate] charges for
    these teams is zero, and it returns [false] otherwise. *)
Theorem checkPositionsCovered_iff_no_penalty roster teams rosters :
  mapM (Team.deref roster) teams = Some rosters ->
  checkPositionsCovered roster teams
    = Some (bool_decide (sumZ (map roleCoveragePenalty rosters) = 0%Z)).
Proof.
  intros Hm. destruct (checkPositionsCovered_spec _ _ _ Hm) as [Hiff [b Hb]].
  assert (sumZ (map roleCoveragePenalty rosters) = 0%Z <-> Forall covered rosters) as Hz.
  { rewrite sumZ_zero.
    - rewrite Forall_map. apply Forall_iff. intros ps. apply roleCoveragePenalty_zero.
    - apply Forall_map, Forall_forall. intros ps _. apply roleCoveragePenalty_nonneg. }
  rewrite Hb. f_equal. destruct b.
  - symmetry. apply bool_decide_eq_true. apply Hz, Hiff. done.
  - symmetry. apply bool_decide_eq_false. intros H. apply Hz, Hiff in H. congruence.
Qed.

Lemma checkPositionsCovered_iff_no_penalty_witness :
  mapM (Team.deref (players smallLeague)) (decoded smallLeague [0; 1; 1])
    = Some [[examplePlayer "P" None];
            [examplePlayer "OF" None; examplePlayer "OF" None]] /\
  checkPositionsCovered (players smallLeague) (decoded smallLeague [0; 1; 1])
    = Some false.
Proof.
  split; [reflexivity|].
  exact (checkPositionsCovered_iff_no_penalty (players smallLeague)
           (decoded smallLeague [0; 1; 1])
           [[examplePlayer "P" None];
            [examplePlayer "OF" None; examplePlayer "OF" None]] eq_refl).
Defined.

Lemma remove_dups_le_1 {A} `{EqDecision A} (l : list A) :
  length (remove_dups l) <= 1 <-> forall x y, x ∈ l -> y ∈ l -> x = y.
Proof.
  split.
  - intros Hlen x y Hx Hy. apply elem_of_remove_dups in Hx, Hy.
    destruct (remove_dups l) as [|a [|b rest]]; cbn in Hlen; [| |lia].
    + by apply elem_of_nil in Hx.
    + apply list_elem_of_singleton in Hx, Hy. congruence.
  - intros Hall. pose proof (NoDup_remove_dups l) as Hnd.
    destruct (remove_dups l) as [|a [|b rest]] eqn:Hr; cbn; [lia|lia|].
    assert (a = b) as ->.
    { apply Hall; apply elem_of_remove_dups; rewrite Hr; [left|right; left]. }
    apply NoDup_cons in Hnd as [Hnotin _]. destruct Hnotin. left.
Qed.

Lemma groupIsSplit_false individual members :
  groupIsSplit individual members = false <->
  forall i j, i ∈ members -> j ∈ members -> individual !! i = individual !! j.
Proof.
  unfold groupIsSplit. rewrite Nat.ltb_ge, remove_dups_le_1. split.
  - intros H i j Hi Hj.
    apply H; apply list_elem_of_fmap; eexists; (split; [reflexivity|done]).
  - intros H x y Hx Hy.
    apply list_elem_of_fmap in Hx as (i & -> & Hi).
    apply list_elem_of_fmap in Hy as (j & -> & Hj). by apply H.
Qed.

Lemma splitPenalty_count individual groups :
  splitPenalty individual groups 0
  = (500 * Z.of_nat (length (List.filter (fun entry => groupIsSplit individual entry.2)
                                groups)))%Z.
Proof.
  induction groups as [|entry groups IH]; [done|].
  unfold splitPenalty in *. cbn [foldl List.filter].
  change (foldl ?f ?a groups) with (splitPenalty individual groups a).
  rewrite splitPenalty_shift. unfold splitPenalty. rewrite IH.
  destruct (groupIsSplit individual entry.2); cbn [length]; lia.
Qed.

Lemma splitPenalty_zero self individual :
  splitPenalty individual (coAssignGroups self) 0 = 0%Z <-> grouped self individual.
Proof.
  rewrite splitPenalty_count. split.
  - intros H g members i j Hin Hi Hj.
    assert (List.filter (fun entry => groupIsSplit individual entry.2)
              (coAssignGroups self) = []) as Hnone by (apply length_zero_iff_nil; lia).
    destruct (groupIsSplit individual members) eqn:Hsplit.
    + assert ((g, members) ∈ List.filter (fun entry => groupIsSplit individual entry.2)
                (coAssignGroups self)) as Hf by (by apply filter_elem_of).
      rewrite Hnone in Hf. by apply elem_of_nil in Hf.
    + by apply (proj1 (groupIsSplit_false _ _) Hsplit).
  - intros Hg.
    destruct (List.filter _ (coAssignGroups self)) as [|[g members] rest] eqn:Hf; [done|].
    assert ((g, members) ∈ List.filter (fun entry => groupIsSplit individual entry.2)
              (coAssignGroups self)) as Hin by (rewrite Hf; left).
    apply filter_elem_of in Hin as [Hin Hsplit].
    change (groupIsSplit individual members = true) in Hsplit.
    assert (groupIsSplit individual members = false) as Hno.
    { apply groupIsSplit_false. intros i j. by apply (Hg g members). }
    congruence.
Qed.

(** X7. The co-assign penalty of [evaluate] is 500 for every group whose
    members do not all have the same cell, so it is zero exactly for the
    individuals that satisfy the grouping invariant. *)
Theorem splitPenalty_counts_split_groups self individual :
  splitPenalty individual (coAssignGroups self) 0
  = (500 * Z.of_nat (length (List.filter (fun entry => groupIsSplit individual entry.2)
                                (coAssignGroups self))))%Z /\
  (forall members,
     groupIsSplit individual members = false <->
     forall i j, i ∈ members -> j ∈ members -> individual !! i = individual !! j) /\
  (splitPenalty individual (coAssignGroups self) 0 = 0%Z <-> grouped self individual).
Proof.
  split; [apply splitPenalty_count|]. split; [intros; apply groupIsSplit_false|].
  apply splitPenalty_zero.
Qed.






(** * What [movePlayer] moves *)

Lemma filter_nil_length {A} (f : A -> bool) (l : list A) :
  (0 <? length (List.filter f l)) = false -> forall x, x ∈ l -> f x = false.
Proof.
  intros H x Hx. apply Nat.ltb_ge in H.
  destruct (f x) eqn:Hf; [|done].
  assert (x ∈ List.filter f l) as Hin by (by apply filter_elem_of).
  destruct (List.filter f l); [by apply elem_of_nil in Hin|cbn in H; lia].
Qed.

Lemma movePlayer_outcome self individual teams fromTeamId toTeamId t c :
  wf self -> length individual = numPlayers self ->
  exists individual' c',
    movePlayer self individual teams fromTeamId toTeamId t c = Some (individual', c') /\
    moved_outcome self individual fromTeamId toTeamId individual' c c'.
Proof.
  intros Hwf Hlen. unfold movePlayer, moved_outcome.
  set (onTeam := indicesOnTeam fromTeamId 0 individual).
  set (free := List.filter _ onTeam).
  destruct (0 <? length free) eqn:Hfree.
  - apply Nat.ltb_lt in Hfree.
    pose proof (floor_scaled_lt (t c) (length free) Hfree) as Hk.
    apply lookup_lt_is_Some in Hk as [i Hi].
    exists (<[i:=toTeamId]> individual), (S c). split.
    { unfold bind, randomInt, random, ret. cbn. by rewrite Hi. }
    left. exists i. apply list_elem_of_lookup_2, filter_elem_of in Hi as [Hon Hno].
    apply negb_true_iff in Hno. by apply indicesOnTeam_here in Hon.
  - pose proof (filter_nil_length _ _ Hfree) as Hall.
    destruct (0 <? length onTeam) eqn:Hsome.
    + apply Nat.ltb_lt in Hsome.
      pose proof (floor_scaled_lt (t c) (length onTeam) Hsome) as Hk.
      apply lookup_lt_is_Some in Hk as [i Hi].
      exists (moveWithGroup (coAssignGroups self) i toTeamId individual), (S c). split.
      { unfold bind, randomInt, random, ret. cbn. fold onTeam. by rewrite Hi. }
      right. left.
      assert (forall j, individual !! j = Some fromTeamId ->
                isCoAssigned (coAssignGroups self) j = true) as Hgrouped.
      { intros j Hj. apply indicesOnTeam_here in Hj. fold onTeam in Hj.
        apply Hall in Hj. by apply negb_false_iff in Hj. }
      apply list_elem_of_lookup_2 in Hi. apply indicesOnTeam_here in Hi.
      split; [by exists i|]. split; [exact Hgrouped|]. split; [|done].
      destruct (moveWithGroup_cases (coAssignGroups self) i toTeamId individual)
        as [(g & members & Hin & Him & ->)|[Hno _]].
      * exists i, g, members. split; [done|]. split; [done|]. split; [done|].
        intros j. rewrite writeAll_lookup.
        destruct (decide (j ∈ members)) as [Hj|Hj].
        -- rewrite bool_decide_eq_true_2, bool_decide_eq_true_2; [done|done|].
           split; [done|]. pose proof (group_member_lt _ _ _ _ Hwf Hin Hj) as Hlt. lia.
        -- rewrite bool_decide_eq_false_2, bool_decide_eq_false_2; [done|done|].
           by intros [? _].
      * rewrite (Hgrouped i Hi) in Hno. done.
    + exists individual, c. split; [reflexivity|]. right. right.
      split; [|done]. intros i Hi. apply indicesOnTeam_here in Hi. fold onTeam in Hi.
      apply Nat.ltb_ge in Hsome. destruct onTeam; [by apply elem_of_nil in Hi|].
      cbn in Hsome. lia.
Qed.

(** X9. [movePlayer] never throws.  On an individual with one cell per
    player it moves, by one draw, a player of the source team who is in no
    group whenever the team has one; when every player of the source team is
    in a group it moves, by one draw, the whole group of one of them; when
    the source team is empty it changes nothing and draws nothing. *)
Theorem movePlayer_cases ps teamCount options individual teams fromTeamId toTeamId t c :
  let self := newOptimizer ps teamCount options in
  length individual = length ps ->
  exists individual' c',
    movePlayer self individual teams fromTeamId toTeamId t c = Some (individual', c') /\
    moved_outcome self individual fromTeamId toTeamId individual' c c'.
Proof.
  intros self Hlen. apply movePlayer_outcome; [apply newOptimizer_wf|exact Hlen].
Qed.

Lemma movePlayer_cases_witness :
  length [0; 1; 1] = length (players carpoolLeague) /\
  exists individual' c',
    movePlayer carpoolLeague [0; 1; 1] (decoded carpoolLeague [0; 1; 1]) 1 0 zeroTape 0
      = Some (individual', c') /\
    moved_outcome carpoolLeague [0; 1; 1] 1 0 individual' 0 c'.
Proof.
  split; [reflexivity|].
  exact (movePlayer_cases
           [examplePlayer "P" None; examplePlayer "SS" (Some 1%positive);
            examplePlayer "C" (Some 1%positive)]
           2 (mkOptions (Some 2) (Some 1) true)
           [0; 1; 1] (decoded carpoolLeague [0; 1; 1]) 1 0 zeroTape 0 eq_refl).
Defined.

(** * One balancing step *)

Lemma indicesOnTeam_insert_length cells : forall i k a b t,
  cells !! i = Some a -> a <> b ->
  length (indicesOnTeam t k (<[i:=b]> cells))
  = if decide (t = a) then length (indicesOnTeam t k cells) - 1
    else if decide (t = b) then S (length (indicesOnTeam t k cells))
    else length (indicesOnTeam t k cells).
Proof.
  induction cells as [|x cells IH]; intros [|i] k a b t Hi Hab; try done.
  - cbn in Hi. injection Hi as ->. cbn [insert list_insert indicesOnTeam].
    change (list_insert 0 b (a :: cells)) with (b :: cells). cbn [indicesOnTeam].
    destruct (decide (t = a)) as [->|Hta].
    + rewrite Nat.eqb_refl. destruct (Nat.eqb_spec b a); [congruence|]. cbn. lia.
    + destruct (Nat.eqb_spec a t); [congruence|].
      destruct (decide (t = b)) as [->|Htb].
      * by rewrite Nat.eqb_refl.
      * by destruct (Nat.eqb_spec b t); [congruence|].
  - cbn in Hi. change (<[S i:=b]> (x :: cells)) with (x :: <[i:=b]> cells).
    cbn [indicesOnTeam]. pose proof (IH i (S k) a b t Hi Hab) as IH'.
    destruct (x =? t); cbn [length]; rewrite IH'; [|done].
    destruct (decide (t = a)) as [->|]; [|by destruct (decide (t = b))].
    assert (0 < length (indicesOnTeam a (S k) cells)); [|lia].
    assert (S k + i ∈ indicesOnTeam a (S k) cells) as Hin
      by (apply indicesOnTeam_spec; eauto).
    destruct (indicesOnTeam a (S k) cells); [by apply elem_of_nil in Hin|cbn; lia].
Qed.

Lemma teamSizesOf_lookup self individual t :
  teamSizesOf self individual !! t
  = if decide (t < numTeams self) then Some (length (indicesOnTeam t 0 individual))
    else None.
Proof.
  unfold teamSizesOf, decoded. rewrite !list_lookup_fmap.
  destruct (decide (t < numTeams self)) as [Hlt|Hge].
  - by rewrite lookup_seq_lt.
  - rewrite lookup_seq_ge; [done|lia].
Qed.

Lemma teamSizesOf_length self individual :
  length (teamSizesOf self individual) = numTeams self.
Proof. unfold teamSizesOf. by rewrite length_map, decoded_length. Qed.

Lemma teamSizesOf_insert self individual i a b :
  individual !! i = Some a -> a <> b -> b < numTeams self ->
  teamSizesOf self (<[i:=b]> individual)
  = <[b := S (length (indicesOnTeam b 0 individual))]>
      (<[a := length (indicesOnTeam a 0 individual) - 1]> (teamSizesOf self individual)).
Proof.
  intros Hi Hab Hb. apply list_eq. intros t.
  rewrite teamSizesOf_lookup, (indicesOnTeam_insert_length _ _ _ _ _ _ Hi Hab).
  destruct (decide (t = b)) as [->|Htb].
  - rewrite list_lookup_insert_eq by (by rewrite length_insert, teamSizesOf_length).
    rewrite decide_True by done. by rewrite decide_False by done.
  - rewrite list_lookup_insert_ne by done.
    destruct (decide (t = a)) as [->|Hta].
    + destruct (decide (a < numTeams self)) as [Hlt|Hge].
      * by rewrite list_lookup_insert_eq by (by rewrite teamSizesOf_length).
      * symmetry. apply lookup_ge_None_2. rewrite length_insert, teamSizesOf_length. lia.
    + rewrite list_lookup_insert_ne by done. by rewrite teamSizesOf_lookup.
Qed.

Lemma foldl_max_spec sizes : forall s,
  let m := foldl Nat.max s sizes in
  (m = s \/ m ∈ sizes) /\ s <= m /\ Forall (fun x => x <= m) sizes.
Proof.
  induction sizes as [|x sizes IH]; intros s; cbn [foldl].
  - split; [by left|]. split; [done|constructor].
  - destruct (IH (Nat.max s x)) as ([Heq|Hin] & Hle & Hall).
    + split; [|split; [lia|constructor; [lia|done]]].
      cbv zeta. rewrite Heq.
      destruct (Nat.max_spec s x) as [[_ ->]|[_ ->]]; [right; left|by left].
    + split; [right; by right|]. split; [lia|constructor; [lia|done]].
Qed.

Lemma foldl_min_spec sizes : forall s,
  let m := foldl Nat.min s sizes in
  (m = s \/ m ∈ sizes) /\ m <= s /\ Forall (fun x => m <= x) sizes.
Proof.
  induction sizes as [|x sizes IH]; intros s; cbn [foldl].
  - split; [by left|]. split; [done|constructor].
  - destruct (IH (Nat.min s x)) as ([Heq|Hin] & Hle & Hall).
    + split; [|split; [lia|constructor; [lia|done]]].
      cbv zeta. rewrite Heq.
      destruct (Nat.min_spec s x) as [[_ ->]|[_ ->]]; [by left|right; left].
    + split; [right; by right|]. split; [lia|constructor; [lia|done]].
Qed.

Lemma maxOf_spec sizes maxSize :
  maxOf sizes = Some maxSize ->
  maxSize ∈ sizes /\ Forall (fun x => x <= maxSize) sizes.
Proof.
  destruct sizes as [|s sizes]; [done|]. cbn. intros [= <-].
  destruct (foldl_max_spec sizes s) as ([Heq|Hin] & Hle & Hall).
  - cbv zeta in Heq, Hall. rewrite Heq in *. split; [left|]. by constructor.
  - split; [by right|]. by constructor.
Qed.

Lemma minOf_spec sizes minSize :
  minOf sizes = Some minSize ->
  minSize ∈ sizes /\ Forall (fun x => minSize <= x) sizes.
Proof.
  destruct sizes as [|s sizes]; [done|]. cbn. intros [= <-].
  destruct (foldl_min_spec sizes s) as ([Heq|Hin] & Hle & Hall).
  - cbv zeta in Heq, Hall. rewrite Heq in *. split; [left|]. by constructor.
  - split; [by right|]. by constructor.
Qed.

Lemma indexOf_elem (v : nat) values :
  v ∈ values ->
  exists i, indexOf Nat.eqb v values = Some i /\ values !! i = Some v.
Proof.
  induction values as [|x values IH]; intros Hin; [by apply elem_of_nil in Hin|].
  cbn [indexOf]. destruct (Nat.eqb_spec x v) as [->|Hne].
  - by exists 0.
  - apply elem_of_cons in Hin as [->|Hin]; [done|].
    destruct (IH Hin) as (i & -> & Hi). by exists (S i).
Qed.

(** X10. When the team sizes of an individual differ by more than one,
    [balanceTeamSizes] moves from the first largest team to the first
    smallest team, as [movePlayer] does; if the largest team has a player of
    no group, the largest team ends one player smaller, the smallest one
    player larger, and every other team keeps its size. *)
Theorem balanceTeamSizes_step ps teamCount options individual targetSize t c :
  let self := newOptimizer ps teamCount options in
  length individual = length ps ->
  1 < sizeGap (teamSizesOf self individual) ->
  exists individual' c',
    balanceTeamSizes self individual (decoded self individual)
      (teamSizesOf self individual) targetSize t c = Some (individual', c') /\
    balance_outcome self individual individual' c c'.
Proof.
  intros self Hlen Hgap. pose proof (newOptimizer_wf ps teamCount options) as Hwf.
  fold self in Hwf. unfold balanceTeamSizes, balance_outcome.
  apply Nat.ltb_lt in Hgap as Hgapb. rewrite Hgapb. unfold sizeGap in Hgap.
  destruct (maxOf (teamSizesOf self individual)) as [maxSize|] eqn:Hmax; [|lia].
  destruct (minOf (teamSizesOf self individual)) as [minSize|] eqn:Hmin; [|lia].
  destruct (maxOf_spec _ _ Hmax) as [Hmaxin _].
  destruct (minOf_spec _ _ Hmin) as [Hminin _].
  destruct (indexOf_elem _ _ Hmaxin) as (a & Ha & Hsa).
  destruct (indexOf_elem _ _ Hminin) as (b & Hb & Hsb).
  rewrite Ha, Hb.
  destruct (movePlayer_outcome self individual (decoded self individual) a b t c Hwf Hlen)
    as (individual' & c' & Hrun & Hout).
  exists individual', c'. split; [exact Hrun|].
  exists a, b, maxSize, minSize. do 4 (split; [done|]). split; [exact Hout|].
  intros (i & Hi & Hfree).
  rewrite teamSizesOf_lookup in Hsa, Hsb.
  destruct (decide (a < numTeams self)); [|done].
  destruct (decide (b < numTeams self)); [|done].
  injection Hsa as Hsa. injection Hsb as Hsb.
  assert (a <> b) as Hab by (intros ->; lia).
  destruct Hout as [(j & Hj & _ & -> & _)|[(_ & Hall & _)|(Hnone & _)]].
  - rewrite (teamSizesOf_insert _ _ _ _ _ Hj Hab) by done. by rewrite Hsa, Hsb.
  - rewrite (Hall i Hi) in Hfree. done.
  - by destruct (Hnone i).
Qed.

Lemma balanceTeamSizes_step_witness :
  length [0; 0; 0] = length (players smallLeague) /\
  1 < sizeGap (teamSizesOf smallLeague [0; 0; 0]) /\
  exists individual' c',
    balanceTeamSizes smallLeague [0; 0; 0] (decoded smallLeague [0; 0; 0])
      (teamSizesOf smallLeague [0; 0; 0]) 1 zeroTape 0 = Some (individual', c') /\
    balance_outcome smallLeague [0; 0; 0] individual' 0 c'.
Proof.
  assert (1 < sizeGap (teamSizesOf smallLeague [0; 0; 0])) as Hgap by (cbn; lia).
  split; [reflexivity|]. split; [exact Hgap|].
  exact (balanceTeamSizes_step
           [examplePlayer "P" None; examplePlayer "OF" None; examplePlayer "OF" None]
           2 (mkOptions (Some 2) (Some 1) true) [0; 0; 0] 1 zeroTape 0 eq_refl Hgap).
Defined.

(** * A repair that stopped early has settled *)

Lemma swapPositionPlayer_false_any self individual teams donor recipient pos t c
    individual' c' :
  swapPositionPlayer self individual teams donor recipient pos t c
    = Some ((false, individual'), c') ->
  forall t2 c2,
    swapPositionPlayer self individual teams donor recipient pos t2 c2
      = Some ((false, individual), c2).
Proof.
  unfold swapPositionPlayer, bind, lift. intros H t2 c2.
  destruct (donorPlayersFrom self donor pos 0 individual) as [ds|]; [|done].
  destruct (0 <? length ds); [|done].
  unfold randomInt, random, bind, ret in H. by injection H.
Qed.

Lemma donorSearch_false_any self ofMin roleMin teams needy pos pending :
  forall k individual t c individual' c',
  donorSearch self ofMin roleMin teams needy pos k pending individual t c
    = Some ((false, individual'), c') ->
  forall t2 c2,
    donorSearch self ofMin roleMin teams needy pos k pending individual t2 c2
      = Some ((false, individual), c2).
Proof.
  induction pending as [|team rest IH]; intros k individual t c individual' c' H t2 c2;
    [done|].
  cbn [donorSearch] in *. destruct (k =? needy); [by eapply IH|].
  unfold bind at 1. unfold bind at 1 in H. unfold lift in *.
  destruct (Team.getPositionCount (players self) team _) as [count|]; [|done].
  destruct (_ <? count); [|by eapply IH].
  unfold bind at 1. unfold bind at 1 in H.
  destruct (swapPositionPlayer self individual teams k needy pos t c)
    as [[[moved ind1] c1]|] eqn:Hswap; [|done].
  destruct moved; [done|].
  pose proof (swapPositionPlayer_false_any _ _ _ _ _ _ _ _ _ _ Hswap) as Hany.
  assert (ind1 = individual) as ->.
  { apply swapPositionPlayer_spec in Hswap as [(? & _)|(_ & -> & _)]; done. }
  rewrite Hany. by eapply IH.
Qed.

Lemma fixMissingPosition_false_any self individual teams needy pos t c individual' c' :
  fixMissingPosition self individual teams needy pos t c
    = Some ((false, individual'), c') ->
  forall t2 c2,
    fixMissingPosition self individual teams needy pos t2 c2
      = Some ((false, individual), c2).
Proof.
  unfold fixMissingPosition. intros H t2 c2. unfold bind in *.
  destruct (donorSearch self 3 1 teams needy pos 0 teams individual t c)
    as [[[moved ind1] c1]|] eqn:Hfirst; [|done].
  destruct moved; [done|].
  pose proof (donorSearch_false_any _ _ _ _ _ _ _ _ _ _ _ _ _ Hfirst) as Hany.
  assert (ind1 = individual) as ->.
  { apply donorSearch_spec in Hfirst as [(? & _)|(_ & -> & _)]; done. }
  rewrite Hany. by eapply donorSearch_false_any.
Qed.

Lemma repairRoles_false_any self teams teamId team positions :
  forall individual t c individual' c',
  repairRoles self teams teamId team positions individual t c
    = Some ((false, individual'), c') ->
  forall t2 c2,
    repairRoles self teams teamId team positions individual t2 c2
      = Some ((false, individual), c2).
Proof.
  induction positions as [|pos rest IH]; intros individual t c individual' c' H t2 c2;
    [done|].
  cbn [repairRoles] in *. unfold bind at 1. unfold bind at 1 in H. unfold lift in *.
  destruct (Team.getPositionCount (players self) team pos) as [count|]; [|done].
  destruct (count <? 1); [|by eapply IH].
  unfold bind at 1. unfold bind at 1 in H.
  destruct (fixMissingPosition self individual teams teamId pos t c)
    as [[[fixed ind1] c1]|] eqn:Hfix; [|done].
  destruct fixed; [done|].
  pose proof (fixMissingPosition_false_any _ _ _ _ _ _ _ _ _ Hfix) as Hany.
  apply fixMissingPosition_false in Hfix as [-> ->].
  rewrite Hany. by eapply IH.
Qed.

Lemma repairTeams_false_any self teams pending :
  forall teamId individual t c individual' c',
  repairTeams self teams teamId pending individual t c = Some ((false, individual'), c') ->
  forall t2 c2,
    repairTeams self teams teamId pending individual t2 c2
      = Some ((false, individual), c2).
Proof.
  induction pending as [|team rest IH];
    intros teamId individual t c individual' c' H t2 c2; [done|].
  cbn [repairTeams] in *. unfold bind at 1. unfold bind at 1 in H.
  destruct (repairRoles self teams teamId team requiredPositions individual t c)
    as [[[fixed ind1] c1]|] eqn:Hroles; [|done].
  destruct fixed; [done|].
  pose proof (repairRoles_false_any _ _ _ _ _ _ _ _ _ _ Hroles) as Hany.
  apply repairRoles_false in Hroles as [-> ->]. rewrite Hany.
  unfold bind at 1. unfold bind at 1 in H. unfold lift in *.
  destruct (Team.getPositionCount (players self) team "OF") as [count|]; [|done].
  destruct (count <? 3); [|by eapply IH].
  unfold bind at 1. unfold bind at 1 in H.
  destruct (fixMissingPosition self individual teams teamId "OF" t c)
    as [[[fixed ind2] c2']|] eqn:Hfix; [|done].
  destruct fixed; [done|].
  pose proof (fixMissingPosition_false_any _ _ _ _ _ _ _ _ _ Hfix) as Hany2.
  apply fixMissingPosition_false in Hfix as [-> ->].
  rewrite Hany2. by eapply IH.
Qed.

Lemma decodeIndividual_Some_decoded self individual teams :
  decodeIndividual self individual = Some teams -> teams = decoded self individual.
Proof.
  intros H. assert (Forall (fun cell => cell < numTeams self) individual) as Hall.
  { apply placePlayers_Some in H. by rewrite length_map, length_seq in H. }
  rewrite (decodeIndividual_decoded _ _ Hall) in H. congruence.
Qed.

(** A pass that ends the loop leaves the individual as it found it, and
    would end the loop on any tape without drawing. *)
Lemma repairPass_final self targetSize ind t c outcome ind' c' :
  repairPass self targetSize ind t c = Some ((outcome, ind'), c') ->
  outcome = AllCovered \/ outcome = Stuck ->
  ind' = ind /\ sizeGap (teamSizesOf self ind) <= 1 /\
  forall targetSize2 t2 c2,
    repairPass self targetSize2 ind t2 c2 = Some ((outcome, ind), c2).
Proof.
  intros H Hfinal. apply repairPass_spec in H as (teams & Hd & H). cbv zeta in H.
  pose proof (decodeIndividual_Some_decoded _ _ _ Hd) as ->.
  fold (teamSizesOf self ind) in H.
  destruct Hfinal as [-> | ->].
  - destruct H as (Hgap & Hcov & -> & ->). split; [done|]. split; [done|].
    intros targetSize2 t2 c2. unfold repairPass, bind, lift. rewrite Hd.
    fold (teamSizesOf self ind). apply Nat.ltb_ge in Hgap. rewrite Hgap.
    by rewrite Hcov.
  - destruct H as (Hgap & Hcov & Hrep & -> & ->). split; [done|]. split; [done|].
    intros targetSize2 t2 c2. unfold repairPass, bind, lift. rewrite Hd.
    fold (teamSizesOf self ind). apply Nat.ltb_ge in Hgap. rewrite Hgap.
    rewrite Hcov. unfold repairPositions in *.
    by rewrite (repairTeams_false_any _ _ _ _ _ _ _ _ _ Hrep t2 c2).
Qed.

Lemma repairLoop_settled self targetSize budget :
  forall ind t c repaired passes c',
  repairLoop self targetSize budget ind t c = Some ((repaired, passes), c') ->
  passes < budget ->
  sizeGap (teamSizesOf self repaired) <= 1 /\
  forall targetSize2 budget2 t2 c2,
    repairLoop self targetSize2 (S budget2) repaired t2 c2 = Some ((repaired, 1), c2).
Proof.
  induction budget as [|budget IH]; intros ind t c repaired passes c' H Hlt; [lia|].
  apply repairLoop_step in H as (outcome & ind1 & c1 & Hpass & H).
  assert (outcome = AllCovered \/ outcome = Stuck ->
          sizeGap (teamSizesOf self repaired) <= 1 /\
          forall targetSize2 budget2 t2 c2,
            repairLoop self targetSize2 (S budget2) repaired t2 c2
              = Some ((repaired, 1), c2)) as Hend.
  { intros Hfinal.
    assert (repaired = ind1) as -> by (by destruct Hfinal as [-> | ->]; destruct H).
    destruct (repairPass_final _ _ _ _ _ _ _ _ Hpass Hfinal) as (-> & Hgap & Hany).
    split; [done|]. intros targetSize2 budget2 t2 c2. cbn [repairLoop].
    unfold bind. rewrite Hany. by destruct Hfinal as [-> | ->]. }
  destruct outcome.
  - destruct H as (n & Hrest & ->). eapply IH; [exact Hrest|lia].
  - apply Hend. by left.
  - destruct H as (n & Hrest & ->). eapply IH; [exact Hrest|lia].
  - apply Hend. by right.
Qed.

(** X11. A repair that stopped before using up its budget has settled: the
    team sizes of the individual it leaves are within one of each other, and
    repairing that individual again returns it unchanged after one pass,
    without a draw. *)
Theorem repairIndividual_settles self ind t c repaired passes c' :
  repairLoop self (numPlayers self / numTeams self) maxIterations ind t c
    = Some ((repaired, passes), c') ->
  passes < maxIterations ->
  sizeGap (teamSizesOf self repaired) <= 1 /\
  forall t2 c2, repairIndividual self repaired t2 c2 = Some (repaired, c2).
Proof.
  intros H Hlt. destruct (repairLoop_settled _ _ _ _ _ _ _ _ _ H Hlt) as [Hgap Hany].
  split; [exact Hgap|]. intros t2 c2. unfold repairIndividual, bind, maxIterations.
  by rewrite Hany.
Qed.

Lemma repairIndividual_settles_witness :
  repairLoop pairLeague (numPlayers pairLeague / numTeams pairLeague) maxIterations
    [0; 0] zeroTape 0 = Some (([1; 0], 2), 1) /\
  2 < maxIterations /\
  sizeGap (teamSizesOf pairLeague [1; 0]) <= 1 /\
  forall t2 c2, repairIndividual pairLeague [1; 0] t2 c2 = Some ([1; 0], c2).
Proof.
  assert (2 < maxIterations) as Hlt by (unfold maxIterations; lia).
  split; [vm_compute; reflexivity|]. split; [exact Hlt|].
  refine (repairIndividual_settles pairLeague [0; 0] zeroTape 0 [1; 0] 2 1 _ Hlt).
  vm_compute. reflexivity.
Defined.

(** * Tournament selection *)

Lemma drawCompetitors_spec population fitnesses t : forall n c,
  population <> [] ->
  exists competitors,
    drawCompetitors n population fitnesses t c = Some (competitors, c + n) /\
    length competitors = n /\
    forall k competitor, competitors !! k = Some competitor ->
      sampled population fitnesses t c k = Some competitor.
Proof.
  intros n c Hne. revert c. induction n as [|n IH]; intros c.
  - exists []. cbn. rewrite Nat.add_0_r. split; [done|]. split; [done|].
    intros k competitor H. by rewrite lookup_nil in H.
  - assert (0 < length population) as Hpos by (destruct population; [done|cbn; lia]).
    pose proof (floor_scaled_lt (t c) _ Hpos) as Hlt.
    apply lookup_lt_is_Some in Hlt as [individual Hind].
    destruct (IH (S c)) as (rest & Hrest & Hlen & Hall).
    exists ((individual, default nan (fitnesses !! floor_scaled (t c) (length population)))
            :: rest).
    split; [|split].
    + cbn [drawCompetitors]. unfold bind, randomInt, random, ret, lift. cbn.
      rewrite Hind. unfold bind in Hrest. rewrite Hrest.
      by replace (S c + n) with (c + S n) by lia.
    + cbn. by rewrite Hlen.
    + intros [|k] competitor Hk.
      * cbn in Hk. injection Hk as <-. unfold sampled. rewrite Nat.add_0_r.
        cbn. by rewrite Hind.
      * cbn in Hk. apply Hall in Hk. unfold sampled in *.
        by replace (c + S k) with (S c + k) by lia.
Qed.

Lemma drawCompetitors_empty fitnesses t n c :
  drawCompetitors (S n) [] fitnesses t c = None.
Proof. reflexivity. Qed.

Lemma tournamentWinner_elem competitors winner :
  tournamentWinner competitors = Some winner -> winner ∈ competitors.
Proof.
  destruct competitors as [|first rest]; [done|]. unfold tournamentWinner.
  intros [= <-].
  assert (forall best, foldl (fun best c' => if sortsBefore c'.2 best.2 then c' else best)
                         best rest = best \/
                       foldl (fun best c' => if sortsBefore c'.2 best.2 then c' else best)
                         best rest ∈ rest) as H.
  { induction rest as [|x rest IH]; intros best; [by left|]. cbn [foldl].
    destruct (IH (if sortsBefore x.2 best.2 then x else best)) as [Heq|Hin].
    - rewrite Heq. destruct (sortsBefore x.2 best.2); [right; left|by left].
    - right. by right. }
  destruct (H first) as [Heq|Hin]; [rewrite Heq; left|by right].
Qed.

(** X12. [tournamentSelection] throws when the population is empty or the
    tournament has no round; otherwise it makes exactly one draw per round
    and returns one of the individuals it sampled, so a member of the
    population. *)
Theorem tournamentSelection_samples self population fitnesses tournamentSize t c :
  (population = [] \/ tournamentSize = 0 ->
   tournamentSelection self population fitnesses tournamentSize t c = None) /\
  (population <> [] -> 0 < tournamentSize ->
   exists winner k,
     tournamentSelection self population fitnesses tournamentSize t c
       = Some (winner, c + tournamentSize) /\
     k < tournamentSize /\
     fst <$> sampled population fitnesses t c k = Some winner /\
     winner ∈ population).
Proof.
  split.
  - intros [-> | ->].
    + destruct tournamentSize as [|n]; [reflexivity|].
      unfold tournamentSelection, bind. by rewrite drawCompetitors_empty.
    + reflexivity.
  - intros Hne Hpos.
    destruct (drawCompetitors_spec population fitnesses t tournamentSize c Hne)
      as (competitors & Hdraw & Hlen & Hall).
    destruct (tournamentWinner competitors) as [winner|] eqn:Hwin.
    + pose proof (tournamentWinner_elem _ _ Hwin) as Hin.
      apply list_elem_of_lookup in Hin as [k Hk].
      exists winner.1, k. split; [|split; [|split]].
      * unfold tournamentSelection, bind, lift, ret. by rewrite Hdraw, Hwin.
      * apply lookup_lt_Some in Hk. lia.
      * by rewrite (Hall _ _ Hk).
      * apply Hall in Hk. unfold sampled in Hk.
        destruct (population !! _) as [individual|] eqn:Hind; [|done].
        cbn in Hk. injection Hk as <-. by eapply list_elem_of_lookup_2.
    + destruct competitors; [cbn in Hlen; lia|done].
Qed.

Lemma tournamentSelection_samples_witness :
  [[0; 0]; [1; 0]] <> [] /\ 0 < 3 /\
  exists winner k,
    tournamentSelection pairLeague [[0; 0]; [1; 0]] [1%float; 0%float] 3 zeroTape 0
      = Some (winner, 0 + 3) /\
    k < 3 /\
    fst <$> sampled [[0; 0]; [1; 0]] [1%float; 0%float] zeroTape 0 k = Some winner /\
    winner ∈ [[0; 0]; [1; 0]].
Proof.
  assert ([[0; 0]; [1; 0]] <> ([] : list Individual)) as Hne by done.
  assert (0 < 3) as Hpos by lia.
  split; [exact Hne|]. split; [exact Hpos|].
  exact (proj2 (tournamentSelection_samples pairLeague [[0; 0]; [1; 0]]
                  [1%float; 0%float] 3 zeroTape 0) Hne Hpos).
Defined.

(** * The populations of [optimize] and the teams it returns *)

Lemma tournamentSelection_returns self population fitnesses n :
  population <> [] -> 0 < n ->
  returns (tournamentSelection self population fitnesses n)
          (fun winner => winner ∈ population).
Proof.
  intros Hne Hpos t c.
  destruct (drawCompetitors_spec population fitnesses t n c Hne)
    as (competitors & Hdraw & Hlen & Hall).
  destruct (tournamentWinner competitors) as [winner|] eqn:Hwin;
    [|destruct competitors; [cbn in Hlen; lia|done]].
  exists winner.1, (c + n). split.
  - unfold tournamentSelection, bind, lift, ret. by rewrite Hdraw, Hwin.
  - apply tournamentWinner_elem, list_elem_of_lookup in Hwin as [k Hk].
    apply Hall in Hk. unfold sampled in Hk.
    destruct (population !! _) as [individual|] eqn:Hind; [|done].
    cbn in Hk. injection Hk as <-. by eapply list_elem_of_lookup_2.
Qed.

Lemma createPopulation_returns self n :
  wf self -> 0 < numTeams self ->
  returns (createPopulation self n)
          (fun pop => length pop = n /\ Forall (keepsGroups self) pop).
Proof.
  intros Hwf Hpos. induction n as [|n IH]; cbn [createPopulation].
  - apply returns_ret. by split.
  - eapply returns_bind.
    + apply (createIndividual_returns self (keepsGroups self)).
      intros t c ind c' H.
      destruct (createIndividual_spec _ _ _ _ _ Hwf H) as (_ & Hg & Hv).
      split; [by apply Hv|done].
    + intros ind Hind. eapply returns_bind; [exact IH|].
      intros rest [Hlen Hall]. apply returns_ret. split; [cbn; by rewrite Hlen|].
      by constructor.
Qed.

Lemma offspring_returns self population fitnesses :
  wf self -> population <> [] -> Forall (keepsGroups self) population ->
  returns (parent1 <- tournamentSelection self population fitnesses 3;;
           parent2 <- tournamentSelection self population fitnesses 3;;
           '(offspring1, offspring2) <- crossover self parent1 parent2;;
           offspring1 <- mutate self offspring1;;
           offspring2 <- mutate self offspring2;;
           ret (offspring1, offspring2))
          (fun r => keepsGroups self r.1 /\ keepsGroups self r.2).
Proof.
  intros Hwf Hne Hall.
  assert (forall ind, keepsGroups self ind -> valid self ind) as Hv by (by intros ind []).
  pose proof (keepsGroups_free self) as Hfree.
  pose proof (fun ind g members v H => keepsGroups_group self ind g members v Hwf H)
    as Hgroup.
  rewrite Forall_forall in Hall.
  eapply returns_bind; [apply tournamentSelection_returns; [done|lia]|].
  intros parent1 Hp1. eapply returns_bind; [apply tournamentSelection_returns; [done|lia]|].
  intros parent2 Hp2.
  eapply returns_bind.
  { apply (crossover_returns self Hwf (keepsGroups self) Hv Hfree Hgroup parent1 parent2);
      by apply Hall. }
  intros [o1 o2] [Ho1 Ho2]. cbn [fst snd] in *.
  eapply returns_bind;
    [apply (mutate_returns self Hwf (keepsGroups self) Hv Hfree Hgroup o1 Ho1)|].
  intros m1 Hm1.
  eapply returns_bind;
    [apply (mutate_returns self Hwf (keepsGroups self) Hv Hfree Hgroup o2 Ho2)|].
  intros m2 Hm2. by apply returns_ret.
Qed.

Lemma fillPopulation_S self population fitnesses slots t c :
  fillPopulation self population fitnesses (S slots) t c
  = bind (parent1 <- tournamentSelection self population fitnesses 3;;
          parent2 <- tournamentSelection self population fitnesses 3;;
          '(offspring1, offspring2) <- crossover self parent1 parent2;;
          offspring1 <- mutate self offspring1;;
          offspring2 <- mutate self offspring2;;
          ret (offspring1, offspring2))
         (fun r =>
            match slots with
            | 0 => ret [r.1]
            | S slots' =>
                rest <- fillPopulation self population fitnesses slots';;
                ret (r.1 :: r.2 :: rest)
            end) t c.
Proof.
  cbn [fillPopulation]. unfold bind.
  destruct (tournamentSelection self population fitnesses 3 t c) as [[p1 c1]|]; [|done].
  destruct (tournamentSelection self population fitnesses 3 t c1) as [[p2 c2]|]; [|done].
  destruct (crossover self p1 p2 t c2) as [[[o1 o2] c3]|]; [|done].
  destruct (mutate self o1 t c3) as [[m1 c4]|]; [|done].
  destruct (mutate self o2 t c4) as [[m2 c5]|]; [|done].
  reflexivity.
Qed.

Lemma fillPopulation_returns self population fitnesses :
  wf self -> population <> [] -> Forall (keepsGroups self) population ->
  forall slots,
  returns (fillPopulation self population fitnesses slots)
          (fun r => length r = slots /\ Forall (keepsGroups self) r).
Proof.
  intros Hwf Hne Hall slots. induction slots as [slots IH] using lt_wf_ind.
  destruct slots as [|slots]; [apply returns_ret; by split|].
  intros t c. rewrite fillPopulation_S. revert t c.
  eapply returns_bind; [by apply offspring_returns|].
  intros [o1 o2] [Ho1 Ho2]. cbn [fst snd] in *.
  destruct slots as [|slots].
  - apply returns_ret. split; [done|]. constructor; [done|constructor].
  - eapply returns_bind; [apply (IH slots); lia|].
    intros rest [Hlen Hrest]. apply returns_ret.
    split; [cbn; by rewrite Hlen|]. constructor; [done|]. by constructor.
Qed.

Lemma generationStep_population self gen s t c s' c' :
  wf self -> 0 < populationSize self ->
  population_ok self s ->
  generationStep self gen s t c = Some (s', c') ->
  population_ok self s' /\
  exists best, bestIndividual s' = Some best /\ head (population s') = Some best.
Proof.
  intros Hwf Hsize (Hlen & Hall & Hbest) H.
  assert (population s <> []) as Hne.
  { intros Hnil. rewrite Hnil in Hlen. cbn in Hlen. lia. }
  unfold generationStep in H.
  apply bindM_Some in H as (fs & c1 & Hfs & H). apply liftM_Some in Hfs as [Hfs ->].
  apply bindM_Some in H as ([best bestFit] & c2 & Hupd & H).
  apply bindM_Some in H as (elite & c3 & Helite & H).
  apply liftM_Some in Helite as [Helite ->].
  apply bindM_Some in H as (offspring & c4 & Hfill & H).
  apply retM_Some in H as [-> ->].
  cbn in Helite. subst best.
  assert (keepsGroups self elite) as Helite.
  { destruct (mathMin fs <? bestFitness s)%float.
    - apply bindM_Some in Hupd as (ind & c5 & Hind & Hupd).
      apply liftM_Some in Hind as [Hind ->].
      apply retM_Some in Hupd as [Heq ->]. injection Heq as <- _.
      destruct (indexOf PrimFloat.eqb (mathMin fs) fs) as [i|]; [|done].
      cbn in Hind. rewrite Forall_forall in Hall. apply Hall.
      by eapply list_elem_of_lookup_2.
    - apply retM_Some in Hupd as [Heq ->]. injection Heq as Hb _. by apply Hbest. }
  pose proof (returns_Some _ _ _ _ _ _
                (fillPopulation_returns self (population s) fs Hwf Hne Hall
                   (populationSize self - 1)) Hfill) as [Hoff Hoffall].
  split; [|by exists elite].
  split; [cbn; rewrite Hoff; lia|]. split; [by constructor|].
  cbn. by intros ? [= <-].
Qed.

Lemma populations_upto self t c :
  wf self -> 0 < numTeams self -> 0 < populationSize self ->
  forall k s ck, stateAfter self k t c = Some (s, ck) ->
  population_ok self s /\
  (0 < k -> exists best,
     bestIndividual s = Some best /\ head (population s) = Some best).
Proof.
  intros Hwf Hteams Hsize. induction k as [|k IH]; intros s ck Hs.
  - unfold stateAfter in Hs. apply bindM_Some in Hs as (pop & c0 & Hpop & Hs).
    cbn [generationsFrom] in Hs. apply retM_Some in Hs as [-> _].
    pose proof (returns_Some _ _ _ _ _ _
                  (createPopulation_returns self (populationSize self) Hwf Hteams) Hpop)
      as [Hlen Hall].
    split; [|lia]. split; [done|]. split; [done|]. cbn. by intros.
  - apply stateAfter_S in Hs as (s0 & c0 & Hs0 & Hstep).
    destruct (IH _ _ Hs0) as [Hok _].
    destruct (generationStep_population _ _ _ _ _ _ _ Hwf Hsize Hok Hstep) as [Hok' Hhead].
    split; [done|]. by intros _.
Qed.

(** X13. In a run of [optimize] with at least one team, every population,
    the initial one and the one each generation builds, has [populationSize]
    individuals, each of them valid and with every co-assign group on one
    team; from the first generation on the population starts with a copy of
    the best individual recorded so far. *)
Theorem optimize_populations ps teamCount options t c k s ck :
  let self := newOptimizer ps teamCount options in
  0 < teamCount ->
  stateAfter self k t c = Some (s, ck) ->
  length (population s) = populationSize self /\
  Forall (fun ind => valid self ind /\ grouped self ind) (population s) /\
  (0 < k -> exists best,
     bestIndividual s = Some best /\ head (population s) = Some best).
Proof.
  intros self Hteams Hs.
  destruct (populations_upto self t c (newOptimizer_wf _ _ _) Hteams
              (orDefault_pos _ 300 ltac:(lia)) k s ck Hs) as [(Hlen & Hall & _) Hhead].
  split; [exact Hlen|]. split; [exact Hall|exact Hhead].
Qed.

Lemma optimize_populations_witness :
  0 < 2 /\
  exists s ck,
    stateAfter pairLeague 1 zeroTape 0 = Some (s, ck) /\
    length (population s) = populationSize pairLeague /\
    Forall (fun ind => valid pairLeague ind /\ grouped pairLeague ind) (population s) /\
    (0 < 1 -> exists best,
       bestIndividual s = Some best /\ head (population s) = Some best).
Proof.
  assert (0 < 2) as Hpos by lia.
  assert (exists s ck, stateAfter pairLeague 1 zeroTape 0 = Some (s, ck))
    as (s & ck & Hs) by (eexists _, _; vm_compute; reflexivity).
  split; [exact Hpos|]. exists s, ck. split; [exact Hs|].
  exact (optimize_populations [examplePlayer "OF" None; examplePlayer "OF" None]
           2 (mkOptions (Some 2) (Some 1) true) zeroTape 0 1 s ck Hpos Hs).
Defined.

Lemma decoded_assignment_ok self individual :
  wf self -> keepsGroups self individual ->
  assignment_ok self (decoded self individual).
Proof.
  intros Hwf [[Hlen Hall] Hg]. split_and!.
  - apply decoded_length.
  - intros i Hi. assert (is_Some (individual !! i)) as [t Ht]
      by (apply lookup_lt_is_Some; lia).
    rewrite Forall_lookup in Hall. pose proof (Hall _ _ Ht) as Hlt. cbn in Hlt.
    exists t, (Team.mk t (indicesOnTeam t 0 individual)).
    split; [by apply decoded_lookup|]. split; [by apply indicesOnTeam_here|].
    intros t' tm' [_ ->]%decoded_lookup Hi'. cbn in Hi'.
    apply indicesOnTeam_here in Hi'. congruence.
  - intros t tm i Htm Hi. rewrite <- Hlen. by eapply decoded_member_lt.
  - intros g members Hin.
    destruct Hwf as [Hn (Hmem & _ & Hne)].
    destruct members as [|i0 members'] eqn:Hm; [by destruct (Hne g [] Hin)|].
    rewrite <- Hm in *. assert (i0 ∈ members) as Hi0 by (rewrite Hm; left).
    assert (i0 < length individual) as Hlt.
    { destruct (Hmem g members i0 Hin Hi0) as (p & Hp & _).
      apply lookup_lt_Some in Hp. lia. }
    apply lookup_lt_is_Some in Hlt as [t Ht].
    rewrite Forall_lookup in Hall. pose proof (Hall _ _ Ht) as Htlt. cbn in Htlt.
    exists t, (Team.mk t (indicesOnTeam t 0 individual)).
    split; [by apply decoded_lookup|]. intros i Hi. cbn.
    apply indicesOnTeam_here. rewrite <- Ht. by apply (Hg g members).
Qed.

(** X14. Whenever [optimize], with at least one team, returns, the teams it
    returns are a proper assignment: [numTeams] teams, every player a member
    of exactly one of them, and the members of each co-assign group members
    of the same team. *)
Theorem optimize_assignment ps teamCount options t c teams log c' :
  let self := newOptimizer ps teamCount options in
  0 < teamCount ->
  optimize self t c = Some ((teams, log), c') ->
  assignment_ok self teams.
Proof.
  intros self Hteams H. pose proof (newOptimizer_wf ps teamCount options) as Hwf.
  fold self in Hwf. unfold optimize in H.
  apply bindM_Some in H as (st & c1 & Hrun & H).
  apply bindM_Some in H as (best & c2 & Hbest & H).
  apply liftM_Some in Hbest as [Hbest ->].
  apply bindM_Some in H as (decodedTeams & c3 & Hdec & H).
  apply liftM_Some in Hdec as [Hdec ->].
  apply retM_Some in H as [Heq ->]. injection Heq as <- _.
  destruct (populations_upto self t c Hwf Hteams (orDefault_pos _ 300 ltac:(lia))
              (generations self) st c1 Hrun) as [(_ & _ & Hok) _].
  specialize (Hok best Hbest).
  rewrite (decodeIndividual_valid _ _ (proj1 Hok)) in Hdec. injection Hdec as <-.
  by apply decoded_assignment_ok.
Qed.

Lemma optimize_assignment_witness :
  0 < 2 /\
  exists teams log c',
    optimize pairLeague zeroTape 0 = Some ((teams, log), c') /\
    assignment_ok pairLeague teams.
Proof.
  assert (0 < 2) as Hpos by lia.
  assert (exists teams log c', optimize pairLeague zeroTape 0 = Some ((teams, log), c'))
    as (teams & log & c' & Hrun) by (eexists _, _, _; vm_compute; reflexivity).
  split; [exact Hpos|]. exists teams, log, c'. split; [exact Hrun|].
  exact (optimize_assignment [examplePlayer "OF" None; examplePlayer "OF" None]
           2 (mkOptions (Some 2) (Some 1) true) zeroTape 0 teams log c' Hpos Hrun).
Defined.

(** * The teams together hold the players, each once *)

Lemma members_insert teams t tm ref :
  teams !! t = Some tm ->
  concat (map Team.players (<[t := Team.addPlayer tm ref]> teams))
  ≡ₚ ref :: concat (map Team.players teams).
Proof.
  revert t. induction teams as [|x teams IH]; intros [|t] H; try done.
  - cbn in H. injection H as ->.
    change (<[0:=Team.addPlayer tm ref]> (tm :: teams))
      with (Team.addPlayer tm ref :: teams).
    cbn [map concat Team.addPlayer Team.players].
    rewrite <- app_assoc. cbn. rewrite <- Permutation_middle. done.
  - change (<[S t:=Team.addPlayer tm ref]> (x :: teams))
      with (x :: <[t:=Team.addPlayer tm ref]> teams).
    cbn [map concat]. rewrite (IH t H). by rewrite <- Permutation_middle.
Qed.

Lemma placePlayers_members cells : forall k teams placed,
  placePlayers k cells teams = Some placed ->
  concat (map Team.players placed)
  ≡ₚ concat (map Team.players teams) ++ seq k (length cells).
Proof.
  induction cells as [|cell cells IH]; intros k teams placed H.
  - cbn in H. injection H as <-. cbn. by rewrite app_nil_r.
  - cbn [placePlayers] in H. destruct (teams !! cell) as [tm|] eqn:Htm; [|done].
    cbn [mbind option_bind] in H. apply IH in H.
    rewrite H, (members_insert _ _ _ _ Htm). cbn [length seq].
    by rewrite <- Permutation_middle.
Qed.

Lemma members_new n k : concat (map Team.players (map Team.new (seq k n))) = [].
Proof. revert k. induction n as [|n IH]; intros k; [done|]. cbn. apply IH. Qed.

Lemma rosters_concat roster teams rosters d :
  mapM (Team.deref roster) teams = Some rosters ->
  concat rosters
  = (fun i => default d (roster !! i)) <$> concat (map Team.players teams).
Proof.
  intros Hm%mapM_Some. induction Hm as [|tm ps teams rosters Hps _ IH]; [done|].
  cbn [map concat]. rewrite fmap_app, <- IH. f_equal.
  unfold Team.deref in Hps. apply mapM_Some in Hps.
  clear -Hps. induction Hps as [|i p idxs ps Hi _ IHps]; [done|].
  cbn. by rewrite Hi, <- IHps.
Qed.

Lemma lookup_all_seq {A} (l : list A) d :
  (fun i => default d (l !! i)) <$> seq 0 (length l) = l.
Proof.
  apply list_eq. intros i. rewrite list_lookup_fmap.
  destruct (decide (i < length l)) as [Hlt|Hge].
  - rewrite lookup_seq_lt by done. cbn.
    destruct (lookup_lt_is_Some_2 l i Hlt) as [x Hx]. by rewrite Hx.
  - rewrite lookup_seq_ge by lia. cbn. symmetry. apply lookup_ge_None_2. lia.
Qed.

Lemma rosters_permutation self individual teams rosters :
  length individual = length (players self) ->
  decodeIndividual self individual = Some teams ->
  mapM (Team.deref (players self)) teams = Some rosters ->
  concat rosters ≡ₚ players self.
Proof.
  intros Hlen Hd Hr.
  rewrite (rosters_concat _ _ _ (examplePlayer "" None) Hr).
  apply placePlayers_members in Hd. rewrite members_new in Hd. cbn in Hd.
  rewrite Hd, Hlen. by rewrite lookup_all_seq.
Qed.

(** X15. Decoding redistributes the players and nothing else: for an
    individual with one cell per player, the members of the decoded teams,
    taken together, are the players of the optimizer, each exactly once
    (a permutation of the player array). *)
Theorem decodeIndividual_permutes_players self individual teams rosters :
  length individual = length (players self) ->
  decodeIndividual self individual = Some teams ->
  mapM (Team.deref (players self)) teams = Some rosters ->
  concat rosters ≡ₚ players self /\
  concat (map Team.players teams) ≡ₚ seq 0 (length (players self)).
Proof.
  intros Hlen Hd Hr. split; [by eapply rosters_permutation|].
  apply placePlayers_members in Hd. rewrite members_new in Hd. cbn in Hd.
  by rewrite Hd, Hlen.
Qed.

Lemma decodeIndividual_permutes_players_witness :
  let rosters := [[examplePlayer "P" None];
                  [examplePlayer "SS" (Some 1%positive);
                   examplePlayer "C" (Some 1%positive)]] in
  length [0; 1; 1] = length (players carpoolLeague) /\
  decodeIndividual carpoolLeague [0; 1; 1] = Some (decoded carpoolLeague [0; 1; 1]) /\
  mapM (Team.deref (players carpoolLeague)) (decoded carpoolLeague [0; 1; 1])
    = Some rosters /\
  concat rosters ≡ₚ players carpoolLeague /\
  concat (map Team.players (decoded carpoolLeague [0; 1; 1]))
    ≡ₚ seq 0 (length (players carpoolLeague)).
Proof.
  cbv zeta. split; [reflexivity|]. split; [reflexivity|]. split; [reflexivity|].
  exact (decodeIndividual_permutes_players carpoolLeague [0; 1; 1]
           (decoded carpoolLeague [0; 1; 1])
           [[examplePlayer "P" None];
            [examplePlayer "SS" (Some 1%positive); examplePlayer "C" (Some 1%positive)]]
           eq_refl eq_refl eq_refl).
Defined.

(** * The coach penalty *)

Lemma filter_length_perm {A} (f : A -> bool) (l k : list A) :
  l ≡ₚ k -> length (List.filter f l) = length (List.filter f k).
Proof.
  induction 1 as [|x l k _ IH|x y l|l k m _ IH1 _ IH2]; cbn; [done| | |congruence].
  - destruct (f x); cbn; by rewrite IH.
  - by destruct (f x), (f y).
Qed.

Lemma filter_length_concat {A} (f : A -> bool) (ls : list (list A)) :
  length (List.filter f (concat ls))
  = sum_list (map (fun l => length (List.filter f l)) ls).
Proof.
  induction ls as [|l ls IH]; [done|]. cbn [concat map sum_list].
  by rewrite List.filter_app, length_app, IH.
Qed.

Lemma coachPenalty_enough totalCoaches teams counts :
  0 < totalCoaches -> teams <= totalCoaches ->
  (0 <= coachPenaltyOf totalCoaches teams counts)%Z /\
  (30 * (Z.of_nat (sum_list counts) - Z.of_nat (length counts))
   <= coachPenaltyOf totalCoaches teams counts)%Z /\
  (coachPenaltyOf totalCoaches teams counts = 0%Z <-> Forall (fun n => n = 1) counts).
Proof.
  intros Hpos Hle. unfold coachPenaltyOf.
  apply Nat.ltb_lt in Hpos as ->. apply Nat.leb_le in Hle as ->.
  match goal with |- context [foldl ?f 0%Z counts] => set (step := f) end.
  assert (forall l acc, foldl step acc l = (acc + foldl step 0%Z l)%Z) as Hshift.
  { induction l as [|n l IH]; intros acc; cbn [foldl]; [lia|].
    rewrite IH. rewrite (IH (step 0%Z n)). unfold step.
    destruct (n =? 0); [lia|]. destruct (1 <? n); lia. }
  induction counts as [|n counts (IH0 & IH1 & IH2)]; cbn [foldl length].
  - split; [lia|]. split; [cbn; lia|]. split; [constructor|done].
  - change (sum_list (n :: counts)) with (n + sum_list counts).
    rewrite Hshift. rewrite Forall_cons, <- IH2. unfold step at 1 3 5.
    destruct (Nat.eqb_spec n 0) as [->|Hn0]; [lia|].
    destruct (Nat.ltb_spec 1 n); lia.
Qed.

Lemma coachPenalty_few totalCoaches teams counts :
  totalCoaches < teams ->
  (0 <= coachPenaltyOf totalCoaches teams counts)%Z /\
  (0 < totalCoaches ->
   coachPenaltyOf totalCoaches teams counts = 0%Z <-> Forall (fun n => n <= 1) counts).
Proof.
  intros Hlt. unfold coachPenaltyOf.
  destruct (Nat.ltb_spec 0 totalCoaches) as [Hpos|Hzero]; [|split; [lia|lia]].
  destruct (Nat.leb_spec teams totalCoaches) as [|_]; [lia|].
  match goal with |- context [foldl ?f 0%Z counts] => set (step := f) end.
  assert (forall l acc, foldl step acc l = (acc + foldl step 0%Z l)%Z) as Hshift.
  { induction l as [|n l IH]; intros acc; cbn [foldl]; [lia|].
    rewrite IH. rewrite (IH (step 0%Z n)). unfold step. destruct (1 <? n); lia. }
  induction counts as [|n counts (IH0 & IH1)]; cbn [foldl].
  - split; [lia|]. intros _. split; [constructor|done].
  - rewrite Hshift. specialize (IH1 Hpos). unfold step at 1 3. split.
    + destruct (Nat.ltb_spec 1 n); lia.
    + intros _. rewrite Forall_cons, <- IH1. destruct (Nat.ltb_spec 1 n); lia.
Qed.

(** X16. The coach penalty of [evaluate], for an individual with one cell
    per player: the coach counts of the teams add up to the number of
    coaches; the penalty is never negative; it is zero exactly when no team
    has two coaches and, if there are at least as many coaches as teams,
    every team has one; and with more coaches than teams it is at least 30
    for every coach above the number of teams, so it cannot be zero. *)
Theorem coachPenalty_spread self individual teams rosters :
  length individual = length (players self) ->
  decodeIndividual self individual = Some teams ->
  mapM (Team.deref (players self)) teams = Some rosters ->
  let totalCoaches := length (List.filter isCoach (players self)) in
  let penalty := coachPenaltyOf totalCoaches (numTeams self) (coachCounts rosters) in
  sum_list (coachCounts rosters) = totalCoaches /\
  length (coachCounts rosters) = numTeams self /\
  (0 <= penalty)%Z /\
  (penalty = 0%Z <->
   Forall (fun n => n <= 1) (coachCounts rosters) /\
   (0 < totalCoaches -> numTeams self <= totalCoaches ->
    Forall (fun n => n = 1) (coachCounts rosters))) /\
  (30 * (Z.of_nat totalCoaches - Z.of_nat (numTeams self)) <= penalty)%Z.
Proof.
  intros Hlen Hd Hr totalCoaches penalty.
  assert (sum_list (coachCounts rosters) = totalCoaches) as Hsum.
  { unfold coachCounts. rewrite <- filter_length_concat.
    apply filter_length_perm. by eapply rosters_permutation. }
  assert (length (coachCounts rosters) = numTeams self) as Hcount.
  { unfold coachCounts. rewrite length_map.
    apply mapM_Some, Forall2_length in Hr. rewrite <- Hr.
    rewrite (decodeIndividual_Some_decoded _ _ _ Hd). apply decoded_length. }
  split; [exact Hsum|]. split; [exact Hcount|].
  destruct (decide (0 < totalCoaches)) as [Hpos|Hzero].
  - destruct (decide (numTeams self <= totalCoaches)) as [Hle|Hgt].
    + destruct (coachPenalty_enough totalCoaches (numTeams self) (coachCounts rosters)
                  Hpos Hle) as (H0 & Hlow & Hiff).
      fold penalty in H0, Hlow, Hiff. rewrite Hsum, Hcount in Hlow.
      split; [done|]. split; [|done]. rewrite Hiff. split.
      * intros Hone. split; [|done]. eapply Forall_impl; [exact Hone|]. cbn. lia.
      * intros [_ Hone]. by apply Hone.
    + destruct (coachPenalty_few totalCoaches (numTeams self) (coachCounts rosters)
                  ltac:(lia)) as (H0 & Hiff).
      fold penalty in H0, Hiff. split; [done|]. split; [|lia].
      rewrite (Hiff Hpos). split; [|tauto]. intros H. split; [done|]. lia.
  - assert (penalty = 0%Z) as Hp.
    { unfold penalty, coachPenaltyOf.
      destruct (Nat.ltb_spec 0 totalCoaches); [lia|done]. }
    rewrite Hp. split; [lia|]. split; [|lia]. split; [|done]. intros _.
    split; [|lia].
    assert (sum_list (coachCounts rosters) = 0) as Hs0 by lia.
    clear -Hs0. induction (coachCounts rosters) as [|n l IH]; [constructor|].
    cbn in Hs0. constructor; [lia|]. apply IH. lia.
Qed.

Lemma coachPenalty_spread_witness :
  let rosters := [[examplePlayer "P" None];
                  [examplePlayer "OF" None; examplePlayer "OF" None]] in
  length [0; 1; 1] = length (players smallLeague) /\
  decodeIndividual smallLeague [0; 1; 1] = Some (decoded smallLeague [0; 1; 1]) /\
  mapM (Team.deref (players smallLeague)) (decoded smallLeague [0; 1; 1])
    = Some rosters /\
  sum_list (coachCounts rosters) = 0.
Proof.
  cbv zeta. split; [reflexivity|]. split; [reflexivity|]. split; [reflexivity|].
  exact (proj1 (coachPenalty_spread smallLeague [0; 1; 1]
                  (decoded smallLeague [0; 1; 1])
                  [[examplePlayer "P" None];
                   [examplePlayer "OF" None; examplePlayer "OF" None]]
                  eq_refl eq_refl eq_refl)).
Defined.

(** * Roles in short supply *)

Lemma roleCoveragePenalty_role ps pos :
  pos ∈ requiredPositions ->
  (10000 * (1 - Z.of_nat (positionCount pos ps)) <= roleCoveragePenalty ps)%Z.
Proof.
  intros Hpos. unfold roleCoveragePenalty, missingRoles.
  destruct (Nat.ltb_spec (positionCount pos ps) 1) as [Hlt|Hge]; [|lia].
  assert (pos ∈ List.filter (fun p => positionCount p ps <? 1) requiredPositions) as Hin.
  { apply filter_elem_of. split; [done|]. by apply Nat.ltb_lt. }
  destruct (List.filter _ requiredPositions); [by apply elem_of_nil in Hin|].
  cbn [length]. lia.
Qed.

Lemma roleCoveragePenalty_outfield ps :
  (5000 * (3 - Z.of_nat (positionCount "OF" ps)) <= roleCoveragePenalty ps)%Z.
Proof. unfold roleCoveragePenalty. lia. Qed.

Lemma sumZ_lower (f : list Player -> Z) (bound : Z) (count : list Player -> nat)
    (rosters : list (list Player)) :
  (forall ps, bound * (1 - Z.of_nat (count ps)) <= f ps)%Z ->
  (bound * (Z.of_nat (length rosters) - Z.of_nat (sum_list (map count rosters)))
   <= sumZ (map f rosters))%Z.
Proof.
  intros Hf. unfold sumZ. induction rosters as [|ps rosters IH]; [cbn; lia|].
  cbn [map foldr length].
  change (sum_list (count ps :: map count rosters))
    with (count ps + sum_list (map count rosters)).
  specialize (Hf ps). lia.
Qed.

Lemma sumZ_lower3 (f : list Player -> Z) (bound : Z) (count : list Player -> nat)
    (rosters : list (list Player)) :
  (forall ps, bound * (3 - Z.of_nat (count ps)) <= f ps)%Z ->
  (bound * (3 * Z.of_nat (length rosters) - Z.of_nat (sum_list (map count rosters)))
   <= sumZ (map f rosters))%Z.
Proof.
  intros Hf. unfold sumZ. induction rosters as [|ps rosters IH]; [cbn; lia|].
  cbn [map foldr length].
  change (sum_list (count ps :: map count rosters))
    with (count ps + sum_list (map count rosters)).
  specialize (Hf ps). lia.
Qed.

(** X17. Roles in short supply cost every assignment: for an individual
    with one cell per player, the role coverage penalty of [evaluate] is at
    least 10000 for every team beyond the number of players of a required
    role, and at least 5000 for every outfielder the league lacks to give
    three to each team.  So with fewer players of a required role than teams,
    or fewer than three outfielders a team, no individual is free of
    penalty. *)
Theorem roleCoveragePenalty_short_supply self individual teams rosters :
  length individual = length (players self) ->
  decodeIndividual self individual = Some teams ->
  mapM (Team.deref (players self)) teams = Some rosters ->
  (forall pos, pos ∈ requiredPositions ->
     (10000 * (Z.of_nat (numTeams self) - Z.of_nat (positionCount pos (players self)))
      <= sumZ (map roleCoveragePenalty rosters))%Z) /\
  (5000 * (3 * Z.of_nat (numTeams self) - Z.of_nat (positionCount "OF" (players self)))
   <= sumZ (map roleCoveragePenalty rosters))%Z.
Proof.
  intros Hlen Hd Hr.
  assert (length rosters = numTeams self) as Hcount.
  { apply mapM_Some, Forall2_length in Hr. rewrite <- Hr.
    rewrite (decodeIndividual_Some_decoded _ _ _ Hd). apply decoded_length. }
  assert (forall pos, sum_list (map (positionCount pos) rosters)
                      = positionCount pos (players self)) as Hsum.
  { intros pos. unfold positionCount. rewrite <- filter_length_concat.
    apply filter_length_perm. by eapply rosters_permutation. }
  split.
  - intros pos Hpos. rewrite <- Hcount, <- (Hsum pos).
    apply sumZ_lower. intros ps. by apply roleCoveragePenalty_role.
  - rewrite <- Hcount, <- (Hsum "OF"%string).
    apply sumZ_lower3. intros ps. apply roleCoveragePenalty_outfield.
Qed.

Lemma roleCoveragePenalty_short_supply_witness :
  let rosters := [[examplePlayer "P" None];
                  [examplePlayer "OF" None; examplePlayer "OF" None]] in
  length [0; 1; 1] = length (players smallLeague) /\
  decodeIndividual smallLeague [0; 1; 1] = Some (decoded smallLeague [0; 1; 1]) /\
  mapM (Team.deref (players smallLeague)) (decoded smallLeague [0; 1; 1])
    = Some rosters /\
  (5000 * (3 * Z.of_nat (numTeams smallLeague)
           - Z.of_nat (positionCount "OF" (players smallLeague)))
   <= sumZ (map roleCoveragePenalty rosters))%Z.
Proof.
  cbv zeta. split; [reflexivity|]. split; [reflexivity|]. split; [reflexivity|].
  exact (proj2 (roleCoveragePenalty_short_supply smallLeague [0; 1; 1]
                  (decoded smallLeague [0; 1; 1])
                  [[examplePlayer "P" None];
                   [examplePlayer "OF" None; examplePlayer "OF" None]]
                  eq_refl eq_refl eq_refl)).
Defined.

(** * One notion of playing a role *)

(** X18. The three tests of the code for "this player can fill this role"
    agree: [Player.canPlayPosition], the filter of [Team.getPositionCount]
    and the test inlined in [swapPositionPlayer] accept the same players, so
    the players a donor team is counted for are the players a swap may take.
    A center fielder counts for both CF and OF: the OF head count of a team
    is its CF head count plus its number of plain outfielders. *)
Theorem position_tests_agree :
  (forall p pos,
     canPlayPosition p pos = matchesPosition pos p /\
     isMatch pos p = matchesPosition pos p) /\
  (forall ps,
     positionCount "OF" ps
     = positionCount "CF" ps
       + length (List.filter (fun p => String.eqb (position p) "OF") ps)).
Proof.
  split.
  - intros p pos. unfold canPlayPosition, isMatch, matchesPosition, isOutfielder.
    destruct (String.eqb_spec pos "OF") as [->|Hne]; cbn [andb]; [|done].
    destruct (String.eqb_spec (position p) "CF") as [Hcf|Hcf]; cbn [orb]; [done|].
    by destruct (String.eqb (position p) "OF").
  - intros ps. unfold positionCount, matchesPosition, isOutfielder. cbn.
    induction ps as [|p ps IH]; [done|]. cbn [List.filter].
    destruct (String.eqb_spec (position p) "CF") as [Hcf|Hcf].
    + rewrite Hcf. cbn. rewrite IH. done.
    + cbn [orb]. destruct (String.eqb (position p) "OF"); cbn [length]; rewrite IH; lia.
Qed.

(** * What a role move does to the team sizes *)

Lemma donorSearch_true self ofMin roleMin teams needy pos pending :
  forall k individual t c individual' c',
  donorSearch self ofMin roleMin teams needy pos k pending individual t c
    = Some ((true, individual'), c') ->
  exists d, d <> needy /\ takesFrom self individual pos d needy individual' /\ c' = S c.
Proof.
  intros k individual t c individual' c' H.
  apply donorSearch_spec in H as [(_ & -> & d & Hel & Htake & _)|(? & _)]; [|done].
  destruct Hel as (tm & n & _ & Hne & _). by exists (k + d).
Qed.

Lemma fixMissingPosition_true self individual teams needy pos t c individual' c' :
  fixMissingPosition self individual teams needy pos t c
    = Some ((true, individual'), c') ->
  exists d, d <> needy /\ takesFrom self individual pos d needy individual' /\ c' = S c.
Proof.
  unfold fixMissingPosition. intros H.
  apply bindM_Some in H as ([moved ind1] & c1 & Hfirst & H). destruct moved.
  - apply retM_Some in H as [[= <-] ->]. by eapply donorSearch_true.
  - apply donorSearch_spec in Hfirst as [(? & _)|(_ & -> & -> & _)]; [done|].
    by eapply donorSearch_true.
Qed.

(** X19. A successful [fixMissingPosition] makes one draw and takes one
    player of the role, of no group, from a team other than the needy one:
    that team ends one player smaller, the needy team one player larger, and
    every other team keeps its size.  (A role move can therefore undo the
    balance of the sizes.) *)
Theorem fixMissingPosition_sizes self individual teams needy pos t c individual' c' :
  needy < numTeams self ->
  fixMissingPosition self individual teams needy pos t c
    = Some ((true, individual'), c') ->
  c' = S c /\
  exists donor,
    donor <> needy /\
    takesFrom self individual pos donor needy individual' /\
    teamSizesOf self individual'
    = <[needy := S (length (indicesOnTeam needy 0 individual))]>
        (<[donor := length (indicesOnTeam donor 0 individual) - 1]>
           (teamSizesOf self individual)).
Proof.
  intros Hneedy H. apply fixMissingPosition_true in H as (d & Hne & Htake & ->).
  split; [done|]. exists d. split; [done|]. split; [done|].
  destruct Htake as (i & p & Hi & _ & _ & _ & ->).
  by apply teamSizesOf_insert.
Qed.

Lemma fixMissingPosition_sizes_witness :
  0 < numTeams spareLeague /\
  fixMissingPosition spareLeague [0; 1; 1] (decoded spareLeague [0; 1; 1]) 0 "SS"
    zeroTape 0 = Some ((true, [0; 0; 1]), 1) /\
  exists donor,
    donor <> 0 /\
    takesFrom spareLeague [0; 1; 1] "SS" donor 0 [0; 0; 1] /\
    teamSizesOf spareLeague [0; 0; 1]
    = <[0 := S (length (indicesOnTeam 0 0 [0; 1; 1]))]>
        (<[donor := length (indicesOnTeam donor 0 [0; 1; 1]) - 1]>
           (teamSizesOf spareLeague [0; 1; 1])).
Proof.
  assert (0 < numTeams spareLeague) as Hpos by (cbn; lia).
  split; [exact Hpos|]. split; [reflexivity|].
  exact (proj2 (fixMissingPosition_sizes spareLeague [0; 1; 1]
                  (decoded spareLeague [0; 1; 1]) 0 "SS" zeroTape 0 [0; 0; 1] 1
                  Hpos eq_refl)).
Defined.

(** * What [crossover] exchanges *)

Lemma swapSegment_mixed self p1 p2 idxs : forall o,
  (forall i, i ∈ idxs -> isCoAssigned (coAssignGroups self) i = false) ->
  mixedFrom self p1 p2 o.1 o.2 ->
  let o' := foldl (fun o idx =>
                     match o.1 !! idx, o.2 !! idx with
                     | Some a, Some b => (<[idx:=b]> o.1, <[idx:=a]> o.2)
                     | _, _ => o
                     end) o idxs in
  mixedFrom self p1 p2 o'.1 o'.2.
Proof.
  induction idxs as [|idx rest IH]; intros o Hfree Hmix; cbn [foldl]; [done|].
  apply IH; [intros i Hi; apply Hfree; by right|].
  destruct (o.1 !! idx) as [a|] eqn:Ha; [|done].
  destruct (o.2 !! idx) as [b|] eqn:Hb; [|done]. cbn [fst snd].
  destruct Hmix as (Hl1 & Hl2 & Hcells). split; [by rewrite length_insert|].
  split; [by rewrite length_insert|]. intros i.
  destruct (decide (i = idx)) as [->|Hne].
  - rewrite !list_lookup_insert_eq by (by eapply lookup_lt_Some).
    destruct (Hcells idx) as [[H1 H2]|(_ & H1 & H2)].
    + right. split; [apply Hfree; left|]. by rewrite <- H1, <- H2, Ha, Hb.
    + left. by rewrite <- H1, <- H2, Ha, Hb.
  - rewrite !list_lookup_insert_ne by done. apply Hcells.
Qed.

Lemma mixedFrom_refl self p1 p2 : mixedFrom self p1 p2 p1 p2.
Proof. split; [done|]. split; [done|]. intros i. by left. Qed.

(** X20. [crossover], on parents with one cell per player, first exchanges
    between the two parents the cells of some players, all of no group (every
    cell of an offspring is the cell of one of the parents at the same index,
    and the cells of grouped players are never exchanged), and then repairs
    the two results one after the other.  When the first draw is 0.7 or
    more, nothing is exchanged: the offspring are the repaired parents. *)
Theorem crossover_mixes self p1 p2 t c offspring1 offspring2 c' :
  length p1 = numPlayers self -> length p2 = numPlayers self ->
  crossover self p1 p2 t c = Some ((offspring1, offspring2), c') ->
  exists m1 m2 c1 c2,
    mixedFrom self p1 p2 m1 m2 /\
    repairIndividual self m1 t c1 = Some (offspring1, c2) /\
    repairIndividual self m2 t c2 = Some (offspring2, c') /\
    (draw_below (t c) 7 10 = false -> m1 = p1 /\ m2 = p2 /\ c1 = S c).
Proof.
  intros Hl1 Hl2 H. unfold crossover in H.
  apply bindM_Some in H as (doSwap & c0 & Hdraw & H).
  apply randomBelow_Some in Hdraw as [-> ->].
  apply bindM_Some in H as ([m1 m2] & c1 & Hmix & H).
  apply bindM_Some in H as (o1 & c2 & Hr1 & H).
  apply bindM_Some in H as (o2 & c3 & Hr2 & H).
  apply retM_Some in H as [[= <- <-] ->].
  exists m1, m2, c1, c2.
  assert (mixedFrom self p1 p2 m1 m2 /\
          (draw_below (t c) 7 10 = false -> m1 = p1 /\ m2 = p2 /\ c1 = S c))
    as [Hmixed Hskip]; [|by split_and!].
  destruct (draw_below (t c) 7 10).
  - split; [|done].
    destruct (2 <? length (nonCoAssignIndices self)).
    + apply bindM_Some in Hmix as (point1 & c4 & _ & Hmix).
      apply bindM_Some in Hmix as (k & c5 & _ & Hmix).
      apply retM_Some in Hmix as [Heq _]. unfold swapSegment in Heq.
      pose proof (swapSegment_mixed self p1 p2
                    (take (point1 + k - point1) (drop point1 (nonCoAssignIndices self)))
                    (p1, p2)) as Hseg.
      cbv zeta in Hseg. rewrite <- Heq in Hseg. apply Hseg; [|apply mixedFrom_refl].
      intros i Hi. apply list_elem_of_lookup in Hi as [j Hj].
      apply lookup_take_Some in Hj as [Hj _]. rewrite lookup_drop in Hj.
      apply list_elem_of_lookup_2 in Hj. unfold nonCoAssignIndices in Hj.
      apply filter_elem_of in Hj as [_ Hfree]. by apply negb_true_iff.
    + apply retM_Some in Hmix as [[= -> ->] _]. apply mixedFrom_refl.
  - apply retM_Some in Hmix as [[= -> ->] ->]. split; [apply mixedFrom_refl|done].
Qed.

Lemma crossover_mixes_witness :
  length [0; 1; 1] = numPlayers smallLeague /\
  length [1; 0; 0] = numPlayers smallLeague /\
  exists offspring1 offspring2 c',
    crossover smallLeague [0; 1; 1] [1; 0; 0] zeroTape 0
      = Some ((offspring1, offspring2), c') /\
    exists m1 m2 c1 c2,
      mixedFrom smallLeague [0; 1; 1] [1; 0; 0] m1 m2 /\
      repairIndividual smallLeague m1 zeroTape c1 = Some (offspring1, c2) /\
      repairIndividual smallLeague m2 zeroTape c2 = Some (offspring2, c') /\
      (draw_below (zeroTape 0) 7 10 = false ->
       m1 = [0; 1; 1] /\ m2 = [1; 0; 0] /\ c1 = 1).
Proof.
  assert (exists offspring1 offspring2 c',
            crossover smallLeague [0; 1; 1] [1; 0; 0] zeroTape 0
              = Some ((offspring1, offspring2), c')) as (o1 & o2 & c' & Hrun)
    by (eexists _, _, _; vm_compute; reflexivity).
  split; [reflexivity|]. split; [reflexivity|]. exists o1, o2, c'.
  split; [exact Hrun|].
  exact (crossover_mixes smallLeague [0; 1; 1] [1; 0; 0] zeroTape 0 o1 o2 c'
           eq_refl eq_refl Hrun).
Defined.

(** * How many progress events *)

Lemma events_silent self t c :
  onProgress self = false ->
  forall k s ck, stateAfter self k t c = Some (s, ck) -> events s = [].
Proof.
  intros Hcb. induction k as [|k IH]; intros s ck Hs.
  - unfold stateAfter in Hs. apply bindM_Some in Hs as (pop & c0 & _ & Hs).
    cbn [generationsFrom] in Hs. apply retM_Some in Hs as [Hs _]. by subst s.
  - apply stateAfter_S in Hs as (s0 & c0 & Hs0 & Hstep).
    apply generationStep_spec in Hstep as (fs & _ & _ & _ & Hev).
    rewrite Hcb in Hev. cbn [andb] in Hev. rewrite Hev. by eapply IH.
Qed.

Lemma tenths_step n :
  S (n + 9) / 10 = (n + 9) / 10 + (if n mod 10 =? 0 then 1 else 0).
Proof.
  pose proof (Nat.div_mod_eq n 10) as H1.
  pose proof (Nat.div_mod_eq (n + 9) 10) as H2.
  pose proof (Nat.div_mod_eq (S (n + 9)) 10) as H3.
  pose proof (Nat.mod_upper_bound n 10 ltac:(lia)) as H4.
  pose proof (Nat.mod_upper_bound (n + 9) 10 ltac:(lia)) as H5.
  pose proof (Nat.mod_upper_bound (S (n + 9)) 10 ltac:(lia)) as H6.
  destruct (Nat.eqb_spec (n mod 10) 0) as [Hz|Hnz];
    generalize dependent (n mod 10); generalize dependent (n / 10);
    generalize dependent ((n + 9) mod 10); generalize dependent ((n + 9) / 10);
    generalize dependent (S (n + 9) mod 10); generalize dependent (S (n + 9) / 10);
    intros; lia.
Qed.

Lemma tenths_count n :
  length (List.filter (fun gen => gen mod 10 =? 0) (seq 0 n)) = (n + 9) / 10.
Proof.
  induction n as [|n IH]; [done|].
  rewrite seq_S, List.filter_app, length_app, IH. cbn [List.filter Nat.add].
  rewrite tenths_step. by destruct (n mod 10 =? 0).
Qed.

(** X21. A run of [optimize] that returns has reported no event at all
    when no progress callback was given, and otherwise one event for every
    started block of ten generations plus the final one:
    ceil(generations / 10) + 1 events. *)
Theorem optimize_event_count self t c teams log c' :
  optimize self t c = Some ((teams, log), c') ->
  length log = if onProgress self then (generations self + 9) / 10 + 1 else 0.
Proof.
  intros H. unfold optimize in H.
  apply bindM_Some in H as (st & c1 & Hrun & H).
  apply bindM_Some in H as (best & c2 & Hbest & H).
  apply liftM_Some in Hbest as [Hbest ->].
  apply bindM_Some in H as (decodedTeams & c3 & Hdec & H).
  apply liftM_Some in Hdec as [Hdec ->].
  apply retM_Some in H as [Heq ->]. injection Heq as _ ->.
  destruct (onProgress self) eqn:Hcb.
  - destruct (events_upto self t c Hcb (generations self) st c1 Hrun) as [Hgens _].
    rewrite length_app. cbn [length].
    rewrite <- (length_map ev_generation), Hgens, tenths_count. lia.
  - by rewrite (events_silent self t c Hcb (generations self) st c1 Hrun).
Qed.

Lemma optimize_event_count_witness :
  exists teams log c',
    optimize pairLeague zeroTape 0 = Some ((teams, log), c') /\
    length log = 2.
Proof.
  assert (exists teams log c', optimize pairLeague zeroTape 0 = Some ((teams, log), c'))
    as (teams & log & c' & Hrun) by (eexists _, _, _; vm_compute; reflexivity).
  exists teams, log, c'. split; [exact Hrun|].
  exact (optimize_event_count pairLeague zeroTape 0 teams log c' Hrun).
Defined.

(** * The draws of [createIndividual] *)

Lemma createGroups_draws n gs : forall st t c st' c',
  createGroups n gs st t c = Some (st', c') -> c' = c + length gs.
Proof.
  induction gs as [|[g ms] rest IH]; intros st t c st' c' H.
  - cbn in H. apply retM_Some in H as [_ ->]. cbn. lia.
  - cbn [createGroups] in H. apply bindM_Some in H as (team & c1 & Hdraw & H).
    apply randomInt_Some in Hdraw as [_ ->]. apply IH in H. cbn [length]. lia.
Qed.

Lemma createRemaining_draws n pending assigned : forall ind t c ind' c',
  createRemaining n pending assigned ind t c = Some (ind', c') ->
  c' = c + length (List.filter
                     (fun i => negb (bool_decide (assigned !! i = Some true))) pending).
Proof.
  induction pending as [|i rest IH]; intros ind t c ind' c' H.
  - cbn in H. apply retM_Some in H as [_ ->]. cbn. lia.
  - cbn [createRemaining List.filter] in *.
    destruct (assigned !! i) as [[|]|] eqn:Hi.
    + rewrite bool_decide_eq_true_2 by done. cbn [negb]. by eapply IH.
    + rewrite bool_decide_eq_false_2 by done. cbn [negb length].
      apply bindM_Some in H as (team & c1 & Hdraw & H).
      apply randomInt_Some in Hdraw as [_ ->]. apply IH in H. lia.
    + rewrite bool_decide_eq_false_2 by done. cbn [negb length].
      apply bindM_Some in H as (team & c1 & Hdraw & H).
      apply randomInt_Some in Hdraw as [_ ->]. apply IH in H. lia.
Qed.

Lemma filter_ext_in {A} (f g : A -> bool) (l : list A) :
  (forall x, x ∈ l -> f x = g x) -> List.filter f l = List.filter g l.
Proof.
  induction l as [|x l IH]; intros H; [done|]. cbn [List.filter].
  rewrite (H x) by left. rewrite IH; [done|]. intros y Hy. apply H. by right.
Qed.

(** X22. [createIndividual] makes exactly one draw for every co-assign
    group and one draw for every player outside every group, whatever the
    tape. *)
Theorem createIndividual_draws ps teamCount options t c :
  let self := newOptimizer ps teamCount options in
  exists individual,
    createIndividual self t c
    = Some (individual,
            c + length (coAssignGroups self) + length (nonCoAssignIndices self)).
Proof.
  intros self. pose proof (newOptimizer_wf ps teamCount options) as Hwf.
  fold self in Hwf.
  destruct (createIndividual_total self t c) as (individual & c' & Hrun & _).
  exists individual. rewrite Hrun. do 2 f_equal.
  unfold createIndividual in Hrun.
  apply bindM_Some in Hrun as ([ind1 assigned] & c1 & Hgroups & Hrest).
  cbn [fst snd] in Hrest.
  pose proof (createGroups_draws _ _ _ _ _ _ _ Hgroups) as ->.
  pose proof (createRemaining_draws _ _ _ _ _ _ _ _ Hrest) as ->.
  f_equal. f_equal. unfold nonCoAssignIndices. apply filter_ext_in.
  intros i Hi. apply elem_of_seq in Hi as [_ Hi]. cbn in Hi. f_equal.
  eapply (createGroups_spec _ _ _ (proj2 Hwf)) in Hgroups
    as (_ & _ & Hout & Hgrp & _);
    [|done|apply (proj2 Hwf)|cbn; by rewrite !length_replicate].
  cbn [fst snd] in *. rewrite length_replicate in Hgrp.
  destruct (isCoAssigned (coAssignGroups self) i) eqn:Hco.
  - apply isCoAssigned_spec in Hco as (g & ms & Hin & Hims).
    destruct (Hgrp g ms Hin) as [v Hv]. destruct (Hv i Hims Hi) as [_ ->].
    by apply bool_decide_eq_true_2.
  - destruct (Hout i) as [_ ->].
    { intros g ms Hin. by eapply isCoAssigned_false. }
    rewrite lookup_replicate_2 by done. by apply bool_decide_eq_false_2.
Qed.

(** * Reading a line of CSV *)

Lemma scanLine_plain field : forall rest values current inQuotes,
  quoteUnit ∉ field -> (inQuotes = false -> commaUnit ∉ field) ->
  scanLine (field ++ rest) values current inQuotes
  = scanLine rest values (current ++ field) inQuotes.
Proof.
  induction field as [|ch field IH]; intros rest values current inQuotes Hq Hc.
  - cbn. by rewrite app_nil_r.
  - cbn [app scanLine].
    destruct (N.eqb_spec ch quoteUnit) as [->|_]; [destruct Hq; left|].
    assert ((ch =? commaUnit)%N && negb inQuotes = false) as ->.
    { destruct inQuotes; [by rewrite andb_false_r|].
      destruct (N.eqb_spec ch commaUnit) as [->|_]; [|done]. destruct Hc; [done|left]. }
    rewrite IH.
    + by rewrite <- app_assoc.
    + intros H. apply Hq. by right.
    + intros Hin H. apply Hc; [done|by right].
Qed.

Lemma scanLine_field field rest values current :
  writable field ->
  scanLine (writeField field ++ rest) values current false
  = scanLine rest values (current ++ field.2) false.
Proof.
  destruct field as [[|] s]; intros [Hq Hc]; cbn [writeField fst snd] in *.
  - cbn [app scanLine]. rewrite N.eqb_refl. cbn [negb].
    rewrite <- app_assoc, scanLine_plain by done.
    cbn [app scanLine]. by rewrite N.eqb_refl.
  - apply scanLine_plain; [done|]. intros _. by apply Hc.
Qed.

Lemma scanLine_record fields : forall values,
  fields <> [] -> Forall writable fields ->
  scanLine (writeLine fields) values [] false
  = values ++ map (fun field => trim field.2) fields.
Proof.
  induction fields as [|field rest IH]; intros values Hne Hall; [done|].
  apply Forall_cons in Hall as [Hfield Hrest].
  destruct rest as [|next rest].
  - cbn [writeLine map]. rewrite <- (app_nil_r (writeField field)).
    by rewrite scanLine_field.
  - change (writeLine (field :: next :: rest))
      with (writeField field ++ commaUnit :: writeLine (next :: rest)).
    rewrite scanLine_field by done. cbn [app scanLine].
    change (commaUnit =? quoteUnit)%N with false. rewrite N.eqb_refl. cbn [andb negb].
    rewrite IH by done. cbn [map]. by rewrite <- app_assoc.
Qed.

(** X23. Reading back a written record: when the fields of a record hold no
    double quote, and the fields written without quotes hold no comma, then
    [parseCSVLine] returns, from the line that separates the written fields
    by commas, exactly the fields, each trimmed; a comma between quotes does
    not split a field. *)
Theorem parseCSVLine_reads_back fields :
  fields <> [] -> Forall writable fields ->
  parseCSVLine (writeLine fields) = map (fun field => trim field.2) fields.
Proof. intros Hne Hall. unfold parseCSVLine. by rewrite scanLine_record. Qed.

Lemma parseCSVLine_reads_back_witness :
  let fields := [(false, [65; 32]%N); (true, [66; 44; 67]%N)] in
  fields <> [] /\ Forall writable fields /\
  parseCSVLine [65; 32; 44; 34; 66; 44; 67; 34]%N = [[65]; [66; 44; 67]]%N.
Proof.
  cbv zeta.
  assert ([(false, [65; 32]%N); (true, [66; 44; 67]%N)]
          <> ([] : list (bool * jsString))) as Hne by done.
  assert (Forall writable [(false, [65; 32]%N); (true, [66; 44; 67]%N)]) as Hall.
  { assert (forall (x : N) (l : jsString), forallb (fun y => negb (x =? y)%N) l = true ->
              x ∉ l) as Hnotin.
    { intros x l Hl Hin. apply list_elem_of_In in Hin.
      rewrite forallb_forall in Hl. specialize (Hl x Hin).
      by rewrite N.eqb_refl in Hl. }
    assert (writable (false, [65; 32]%N)) as H1.
    { split; [by apply Hnotin|]. intros _. by apply Hnotin. }
    assert (writable (true, [66; 44; 67]%N)) as H2.
    { split; [by apply Hnotin|]. intros H. discriminate H. }
    constructor; [exact H1|]. constructor; [exact H2|]. constructor. }
  split; [exact Hne|]. split; [exact Hall|].
  exact (parseCSVLine_reads_back _ Hne Hall).
Defined.

Lemma trimStart_elem s x : x ∈ trimStart s -> x ∈ s.
Proof.
  induction s as [|ch s IH]; [done|]. cbn.
  destruct (isWhiteSpace ch); [|done]. intros H. right. by apply IH.
Qed.

Lemma rev_elem (s : jsString) x : x ∈ rev s <-> x ∈ s.
Proof. rewrite !list_elem_of_In. symmetry. apply in_rev. Qed.

Lemma trim_elem s x : x ∈ trim s -> x ∈ s.
Proof.
  unfold trim, trimEnd. intros H. apply trimStart_elem.
  apply (proj1 (rev_elem _ _)), trimStart_elem in H.
  exact (proj1 (rev_elem _ _) H).
Qed.

Lemma trimStart_head s :
  trimStart s = [] \/ exists ch rest, trimStart s = ch :: rest /\ isWhiteSpace ch = false.
Proof.
  induction s as [|ch s IH]; [by left|]. cbn.
  destruct (isWhiteSpace ch) eqn:Hch; [done|]. right. by exists ch, s.
Qed.

Lemma trimStart_fixed ch rest :
  isWhiteSpace ch = false -> trimStart (ch :: rest) = ch :: rest.
Proof. intros H. cbn. by rewrite H. Qed.

Lemma trimStart_snoc s ch :
  isWhiteSpace ch = false -> trimStart (s ++ [ch]) = trimStart s ++ [ch].
Proof.
  intros Hch. induction s as [|x s IH]; cbn; [by rewrite Hch|].
  by destruct (isWhiteSpace x).
Qed.

Lemma trimEnd_fixed s :
  trimStart s = s -> trimStart (trimEnd s) = trimEnd s /\ trimEnd (trimEnd s) = trimEnd s.
Proof.
  intros Hs. unfold trimEnd.
  destruct (trimStart_head (rev s)) as [Hnil|(ch & rest & Hrev & Hch)].
  - rewrite Hnil. done.
  - split.
    + destruct (trimStart_head s) as [Hs0|(a & s' & Hsa & Ha)].
      * rewrite Hs in Hs0. subst s. done.
      * rewrite Hs in Hsa. subst s. cbn [rev]. rewrite (trimStart_snoc _ _ Ha).
        rewrite rev_app_distr. cbn [rev app]. by apply trimStart_fixed.
    + rewrite rev_involutive. rewrite Hrev. by rewrite (trimStart_fixed _ _ Hch).
Qed.

Lemma trimStart_idem s : trimStart (trimStart s) = trimStart s.
Proof.
  destruct (trimStart_head s) as [->|(ch & rest & -> & Hch)]; [done|].
  by apply trimStart_fixed.
Qed.

Lemma trim_idem s : trim (trim s) = trim s.
Proof.
  unfold trim. destruct (trimEnd_fixed (trimStart s) (trimStart_idem s)) as [H1 H2].
  by rewrite H1, H2.
Qed.

Lemma scanLine_values line : forall values current inQuotes,
  Forall (fun v => (quoteUnit ∉ v) /\ trim v = v) values -> quoteUnit ∉ current ->
  Forall (fun v => (quoteUnit ∉ v) /\ trim v = v) (scanLine line values current inQuotes)
  /\ scanLine line values current inQuotes <> [].
Proof.
  assert (forall values current,
            Forall (fun v => (quoteUnit ∉ v) /\ trim v = v) values ->
            quoteUnit ∉ current ->
            Forall (fun v => (quoteUnit ∉ v) /\ trim v = v) (values ++ [trim current]))
    as Hpush.
  { intros values current Hall Hq. apply Forall_app. split; [done|].
    constructor; [|constructor]. split; [|apply trim_idem].
    intros H. by apply Hq, trim_elem. }
  induction line as [|ch rest IH]; intros values current inQuotes Hall Hq.
  - cbn. split; [by apply Hpush|]. by destruct values.
  - cbn [scanLine]. destruct (N.eqb_spec ch quoteUnit) as [->|Hne]; [by apply IH|].
    destruct ((ch =? commaUnit)%N && negb inQuotes).
    + apply IH; [by apply Hpush|]. intros H. by apply elem_of_nil in H.
    + apply IH; [done|]. intros H. apply elem_of_app in H as [H|H]; [done|].
      by apply list_elem_of_singleton in H.
Qed.

Lemma scanLine_count line : forall values current,
  quoteUnit ∉ line ->
  length (scanLine line values current false)
  = length values + S (length (List.filter (fun ch => (ch =? commaUnit)%N) line)).
Proof.
  induction line as [|ch rest IH]; intros values current Hq.
  - cbn. rewrite length_app. cbn. lia.
  - cbn [scanLine List.filter].
    destruct (N.eqb_spec ch quoteUnit) as [->|_]; [destruct Hq; left|].
    assert (quoteUnit ∉ rest) as Hrest by (intros H; apply Hq; by right).
    destruct (ch =? commaUnit)%N; cbn [andb negb length].
    + rewrite IH by done. rewrite length_app. cbn. lia.
    + by rewrite IH.
Qed.

(** X24. What [parseCSVLine] returns, for every line: at least one value
    (an empty line gives one empty value); no value holds a double quote;
    every value is trimmed; and a line without double quotes gives one value
    more than it has commas. *)
Theorem parseCSVLine_values line :
  parseCSVLine line <> [] /\
  Forall (fun value => (quoteUnit ∉ value) /\ trim value = value) (parseCSVLine line) /\
  (quoteUnit ∉ line ->
   length (parseCSVLine line)
   = S (length (List.filter (fun ch => (ch =? commaUnit)%N) line))).
Proof.
  unfold parseCSVLine.
  destruct (scanLine_values line [] [] false) as [Hall Hne];
    [constructor|intros H; by apply elem_of_nil in H|].
  split; [exact Hne|]. split; [exact Hall|].
  intros Hq. by rewrite scanLine_count.
Qed.

Lemma parseCSVLine_values_witness :
  (quoteUnit ∉ ([65; 44; 32; 66]%N : jsString)) /\
  length (parseCSVLine [65; 44; 32; 66]%N) = 2 /\
  parseCSVLine [65; 44; 32; 66]%N <> [].
Proof.
  assert (quoteUnit ∉ ([65; 44; 32; 66]%N : jsString)) as Hq.
  { intros Hin. apply list_elem_of_In in Hin. cbn in Hin.
    destruct Hin as [H|[H|[H|[H|[]]]]]; discriminate H. }
  destruct (parseCSVLine_values [65; 44; 32; 66]%N) as (Hne & _ & Hcount).
  split; [exact Hq|]. split; [exact (Hcount Hq)|exact Hne].
Defined.

(** * What [mutate] changes *)

Lemma mutatePlayers_spec self nonCoAssign :
  (forall i, i ∈ nonCoAssign -> isCoAssigned (coAssignGroups self) i = false) ->
  0 < numTeams self ->
  forall ind t c mutated c',
  mutatePlayers (numTeams self) nonCoAssign ind t c = Some (mutated, c') ->
  length mutated = length ind /\
  forall i,
    mutated !! i = ind !! i \/
    (isCoAssigned (coAssignGroups self) i = false /\
     exists team, team < numTeams self /\ mutated !! i = Some team).
Proof.
  intros Hfree Hpos. induction nonCoAssign as [|idx rest IH];
    intros ind t c mutated c' H.
  - cbn in H. apply retM_Some in H as [-> _]. split; [done|]. by left.
  - assert (forall i, i ∈ rest -> isCoAssigned (coAssignGroups self) i = false) as Hrest
      by (intros i Hi; apply Hfree; by right).
    cbn [mutatePlayers] in H. apply bindM_Some in H as (hit & c1 & _ & H).
    destruct hit; [|by apply (IH Hrest) in H].
    apply bindM_Some in H as (team & c2 & Hteam & H).
    apply randomInt_Some in Hteam as [-> _].
    apply (IH Hrest) in H as [Hlen Hcells]. rewrite length_insert in Hlen.
    split; [done|]. intros i. destruct (Hcells i) as [Heq|Hnew]; [|by right].
    destruct (decide (i = idx)) as [->|Hne].
    + destruct (decide (idx < length ind)) as [Hlt|Hge].
      * right. split; [apply Hfree; left|]. eexists. split; [by apply floor_scaled_lt|].
        rewrite Heq. by apply list_lookup_insert_eq.
      * left. rewrite Heq. by rewrite list_insert_ge by lia.
    + left. rewrite Heq. by apply list_lookup_insert_ne.
Qed.

Lemma mutateGroup_spec self ind t c mutated c' :
  0 < numTeams self ->
  mutateGroup self ind t c = Some (mutated, c') ->
  mutated = ind \/
  exists g members team,
    (g, members) ∈ coAssignGroups self /\ team < numTeams self /\
    mutated = writeAll team ind members.
Proof.
  intros Hpos H. unfold mutateGroup in H.
  destruct (0 <? length (map fst (coAssignGroups self)));
    [|apply retM_Some in H as [-> _]; by left].
  apply bindM_Some in H as (hit & c1 & _ & H).
  destruct hit; [|apply retM_Some in H as [-> _]; by left].
  apply bindM_Some in H as (k & c2 & _ & H).
  apply bindM_Some in H as (newTeam & c3 & Hteam & H).
  apply randomInt_Some in Hteam as [-> _]. apply retM_Some in H as [-> _].
  destruct (coAssignGroups self !! k) as [[g members]|] eqn:Hk; [|by left].
  right. exists g, members, (floor_scaled (t c2) (numTeams self)).
  split; [by eapply list_elem_of_lookup_2|]. split; [by apply floor_scaled_lt|done].
Qed.

(** X25. [mutate], on an individual with one cell per player, first gives a
    new team to some players of no group, one by one, and to at most one
    co-assign group, as a whole: either no grouped player changes team, or
    the members of one group all get the same team and the grouped players
    outside that group keep theirs.  Then it repairs the result. *)
Theorem mutate_changes ps teamCount options individual t c result c' :
  let self := newOptimizer ps teamCount options in
  0 < teamCount -> length individual = length ps ->
  mutate self individual t c = Some (result, c') ->
  exists mutated c1,
    mutatedFrom self individual mutated /\
    repairIndividual self mutated t c1 = Some (result, c').
Proof.
  intros self Hpos Hlen H. pose proof (newOptimizer_wf ps teamCount options) as Hwf.
  fold self in Hwf. unfold mutate in H.
  apply bindM_Some in H as (m1 & c1 & Hplayers & H).
  apply bindM_Some in H as (m2 & c2 & Hgroup & H).
  exists m2, c2. split; [|exact H].
  assert (forall i, i ∈ nonCoAssignIndices self ->
            isCoAssigned (coAssignGroups self) i = false) as Hfree.
  { intros i Hi. unfold nonCoAssignIndices in Hi.
    apply filter_elem_of in Hi as [_ Hfree]. by apply negb_true_iff. }
  destruct (mutatePlayers_spec self _ Hfree Hpos _ _ _ _ _ Hplayers) as [Hl1 Hcells].
  clear Hfree.
  assert (forall i, isCoAssigned (coAssignGroups self) i = true ->
            m1 !! i = individual !! i) as Hkept.
  { intros i Hco. destruct (Hcells i) as [?|[Hno _]]; [done|congruence]. }
  destruct (mutateGroup_spec self _ _ _ _ _ Hpos Hgroup)
    as [->|(g & members & team & Hin & Hteam & ->)].
  - split; [done|]. split.
    + intros i Hfree. destruct (Hcells i) as [?|[_ ?]]; [by left|by right].
    + left. exact Hkept.
  - split; [by rewrite writeAll_length|]. split.
    + intros i Hfree. rewrite writeAll_lookup.
      rewrite bool_decide_eq_false_2.
      * destruct (Hcells i) as [?|[_ ?]]; [by left|by right].
      * intros [Hi _]. by apply (isCoAssigned_false _ _ _ _ Hfree Hin).
    + right. exists g, members, team. split_and!; [done..| |].
      * intros i Hi. rewrite writeAll_lookup.
        rewrite bool_decide_eq_true_2; [done|]. split; [done|].
        pose proof (group_member_lt _ _ _ _ Hwf Hin Hi) as Hlt.
        change (numPlayers self) with (length ps) in Hlt. lia.
      * intros i Hco Hout. rewrite writeAll_lookup.
        rewrite bool_decide_eq_false_2; [by apply Hkept|].
        intros [Hi _]. done.
Qed.

Lemma mutate_changes_witness :
  0 < 2 /\ length [0; 1; 1] = length (players carpoolLeague) /\
  exists result c',
    mutate carpoolLeague [0; 1; 1] zeroTape 0 = Some (result, c') /\
    exists mutated c1,
      mutatedFrom carpoolLeague [0; 1; 1] mutated /\
      repairIndividual carpoolLeague mutated zeroTape c1 = Some (result, c').
Proof.
  assert (0 < 2) as Hpos by lia.
  assert (exists result c', mutate carpoolLeague [0; 1; 1] zeroTape 0 = Some (result, c'))
    as (result & c' & Hrun) by (eexists _, _; vm_compute; reflexivity).
  split; [exact Hpos|]. split; [reflexivity|]. exists result, c'. split; [exact Hrun|].
  exact (mutate_changes
           [examplePlayer "P" None; examplePlayer "SS" (Some 1%positive);
            examplePlayer "C" (Some 1%positive)]
           2 (mkOptions (Some 2) (Some 1) true) [0; 1; 1] zeroTape 0 result c'
           Hpos eq_refl Hrun).
Defined.

(** Two groups never move together: in [twoCarpools] the random phase of
    [mutate] cannot turn [0, 0, 0, 0] into [1, 1, 1, 1]. *)
Lemma mutatedFrom_one_group : ~ mutatedFrom twoCarpools [0; 0; 0; 0] [1; 1; 1; 1].
Proof.
  intros (_ & _ & [Hkept|(g & members & team & Hin & _ & _ & Hrest)]).
  - by specialize (Hkept 0 eq_refl).
  - change (coAssignGroups twoCarpools)
      with [(1%positive, [1; 3]); (2%positive, [0; 2])] in Hin.
    apply elem_of_cons in Hin as [Heq|Hin].
    + injection Heq as _ ->. specialize (Hrest 0 eq_refl).
      assert (0 ∉ [1; 3]) as Hout.
      { intros H. apply elem_of_cons in H as [?|H]; [done|].
        by apply list_elem_of_singleton in H. }
      by specialize (Hrest Hout).
    + apply list_elem_of_singleton in Hin. injection Hin as _ ->.
      specialize (Hrest 1 eq_refl).
      assert (1 ∉ [0; 2]) as Hout.
      { intros H. apply elem_of_cons in H as [?|H]; [done|].
        by apply list_elem_of_singleton in H. }
      by specialize (Hrest Hout).
Qed.

(** * The suggested number of teams *)

(** X26. The number of teams [handleFile] suggests is at least 2; the range
    check of [runOptimization] rejects it exactly when the file has 210
    players or more (the suggestion then exceeds 20), and the suggestion
    triggers the too-few-players warning exactly when the file has fewer
    than 18 players. *)
Theorem suggestedTeams_checks playerCount :
  2 <= suggestedTeams playerCount /\
  (teamCountRejected (suggestedTeams playerCount) = true <-> 210 <= playerCount) /\
  (tooFewPlayers playerCount (suggestedTeams playerCount) = true <-> playerCount < 18).
Proof.
  unfold suggestedTeams, teamCountRejected, tooFewPlayers.
  pose proof (Nat.div_mod_eq playerCount 10) as Hdiv.
  pose proof (Nat.mod_upper_bound playerCount 10 ltac:(lia)) as Hmod.
  generalize dependent (playerCount mod 10). generalize dependent (playerCount / 10).
  intros q r Hdiv Hmod. rewrite orb_true_iff, !Nat.ltb_lt. lia.
Qed.
